(** * Form engine: validation rules and derived-field computation

    A shallow embedding of the two services of the form builder,
    [ValidationEngine] and [DerivedFieldCalculator], and the properties of
    them that the specification states.

    Conventions of the embedding.
    - A JavaScript string is the list of its UTF-16 code units.
    - A value of type [any] is a term of the inductive type [any].
    - A [Record<string, T>] is a finite map over its own string-keyed
      properties; the names an object inherits from [Object.prototype] are
      outside the model, so field ids are taken not to collide with them.
    - Objects that the code shares and writes to live in a store and are
      named by a location: the rule arrays of a schema for the validator,
      the value records for the calculator.
    - A call either returns, throws an [Error], or (for the two recursive
      traversals, which are run on a budget of calls) runs out of budget. *)

From Stdlib Require Import Ascii String PrimFloat Uint63.
From stdpp Require Import gmap list strings.

Set Default Proof Using "Type".
(* [set_solver] clears hypotheses by name and warns when one is already gone. *)
#[local] Set Warnings "-clear-no-such-hyp".

(** ** JavaScript strings *)

Definition jsstring : Type := list N.

(** The string written [s] in the source (ASCII literals only). *)
Definition js (s : string) : jsstring := N_of_ascii <$> String.list_ascii_of_string s.

(** [WhiteSpace] and [LineTerminator] code points: what [String.prototype.trim]
    strips and what [\s] matches. *)
Definition isWhiteSpace (c : N) : bool :=
  ((9 <=? c) && (c <=? 13) || (c =? 32) || (c =? 160) || (c =? 5760)
   || (8192 <=? c) && (c <=? 8202) || (c =? 8232) || (c =? 8233)
   || (c =? 8239) || (c =? 8287) || (c =? 12288) || (c =? 65279))%N.

(** [\w] without the [u] and [i] flags: ASCII letters, digits and underscore. *)
Definition isWordChar (c : N) : bool :=
  ((48 <=? c) && (c <=? 57) || (65 <=? c) && (c <=? 90) || (c =? 95)
   || (97 <=? c) && (c <=? 122))%N.

Fixpoint dropWhile {A} (p : A → bool) (l : list A) : list A :=
  match l with
  | [] => []
  | x :: l' => if p x then dropWhile p l' else l
  end.

Fixpoint takeWhile {A} (p : A → bool) (l : list A) : list A :=
  match l with
  | [] => []
  | x :: l' => if p x then x :: takeWhile p l' else []
  end.

(** [s.trim()] *)
Definition trim (s : jsstring) : jsstring :=
  reverse (dropWhile isWhiteSpace (reverse (dropWhile isWhiteSpace s))).

(** [parts.join(sep)] *)
Fixpoint join (sep : jsstring) (parts : list jsstring) : jsstring :=
  match parts with
  | [] => []
  | [p] => p
  | p :: rest => p ++ sep ++ join sep rest
  end.

(** [s] starts with [w]; the rest of [s] when it does. *)
Fixpoint stripPrefix (w s : jsstring) : option jsstring :=
  match w, s with
  | [], _ => Some s
  | _ :: _, [] => None
  | a :: w', b :: s' => if (a =? b)%N then stripPrefix w' s' else None
  end.

(** ** Values *)

(** The values the engine meets under the type [any]. An array is dense; an
    object is given by its own enumerable properties; a function is opaque. *)
#[local] Unset Elimination Schemes.
Inductive any : Type :=
  | VUndefined
  | VNull
  | VBool (b : bool)
  | VNum (x : float)
  | VStr (s : jsstring)
  | VArray (items : list any)
  | VDate (time : float)
  | VObject (props : list (jsstring * any))
  | VFunction (name : jsstring).
#[local] Set Elimination Schemes.

Inductive jstype : Type :=
  TUndefined | TObject | TBoolean | TNumber | TString | TFunction.

Definition typeof (v : any) : jstype :=
  match v with
  | VUndefined => TUndefined
  | VNull => TObject
  | VBool _ => TBoolean
  | VNum _ => TNumber
  | VStr _ => TString
  | VArray _ | VDate _ | VObject _ => TObject
  | VFunction _ => TFunction
  end.

Global Instance jstype_eq_dec : EqDecision jstype.
Proof. solve_decision. Defined.

Definition isNull (v : any) : bool :=
  match v with VNull => true | _ => false end.

Definition isArray (v : any) : bool :=
  match v with VArray _ => true | _ => false end.

Definition instanceofDate (v : any) : bool :=
  match v with VDate _ => true | _ => false end.

(** [v.length] of an array. *)
Definition arrayLength (v : any) : nat :=
  match v with VArray items => length items | _ => 0 end.

(** [Object.keys(v).length] for a value that is neither null nor undefined:
    the indices of an array or a string, the own enumerable properties of an
    object; a date, a number, a boolean and a function have none. *)
Definition objectKeysLength (v : any) : nat :=
  match v with
  | VArray items => length items
  | VObject props => length props
  | VStr s => length s
  | _ => 0
  end.

(** [o[k]]: the property, or undefined. *)
Definition getProp (o : gmap jsstring any) (k : jsstring) : any :=
  default VUndefined (o !! k).

(** [k in o] *)
Definition hasProp (k : jsstring) (o : gmap jsstring any) : bool :=
  bool_decide (is_Some (o !! k)).

(** ** Schema types (types/form.ts) *)

Inductive RuleType : Type :=
  notEmpty | minLength | maxLength | email | customPassword.

Global Instance RuleType_eq_dec : EqDecision RuleType.
Proof. solve_decision. Defined.

Record ValidationRule : Type := {
  rule_type : RuleType;
  rule_value : option float;
  rule_message : jsstring
}.

Record DerivedFieldConfig : Type := {
  parentFields : list jsstring;
  computationLogic : jsstring
}.

Inductive FieldType : Type :=
  text | number | textarea | select | radio | checkbox | date.

(** Locations of the objects of a store. *)
Definition loc : Type := positive.

(** [validation] is a reference: the array is an object that the schema and
    the validator share. *)
Record FormField : Type := {
  id : jsstring;
  field_type : FieldType;
  label : jsstring;
  required : bool;
  defaultValue : option any;
  validation : option loc;
  options : option (list jsstring);
  derivedFrom : option DerivedFieldConfig
}.

Record FormSchema : Type := {
  schema_id : jsstring;
  name : jsstring;
  createdAt : float;
  fields : list FormField
}.

Record ValidationResult : Type := {
  result_isValid : bool;
  result_errors : list jsstring
}.

Record FormValidationResult : Type := {
  isValid : bool;
  fieldErrors : gmap jsstring (list jsstring)
}.

(** ** The store of rule arrays *)

(** [field.validation] arrays, by location. *)
Abbreviation ruleStore := (gmap loc (list ValidationRule)).

(** The array at [r]. *)
Definition rulesAt (σ : ruleStore) (r : loc) : list ValidationRule :=
  default [] (σ !! r).

(** A new array literal: a location the store does not use yet. *)
Definition allocRules (rules : list ValidationRule) (σ : ruleStore) : loc * ruleStore :=
  let r := fresh (dom σ) in (r, <[r := rules]> σ).

(** [rules.unshift(rule)]: the array at [r] is updated in place. *)
Definition unshift (r : loc) (rule : ValidationRule) (σ : ruleStore) : ruleStore :=
  <[r := rule :: rulesAt σ r]> σ.

(** ** ValidationEngine *)

Module ValidationEngine.
Section ValidationEngine.

(** [String(value)]: the host's string conversion, which the embedding does
    not interpret. *)
Variable ToString : any → jsstring.

(** [n < bound] on numbers, for a length [n]; an absent bound is undefined,
    which compares false. *)
Definition lengthLt (n : nat) (bound : option float) : bool :=
  match bound with
  | Some b => PrimFloat.ltb (PrimFloat.of_uint63 (Uint63.of_Z (Z.of_nat n))) b
  | None => false
  end.

Definition lengthGt (n : nat) (bound : option float) : bool :=
  match bound with
  | Some b => PrimFloat.ltb b (PrimFloat.of_uint63 (Uint63.of_Z (Z.of_nat n)))
  | None => false
  end.

Definition validateNotEmpty (value : any) (message : jsstring) : option jsstring :=
  match value with
  | VNull | VUndefined => Some message
  | _ =>
    if bool_decide (typeof value = TString) &&
       match value with VStr s => bool_decide (trim s = []) | _ => false end
    then Some message
    else if isArray value && (arrayLength value =? 0)
    then Some message
    else if bool_decide (typeof value = TObject) && (objectKeysLength value =? 0)
    then Some message
    else None
  end.

Definition validateMinLength (value : any) (minLength : option float)
    (message : jsstring) : option jsstring :=
  match value with
  | VNull | VUndefined => None
  | _ =>
    let stringValue := ToString value in
    if lengthLt (length stringValue) minLength then Some message else None
  end.

Definition validateMaxLength (value : any) (maxLength : option float)
    (message : jsstring) : option jsstring :=
  match value with
  | VNull | VUndefined => None
  | _ =>
    let stringValue := ToString value in
    if lengthGt (length stringValue) maxLength then Some message else None
  end.

(** [/^[^\s@]+@[^\s@]+\.[^\s@]+$/.test(s)]: the text before the first [@]
    is not empty, what follows the [@] has neither blanks nor another [@],
    and has a dot that is neither its first nor its last character. *)
Definition emailRegexTest (s : jsstring) : bool :=
  let plain c := negb (isWhiteSpace c) && negb (c =? 64)%N in
  match dropWhile plain s with
  | 64%N :: rest =>
    negb (bool_decide (takeWhile plain s = []))
    && forallb plain rest
    && match rest with
       | _ :: tl => existsb (λ c, (c =? 46)%N) (removelast tl)
       | [] => false
       end
  | _ => false
  end.

Definition validateEmail (value : any) (message : jsstring) : option jsstring :=
  match value with
  | VNull | VUndefined | VStr [] => None
  | _ =>
    let stringValue := ToString value in
    if negb (emailRegexTest stringValue) then Some message else None
  end.

(** The characters of the class of special characters of the password rule:
    ! @ # $ % ^ & * ( ) _ + - = [ ] { } ; ' : the double quote, the backslash,
    | , . < > / and ?. *)
Definition specialChars : list N :=
  [33; 64; 35; 36; 37; 94; 38; 42; 40; 41; 95; 43; 45; 61; 91; 93; 123; 125;
   59; 39; 58; 34; 92; 124; 44; 46; 60; 62; 47; 63]%N.

Definition validateCustomPassword (value : any) (message : jsstring) : option jsstring :=
  match value with
  | VNull | VUndefined | VStr [] => None
  | _ =>
    let stringValue := ToString value in
    if length stringValue <? 8 then Some message
    else if negb (existsb (λ c, (65 <=? c) && (c <=? 90))%N stringValue) then Some message
    else if negb (existsb (λ c, (97 <=? c) && (c <=? 122))%N stringValue) then Some message
    else if negb (existsb (λ c, (48 <=? c) && (c <=? 57))%N stringValue) then Some message
    else if negb (existsb (λ c, bool_decide (c ∈ specialChars)) stringValue) then Some message
    else None
  end.

Definition validateSingleRule (value : any) (rule : ValidationRule) : option jsstring :=
  match rule_type rule with
  | notEmpty => validateNotEmpty value (rule_message rule)
  | minLength => validateMinLength value (rule_value rule) (rule_message rule)
  | maxLength => validateMaxLength value (rule_value rule) (rule_message rule)
  | email => validateEmail value (rule_message rule)
  | customPassword => validateCustomPassword value (rule_message rule)
  end.

(** The loop of [validateField]: a message is pushed when it is truthy, that
    is, neither null nor the empty string. *)
Fixpoint collectErrors (value : any) (rules : list ValidationRule) : list jsstring :=
  match rules with
  | [] => []
  | rule :: rest =>
    match validateSingleRule value rule with
    | Some ((_ :: _) as error) => error :: collectErrors value rest
    | _ => collectErrors value rest
    end
  end.

Definition validateField (value : any) (rules : list ValidationRule) : ValidationResult :=
  let errors := collectErrors value rules in
  {| result_isValid := bool_decide (length errors = 0); result_errors := errors |}.

(** The rule that [validateForm] makes up for a required field. *)
Definition requiredRule (field : FormField) : ValidationRule :=
  {| rule_type := notEmpty;
     rule_value := None;
     rule_message := label field ++ js " is required" |}.

(** State of the loop of [validateForm]: the store, and the two locals
    [fieldErrors] and [isValid]. *)
Record formLoop : Type := {
  loop_store : ruleStore;
  loop_fieldErrors : gmap jsstring (list jsstring);
  loop_isValid : bool
}.

(** One iteration of the loop over [schema.fields]. [rules] is the array of
    the field itself when the field has one, and a new empty array otherwise;
    [unshift] writes to whichever it is. *)
Definition validateFormStep (values : gmap jsstring any) (st : formLoop)
    (field : FormField) : formLoop :=
  let fieldValue := getProp values (id field) in
  let '(rules, σ) :=
    match validation field with
    | Some r => (r, loop_store st)
    | None => allocRules [] (loop_store st)
    end in
  let σ :=
    if required field then
      let hasNotEmptyRule :=
        existsb (λ rule, bool_decide (rule_type rule = notEmpty)) (rulesAt σ rules) in
      if negb hasNotEmptyRule then unshift rules (requiredRule field) σ else σ
    else σ in
  let result := validateField fieldValue (rulesAt σ rules) in
  if negb (result_isValid result)
  then {| loop_store := σ;
          loop_fieldErrors := <[id field := result_errors result]> (loop_fieldErrors st);
          loop_isValid := false |}
  else {| loop_store := σ;
          loop_fieldErrors := loop_fieldErrors st;
          loop_isValid := loop_isValid st |}.

(** [validateForm(values, schema)] in the store [σ]: the result, and the
    store the call leaves. *)
Definition validateForm (values : gmap jsstring any) (schema : FormSchema)
    (σ : ruleStore) : FormValidationResult * ruleStore :=
  let st := fold_left (validateFormStep values) (fields schema)
              {| loop_store := σ; loop_fieldErrors := ∅; loop_isValid := true |} in
  ({| isValid := loop_isValid st; fieldErrors := loop_fieldErrors st |}, loop_store st).

End ValidationEngine.
End ValidationEngine.

(** ** Completions *)

(** A JavaScript [Error], by its message. *)
Record Error : Type := { error_message : jsstring }.

(** How a call ends: it returns, it throws, or the budget of nested calls
    given to a recursive traversal is used up. *)
Inductive completion (A : Type) : Type :=
  | Normal (a : A)
  | Throw (e : Error)
  | OutOfBudget.
Arguments Normal {A} a.
Arguments Throw {A} e.
Arguments OutOfBudget {A}.

Global Instance completion_ret : MRet completion := λ A a, Normal a.
Global Instance completion_bind : MBind completion := λ A B k m,
  match m with
  | Normal a => k a
  | Throw e => Throw e
  | OutOfBudget => OutOfBudget
  end.

(** [try { body } catch (error) { handler }] *)
Definition tryCatch {A} (body : completion A) (handler : Error → completion A) : completion A :=
  match body with
  | Throw e => handler e
  | _ => body
  end.

(** [throw new Error(message)] *)
Definition throwError {A} (message : jsstring) : completion A :=
  Throw {| error_message := message |}.

(** ** The store of value records *)

Abbreviation heap := (gmap loc (gmap jsstring any)).

(** The record at [l]. *)
Definition recordAt (h : heap) (l : loc) : gmap jsstring any :=
  default ∅ (h !! l).

(** [{ ...o }]: a new record with the properties of the record at [l]. *)
Definition spread (l : loc) (h : heap) : loc * heap :=
  let l' := fresh (dom h) in (l', <[l' := recordAt h l]> h).

(** [o[k] = v]: the record at [l] is updated in place. *)
Definition setProp (l : loc) (k : jsstring) (v : any) (h : heap) : heap :=
  <[l := <[k := v]> (recordAt h l)]> h.

(** ** DerivedFieldCalculator *)

Inductive ErrorType : Type :=
  invalid_expression | missing_parent | evaluation_error | circular_dependency.

Global Instance ErrorType_eq_dec : EqDecision ErrorType.
Proof. solve_decision. Defined.

Record DerivedFieldError : Type := {
  type : ErrorType;
  message : jsstring;
  fieldId : option jsstring;
  originalError : option Error
}.

(** The result of [computeValue]. *)
Record ComputeResult : Type := {
  value : any;
  error : option DerivedFieldError
}.

(** The result of [updateDerivedFields]: [values] is a reference to a record. *)
Record UpdateResult : Type := {
  values : loc;
  errors : gmap jsstring DerivedFieldError
}.

(** The regular expressions of the deny-list come in three shapes. *)
Inductive pattern : Type :=
  | Word (w : jsstring)      (** [/\bw\b/] *)
  | BracketQuote             (** a bracket, blanks, then one of the three quotes *)
  | Member (w : jsstring).   (** [/\.\s*w/] *)

(** [pattern.source] *)
Definition source (p : pattern) : jsstring :=
  match p with
  | Word w => js "\b" ++ w ++ js "\b"
  | BracketQuote => js "\[\s*['" ++ [34%N] ++ js "`]"
  | Member w => js "\.\s*" ++ w
  end.

Definition isWordCharAt (c : option N) : bool :=
  match c with Some c => isWordChar c | None => false end.

(** [\b] between two positions: exactly one side is a word character. *)
Definition wordBoundary (before after : option N) : bool :=
  xorb (isWordCharAt before) (isWordCharAt after).

(** The pattern matches at the start of [s], where [before] is the code unit
    that precedes [s] in the subject. The words of the list are never empty;
    [\s*] takes every blank, since none of the characters that may follow it
    is a blank. *)
Definition matchesAt (p : pattern) (before : option N) (s : jsstring) : bool :=
  match p with
  | Word w =>
    wordBoundary before (head s)
    && match stripPrefix w s with
       | Some rest => wordBoundary (last w) (head rest)
       | None => false
       end
  | BracketQuote =>
    match s with
    | 91%N :: rest =>
      match dropWhile isWhiteSpace rest with
      | c :: _ => (c =? 39)%N || (c =? 34)%N || (c =? 96)%N
      | [] => false
      end
    | _ => false
    end
  | Member w =>
    match s with
    | 46%N :: rest => bool_decide (is_Some (stripPrefix w (dropWhile isWhiteSpace rest)))
    | _ => false
    end
  end.

Fixpoint searchFrom (p : pattern) (before : option N) (s : jsstring) : bool :=
  matchesAt p before s
  || match s with
     | [] => false
     | c :: s' => searchFrom p (Some c) s'
     end.

(** [pattern.test(expression)] *)
Definition test (p : pattern) (expression : jsstring) : bool :=
  searchFrom p None expression.

Definition dangerousPatterns : list pattern :=
  (Word <$> (js <$>
    ["eval"; "Function"; "setTimeout"; "setInterval"; "setImmediate";
     "require"; "import"; "export"; "process"; "global"; "window";
     "document"; "localStorage"; "sessionStorage"; "fetch"; "XMLHttpRequest";
     "__proto__"; "constructor"; "prototype"; "this"; "delete"; "void";
     "typeof"; "instanceof"; "in"; "with"; "try"; "catch"; "finally";
     "throw"; "for"; "while"; "do"; "switch"; "case"; "break"; "continue";
     "return"; "var"; "let"; "const"; "class"; "extends"; "static"; "yield";
     "async"; "await"; "new"]%string))
  ++ [BracketQuote; Member (js "constructor"); Member (js "__proto__");
      Member (js "prototype")].

Module DerivedFieldCalculator.

(** The loop over the characters of the expression that counts the
    parentheses. A code unit of a surrogate pair is neither parenthesis, so the
    loop over code units counts what the loop over code points counts. *)
Fixpoint countParens (chars : jsstring) (parenCount : Z) : completion Z :=
  match chars with
  | [] => Normal parenCount
  | char :: rest =>
    let parenCount := if (char =? 40)%N then (parenCount + 1)%Z else parenCount in
    let parenCount := if (char =? 41)%N then (parenCount - 1)%Z else parenCount in
    if (parenCount <? 0)%Z
    then throwError (js "Unbalanced parentheses in expression")
    else countParens rest parenCount
  end.

Definition validateExpression (expression : jsstring) : completion unit :=
  match List.find (λ p, test p expression) dangerousPatterns with
  | Some p => throwError (js "Expression contains forbidden pattern: " ++ source p)
  | None =>
    if 500 <? length expression
    then throwError (js "Expression is too long (maximum 500 characters)")
    else
      parenCount ← countParens expression 0%Z;
      if negb (parenCount =? 0)%Z
      then throwError (js "Unbalanced parentheses in expression")
      else Normal tt
  end.

(** The callback of [result.map] in [validateResult], over the items in
    order. *)
Fixpoint checkItems (items : list any) : completion (list any) :=
  match items with
  | [] => Normal []
  | item :: rest =>
    if bool_decide (typeof item = TObject) && negb (isNull item)
    then throwError (js "Complex objects not allowed in derived field results")
    else rest' ← checkItems rest; Normal (item :: rest')
  end.

Definition validateResult (result : any) : completion any :=
  match result with
  | VNull | VUndefined => Normal result
  | _ =>
    if bool_decide (typeof result = TString) || bool_decide (typeof result = TNumber)
       || bool_decide (typeof result = TBoolean)
    then Normal result
    else if instanceofDate result then Normal result
    else match result with
    | VArray items => items' ← checkItems items; Normal (VArray items')
    | _ =>
      if bool_decide (typeof result = TObject)
      then throwError (js "Complex objects not allowed in derived field results")
      else if bool_decide (typeof result = TFunction)
      then throwError (js "Functions not allowed in derived field results")
      else Normal result
    end
  end.

(** The three namespaces of helper functions of the context. *)
Definition namespace (prefix : string) (names : list string) : any :=
  VObject ((λ n, (js n, VFunction (js (prefix ++ "." ++ n)))) <$> names).

Definition MathNamespace : any :=
  namespace "Math" ["abs"; "ceil"; "floor"; "max"; "min"; "round"; "pow"; "sqrt"]%string.
Definition StringNamespace : any :=
  namespace "String" ["concat"; "toLowerCase"; "toUpperCase"; "trim"; "substring"]%string.
Definition NumberNamespace : any :=
  namespace "Number" ["parseFloat"; "parseInt"; "isNaN"]%string.

Definition createSafeContext (parentFields : list jsstring)
    (formValues : gmap jsstring any) : gmap jsstring any :=
  let context := fold_left (λ context fieldId,
                   <[fieldId := getProp formValues fieldId]> context) parentFields ∅ in
  let context := <[js "Math" := MathNamespace]> context in
  let context := <[js "String" := StringNamespace]> context in
  let context := <[js "Number" := NumberNamespace]> context in
  context.

Section Calculator.

(** The host's evaluation of the expression: [new Function(...contextKeys,
    functionBody)(...contextValues)], which compiles the expression in strict
    mode as the body of a function of the keys of the context and calls it on
    their values. It returns a value or throws; the embedding does not
    interpret it, and the results hold for every such evaluator. *)
Variable evalJS : jsstring → gmap jsstring any → any + Error.

Definition callFunction (expression : jsstring) (context : gmap jsstring any) : completion any :=
  match evalJS expression context with
  | inl result => Normal result
  | inr e => Throw e
  end.

Definition safeEvaluate (expression : jsstring) (context : gmap jsstring any) : completion any :=
  _ ← validateExpression expression;
  tryCatch
    (result ← callFunction expression context;
     validateResult result)
    (λ error, throwError (js "Expression evaluation error: " ++ error_message error)).

(** [computationLogic] has the type of strings, where the test that it is a
    string always holds and [!computationLogic] says that it is empty. *)
Definition computeValue (config : DerivedFieldConfig)
    (formValues : gmap jsstring any) : completion ComputeResult :=
  tryCatch
    (let missingParents :=
       List.filter (λ parentId, negb (hasProp parentId formValues)) (parentFields config) in
     if 0 <? length missingParents then
       Normal {| value := VNull;
                 error := Some {| type := missing_parent;
                                  message := js "Missing parent field values: "
                                             ++ join (js ", ") missingParents;
                                  fieldId := None; originalError := None |} |}
     else if bool_decide (computationLogic config = []) then
       Normal {| value := VNull;
                 error := Some {| type := invalid_expression;
                                  message := js "Computation logic must be a non-empty string";
                                  fieldId := None; originalError := None |} |}
     else
       let context := createSafeContext (parentFields config) formValues in
       result ← safeEvaluate (computationLogic config) context;
       Normal {| value := result; error := None |})
    (λ error,
       Normal {| value := VNull;
                 error := Some {| type := evaluation_error;
                                  message := match error_message error with
                                             | [] => js "Failed to evaluate derived field expression"
                                             | m => m
                                             end;
                                  fieldId := None; originalError := Some error |} |}).

End Calculator.

(** *** The two traversals of the dependency graph *)

(** The two sets of [detectCircularDependencies]. *)
Record cycleState : Type := {
  visited : gset jsstring;
  recursionStack : gset jsstring
}.

(** The array and the two sets of [sortFieldsByDependencies]. *)
Record sortState : Type := {
  sorted : list FormField;
  sort_visited : gset jsstring;
  temp : gset jsstring
}.

Definition circularDependencyError : DerivedFieldError :=
  {| type := circular_dependency;
     message := js "Circular dependency detected in derived fields";
     fieldId := None; originalError := None |}.

Section Traversals.

Variable derivedFields : list FormField.

(** [derivedFields.find(f => f.id === fieldId)] *)
Definition findField (fieldId : jsstring) : option FormField :=
  List.find (λ f, bool_decide (id f = fieldId)) derivedFields.

(** The loop of [hasCycle] over the parents of a field; [hasCycle] is the
    recursive call. *)
Fixpoint checkParents (hasCycle : jsstring → cycleState → completion (bool * cycleState))
    (parents : list jsstring) (st : cycleState) : completion (bool * cycleState) :=
  match parents with
  | [] => Normal (false, st)
  | parentId :: rest =>
    match findField parentId with
    | Some parentField =>
      if bool_decide (is_Some (derivedFrom parentField)) then
        '(found, st) ← hasCycle parentId st;
        if (found : bool) then Normal (true, st) else checkParents hasCycle rest st
      else checkParents hasCycle rest st
    | None => checkParents hasCycle rest st
    end
  end.

(** The closure [hasCycle], with at most [budget] calls nested. *)
Fixpoint hasCycle (budget : nat) (fieldId : jsstring) (st : cycleState)
    : completion (bool * cycleState) :=
  match budget with
  | 0 => OutOfBudget
  | S budget =>
    if bool_decide (fieldId ∈ recursionStack st) then Normal (true, st)
    else if bool_decide (fieldId ∈ visited st) then Normal (false, st)
    else
      let st := {| visited := {[fieldId]} ∪ visited st;
                   recursionStack := {[fieldId]} ∪ recursionStack st |} in
      '(found, st) ←
        match findField fieldId with
        | Some field =>
          match derivedFrom field with
          | Some config => checkParents (hasCycle budget) (parentFields config) st
          | None => Normal (false, st)
          end
        | None => Normal (false, st)
        end;
      if (found : bool) then Normal (true, st)
      else Normal (false, {| visited := visited st;
                             recursionStack := recursionStack st ∖ {[fieldId]} |})
  end.

(** The loop of [detectCircularDependencies] over the derived fields. *)
Fixpoint detectLoop (budget : nat) (todo : list FormField) (st : cycleState)
    : completion (option DerivedFieldError) :=
  match todo with
  | [] => Normal None
  | field :: rest =>
    if bool_decide (id field ∈ visited st) then detectLoop budget rest st
    else
      '(found, st) ← hasCycle budget (id field) st;
      if (found : bool) then Normal (Some circularDependencyError)
      else detectLoop budget rest st
  end.

(** No chain of nested calls is longer than the number of fields, since each
    call that goes on marks a field that was not marked. *)
Definition detectCircularDependencies : completion (option DerivedFieldError) :=
  detectLoop (S (length derivedFields)) derivedFields
    {| visited := ∅; recursionStack := ∅ |}.

(** The loop of [visit] over the parents of a field. *)
Fixpoint visitParents (visit : FormField → sortState → completion sortState)
    (parents : list jsstring) (st : sortState) : completion sortState :=
  match parents with
  | [] => Normal st
  | parentId :: rest =>
    match findField parentId with
    | Some parentField =>
      if bool_decide (is_Some (derivedFrom parentField)) then
        st ← visit parentField st;
        visitParents visit rest st
      else visitParents visit rest st
    | None => visitParents visit rest st
    end
  end.

(** The closure [visit], with at most [budget] calls nested. *)
Fixpoint visit (budget : nat) (field : FormField) (st : sortState) : completion sortState :=
  match budget with
  | 0 => OutOfBudget
  | S budget =>
    if bool_decide (id field ∈ temp st) then Normal st
    else if bool_decide (id field ∈ sort_visited st) then Normal st
    else
      let st := {| sorted := sorted st; sort_visited := sort_visited st;
                   temp := {[id field]} ∪ temp st |} in
      st ←
        match derivedFrom field with
        | Some config => visitParents (visit budget) (parentFields config) st
        | None => Normal st
        end;
      Normal {| sorted := sorted st ++ [field];
                sort_visited := {[id field]} ∪ sort_visited st;
                temp := temp st ∖ {[id field]} |}
  end.

(** The loop of [sortFieldsByDependencies] over the derived fields. *)
Fixpoint sortLoop (budget : nat) (todo : list FormField) (st : sortState)
    : completion sortState :=
  match todo with
  | [] => Normal st
  | field :: rest =>
    if bool_decide (id field ∈ sort_visited st) then sortLoop budget rest st
    else
      st ← visit budget field st;
      sortLoop budget rest st
  end.

Definition sortFieldsByDependencies : completion (list FormField) :=
  st ← sortLoop (S (length derivedFields)) derivedFields
         {| sorted := []; sort_visited := ∅; temp := ∅ |};
  Normal (sorted st).

End Traversals.

Section Update.

Variable evalJS : jsstring → gmap jsstring any → any + Error.

(** [{ ...error, fieldId }] *)
Definition withFieldId (e : DerivedFieldError) (fieldId : jsstring) : DerivedFieldError :=
  {| type := type e; message := message e; fieldId := Some fieldId;
     originalError := originalError e |}.

(** The loop of [updateDerivedFields] over the sorted fields. The record at
    [updatedValues] and the local record [errors] are its state; each
    [computeValue] reads the record as the iterations before it left it. *)
Fixpoint computeLoop (updatedValues : loc) (todo : list FormField) (h : heap)
    (errors : gmap jsstring DerivedFieldError)
    : completion (heap * gmap jsstring DerivedFieldError) :=
  match todo with
  | [] => Normal (h, errors)
  | field :: rest =>
    match derivedFrom field with
    | None => computeLoop updatedValues rest h errors
    | Some config =>
      result ← computeValue evalJS config (recordAt h updatedValues);
      match error result with
      | Some e =>
        computeLoop updatedValues rest h (<[id field := withFieldId e (id field)]> errors)
      | None =>
        computeLoop updatedValues rest (setProp updatedValues (id field) (value result) h) errors
      end
    end
  end.

(** [updateDerivedFields(formValues, schema)] in the heap [h], where
    [formValues] is a reference to the record of the caller: the result, and
    the heap the call leaves. *)
Definition updateDerivedFields (formValues : loc) (schema : FormSchema) (h : heap)
    : completion (UpdateResult * heap) :=
  let '(updatedValues, h) := spread formValues h in
  let errors : gmap jsstring DerivedFieldError := ∅ in
  let derivedFields := filter (λ field, is_Some (derivedFrom field)) (fields schema) in
  circularDependencyError ← detectCircularDependencies derivedFields;
  match circularDependencyError with
  | Some e =>
    let errors := fold_left (λ errors field, <[id field := e]> errors) derivedFields errors in
    Normal ({| values := updatedValues; errors := errors |}, h)
  | None =>
    sortedDerivedFields ← sortFieldsByDependencies derivedFields;
    '(h, errors) ← computeLoop updatedValues sortedDerivedFields h errors;
    Normal ({| values := updatedValues; errors := errors |}, h)
  end.

End Update.
(** [getAvailableFunctions()]: the names of the helper functions, by
    namespace, in the order of the literal. *)
Definition getAvailableFunctions : list (jsstring * list jsstring) :=
  [ (js "Math", js <$> ["abs"; "ceil"; "floor"; "max"; "min"; "round"; "pow"; "sqrt"]%string);
    (js "String", js <$> ["concat"; "toLowerCase"; "toUpperCase"; "trim"; "substring"]%string);
    (js "Number", js <$> ["parseFloat"; "parseInt"; "isNaN"]%string) ].

(** The result of [validateExpressionSyntax]. *)
Record SyntaxResult : Type := {
  syntax_isValid : bool;
  syntax_error : option jsstring
}.

Section Syntax.

(** [new Function(body)]: the host's parser, which returns nothing or throws
    a syntax error; the embedding does not interpret it. *)
Variable parseFunction : jsstring → option Error.

Definition validateExpressionSyntax (expression : jsstring) : completion SyntaxResult :=
  tryCatch
    (_ ← validateExpression expression;
     _ ← match parseFunction (js "return (" ++ expression ++ js ")") with
         | None => Normal tt
         | Some e => Throw e
         end;
     Normal {| syntax_isValid := true; syntax_error := None |})
    (λ error, Normal {| syntax_isValid := false;
                        syntax_error := Some (error_message error) |}).

End Syntax.
End DerivedFieldCalculator.

(** ** FormPreview: the state of the form and its two updates *)

Module FormPreview.

(** [FormState]; [values] is a reference to a record. *)
Record FormState : Type := {
  state_values : loc;
  state_errors : gmap jsstring (list jsstring);
  state_touched : gmap jsstring bool;
  state_isValid : bool
}.

Definition isUndefined (v : any) : bool :=
  match v with VUndefined => true | _ => false end.

(** The value a field starts with when it has no default: by type. *)
Definition emptyValue (field : FormField) : any :=
  match field_type field with
  | checkbox =>
    match options field with
    | Some (_ :: _) => VArray []
    | _ => VBool false
    end
  | number => VStr []
  | _ => VStr []
  end.

(** The body of the loop that fills [initialValues]. *)
Definition initialValue (field : FormField) : any :=
  match defaultValue field with
  | Some v => if isUndefined v then emptyValue field else v
  | None => emptyValue field
  end.

(** The record [initialValues] that the effect on [schema] builds. *)
Definition initialValues (schema : FormSchema) : gmap jsstring any :=
  fold_left (λ initialValues field, <[id field := initialValue field]> initialValues)
    (fields schema) ∅.

(** [{ ...o, [k]: v }]: a new record with the properties of the record at
    [l] and [v] under [k]. *)
Definition spreadWith (l : loc) (k : jsstring) (v : any) (h : heap) : loc * heap :=
  let l' := fresh (dom h) in (l', <[l' := <[k := v]> (recordAt h l)]> h).

Section Handlers.

Variable evalJS : jsstring → gmap jsstring any → any + Error.
Variable ToString : any → jsstring.

(** The function that [handleFieldChange(fieldId, value)] gives to
    [setFormState], for the schema of the component, which may be absent: from
    the state before to the state after, in the heap of the records and the
    store of the rule arrays. *)
Definition handleFieldChange (schema : option FormSchema) (fieldId : jsstring)
    (value : any) (prev : FormState) (h : heap) (σ : ruleStore)
    : completion (FormState * heap * ruleStore) :=
  let '(newValues, h) := spreadWith (state_values prev) fieldId value h in
  '(updatedValues, h) ←
    match schema with
    | Some schema =>
      '(derivedResult, h) ←
        DerivedFieldCalculator.updateDerivedFields evalJS newValues schema h;
      Normal (values derivedResult, h)
    | None => Normal (newValues, h)
    end;
  let '(validationResult, σ) :=
    match schema with
    | Some schema =>
      ValidationEngine.validateForm ToString (recordAt h updatedValues) schema σ
    | None => ({| isValid := true; fieldErrors := ∅ |}, σ)
    end in
  Normal ({| state_values := updatedValues;
             state_errors := fieldErrors validationResult;
             state_touched := state_touched prev;
             state_isValid := isValid validationResult |}, h, σ).

(** The function that the effect on [formState.values] and [schema] gives to
    [setFormState], when it gives one: the form is validated when there is a
    schema and the record of the values has a key. *)
Definition validationEffect (schema : option FormSchema) (prev : FormState)
    (h : heap) (σ : ruleStore) : FormState * ruleStore :=
  match schema with
  | Some schema =>
    if 0 <? size (recordAt h (state_values prev)) then
      let '(validationResult, σ) :=
        ValidationEngine.validateForm ToString (recordAt h (state_values prev)) schema σ in
      ({| state_values := state_values prev;
          state_errors := fieldErrors validationResult;
          state_touched := state_touched prev;
          state_isValid := isValid validationResult |}, σ)
    else (prev, σ)
  | None => (prev, σ)
  end.

End Handlers.
End FormPreview.

(** * Examples *)

Module Examples.
Import DerivedFieldCalculator.

(** An evaluator that knows three expressions, for the examples. *)
Definition sampleEval (expression : jsstring) (context : gmap jsstring any) : any + Error :=
  if bool_decide (expression = js "1+1") then inl (VNum 2%float)
  else if bool_decide (expression = js "a*2") then
    match context !! js "a" with
    | Some (VNum x) => inl (VNum (x * 2)%float)
    | _ => inr {| error_message := js "a is not a number" |}
    end
  else if bool_decide (expression = js "b+1") then
    match context !! js "b" with
    | Some (VNum x) => inl (VNum (x + 1)%float)
    | _ => inr {| error_message := js "b is not a number" |}
    end
  else inr {| error_message := js "Unexpected token" |}.

Definition plainField (i : string) : FormField :=
  {| id := js i; field_type := number; label := js i; required := false;
     defaultValue := None; validation := None; options := None;
     derivedFrom := None |}.

Definition derivedField (i : string) (parents : list string) (logic : string) : FormField :=
  {| id := js i; field_type := number; label := js i; required := false;
     defaultValue := None; validation := None; options := None;
     derivedFrom := Some {| parentFields := js <$> parents;
                            computationLogic := js logic |} |}.

Definition schemaOf (fs : list FormField) : FormSchema :=
  {| schema_id := js "form"; name := js "form"; createdAt := 0%float; fields := fs |}.

(** The schema A, C, B of the specification, with C declared before B. *)
Definition chain : FormSchema :=
  schemaOf [plainField "a"; derivedField "c" ["b"] "b+1"; derivedField "b" ["a"] "a*2"].

Definition cyclic : FormSchema :=
  schemaOf [derivedField "x" ["y"] "1+1"; derivedField "y" ["x"] "1+1";
            derivedField "z" [] "1+1"].


Definition heapOf (vals : gmap jsstring any) : heap := {[ 1%positive := vals ]}.

(** A required text field whose [validation] is the array at location 1. *)
Definition nameField : FormField :=
  {| id := js "name"; field_type := text; label := js "Name"; required := true;
     defaultValue := None; validation := Some 1%positive; options := None;
     derivedFrom := None |}.

(** The store in which that array is empty. *)
Definition noRules : ruleStore := {[ 1%positive := [] ]}.

(** A string conversion for the examples, exact on strings. *)
Definition sampleToString (v : any) : jsstring :=
  match v with
  | VStr s => s
  | VBool true => js "true"
  | VBool false => js "false"
  | VNull => js "null"
  | VUndefined => js "undefined"
  | _ => js "[object Object]"
  end.

End Examples.

(** * The vocabulary of the specification *)

(** The values that the specification calls empty: null or undefined, a
    string of blanks only, an empty array, an object without keys. *)
Definition isEmptyValue (v : any) : Prop :=
  v = VNull ∨ v = VUndefined
  ∨ (∃ s, v = VStr s ∧ forallb isWhiteSpace s = true)
  ∨ v = VArray []
  ∨ (typeof v = TObject ∧ v ≠ VNull ∧ objectKeysLength v = 0).

(** The rules a field declares: the array its [validation] refers to. *)
Definition declaredRules (σ : ruleStore) (field : FormField) : list ValidationRule :=
  match validation field with
  | Some r => rulesAt σ r
  | None => []
  end.

Definition hasNotEmptyRule (rules : list ValidationRule) : bool :=
  existsb (λ rule, bool_decide (rule_type rule = notEmpty)) rules.

(** The words of the deny-list. *)
Definition deniedWords : list jsstring :=
  omap (λ p, match p with Word w => Some w | _ => None end)
       dangerousPatterns.

(** The expression [s] has the word [w] as a token: an occurrence of [w]
    with no word character right before it or right after it. *)
Definition containsToken (w s : jsstring) : Prop :=
  ∃ pre post, s = pre ++ w ++ post
    ∧ isWordCharAt (last pre) = false ∧ isWordCharAt (head post) = false.

(** Balanced parentheses: reading [s] with [depth] parentheses open, none is
    closed that was not opened, and none is left open. *)
Fixpoint balancedFrom (depth : nat) (s : jsstring) : bool :=
  match s with
  | [] => depth =? 0
  | c :: s' =>
    if (c =? 40)%N then balancedFrom (S depth) s'
    else if (c =? 41)%N then
      match depth with
      | 0 => false
      | S depth' => balancedFrom depth' s'
      end
    else balancedFrom depth s'
  end.

Definition balanced (s : jsstring) : bool := balancedFrom 0 s.

(** The results that the sandbox refuses: an object that is neither a date
    nor an array, a function, an array with an item that is an object. *)
Definition disallowedShape (v : any) : bool :=
  match v with
  | VObject _ | VFunction _ => true
  | VArray items =>
    existsb (λ item, bool_decide (typeof item = TObject) && negb (isNull item)) items
  | _ => false
  end.

(** Every kind of failure of the sandbox on an expression and a context. *)
Definition sandboxFailure (evalJS : jsstring → gmap jsstring any → any + Error)
    (expression : jsstring) (context : gmap jsstring any) : Prop :=
  (∃ p, p ∈ dangerousPatterns
        ∧ test p expression = true)
  ∨ 500 < length expression
  ∨ balanced expression = false
  ∨ (∃ e, evalJS expression context = inr e)
  ∨ (∃ v, evalJS expression context = inl v ∧ disallowedShape v = true).

(** Every parent of the configuration is a key of the record. *)
Definition parentsPresent (config : DerivedFieldConfig) (formValues : gmap jsstring any) : Prop :=
  ∀ p, p ∈ parentFields config → is_Some (formValues !! p).

(** The parents that are not: what [computeValue] filters out of
    [config.parentFields]. *)
Definition missingParents (config : DerivedFieldConfig) (formValues : gmap jsstring any)
    : list jsstring :=
  List.filter (λ parentId, negb (hasProp parentId formValues)) (parentFields config).

(** What [computeValue] returns with an error. *)
Definition failed (e : DerivedFieldError) : ComputeResult :=
  {| value := VNull; error := Some e |}.

(** The three errors of [computeValue]. *)
Definition missingParentError (missing : list jsstring) : DerivedFieldError :=
  {| type := missing_parent;
     message := js "Missing parent field values: " ++ join (js ", ") missing;
     fieldId := None; originalError := None |}.

Definition invalidExpressionError : DerivedFieldError :=
  {| type := invalid_expression;
     message := js "Computation logic must be a non-empty string";
     fieldId := None; originalError := None |}.

Definition evaluationError (e : Error) : DerivedFieldError :=
  {| type := evaluation_error;
     message := match error_message e with
                | [] => js "Failed to evaluate derived field expression"
                | m => m
                end;
     fieldId := None; originalError := Some e |}.

(** ** The dependency graph *)

Section Graph.
Import DerivedFieldCalculator.

Variable derivedFields : list FormField.

(** The ids of the fields. *)
Definition fieldIds : gset jsstring := list_to_set (id <$> derivedFields).

(** The graph that the two traversals walk: from the id [x] of a field with
    a configuration to each of its parents [p] that is the id of a derived
    field, where [findField] says which field an id names. *)
Definition edge (x p : jsstring) : Prop :=
  ∃ field config parentField,
    findField derivedFields x = Some field
    ∧ derivedFrom field = Some config
    ∧ p ∈ parentFields config
    ∧ findField derivedFields p = Some parentField
    ∧ is_Some (derivedFrom parentField).

(** What holds of the two sets of [detectCircularDependencies] between two
    calls of [hasCycle]: the fields that are marked and not on the stack are
    finished, which is to say that their parents are finished too and that
    they are on no cycle. *)
Record cycle_inv (st : cycleState) : Prop := {
  ci_stack : recursionStack st ⊆ visited st;
  ci_closed : ∀ x p, x ∈ visited st → x ∉ recursionStack st → edge x p →
                     p ∈ visited st ∧ p ∉ recursionStack st;
  ci_acyclic : ∀ x, x ∈ visited st → x ∉ recursionStack st → ¬ tc edge x x
}.

(** What a call of [hasCycle] on [x] that returns false leaves. *)
Definition cycle_post (x : jsstring) (st st' : cycleState) : Prop :=
  cycle_inv st' ∧ recursionStack st' = recursionStack st
  ∧ visited st ⊆ visited st' ∧ x ∈ visited st' ∧ x ∉ recursionStack st'.

(** The derived parents of every field of the list stand before it. *)
Definition parentsFirst (l : list FormField) : Prop :=
  ∀ i f p, l !! i = Some f → edge (id f) p →
    ∃ j g, j < i ∧ l !! j = Some g ∧ id g = p.

(** What holds of the state of [sortFieldsByDependencies] between two calls
    of [visit]. *)
Record sort_inv (st : sortState) : Prop := {
  si_visited : sort_visited st = list_to_set (id <$> sorted st);
  si_temp : temp st ## sort_visited st;
  si_nodup : NoDup (id <$> sorted st);
  si_fields : ∀ f, f ∈ sorted st → f ∈ derivedFields;
  si_order : parentsFirst (sorted st)
}.

(** What a call of [visit] on [f] leaves. *)
Definition sort_post (f : FormField) (st st' : sortState) : Prop :=
  sort_inv st' ∧ temp st' = temp st
  ∧ sort_visited st ⊆ sort_visited st' ∧ id f ∈ sort_visited st'.

End Graph.

(** [schema.fields.filter(field => field.derivedFrom)] *)
Definition derivedFieldsOf (schema : FormSchema) : list FormField :=
  filter (λ field, is_Some (derivedFrom field)) (fields schema).

(** The derived field [f] of the schema names the derived field [g] of the
    schema among its parents. *)
Definition dependsOn (schema : FormSchema) (f g : FormField) : Prop :=
  f ∈ fields schema ∧ g ∈ fields schema ∧ is_Some (derivedFrom g)
  ∧ ∃ config, derivedFrom f = Some config ∧ id g ∈ parentFields config.

(** The record that the loop of [updateDerivedFields] holds at
    [updatedValues] once it has gone through the fields [before], from the
    heap [h]: what [computeValue] reads for the field that comes next. *)
Definition workingValues (evalJS : jsstring → gmap jsstring any → any + Error)
    (updatedValues : loc) (before : list FormField) (h : heap) : gmap jsstring any :=
  match DerivedFieldCalculator.computeLoop evalJS updatedValues before h ∅ with
  | Normal (h', _) => recordAt h' updatedValues
  | _ => ∅
  end.

(** ** Further vocabulary *)

(** A character that every match of the pattern has in it: the first of the
    word, or one of the three quotes. *)
Definition trigger (p : pattern) : list N :=
  match p with
  | Word w | Member w => take 1 w
  | BracketQuote => [39; 34; 96]%N
  end.

(** ASCII letters, the underscore and the three quotes. *)
Definition isLetterOrQuote (c : N) : bool :=
  ((65 <=? c) && (c <=? 90) || (97 <=? c) && (c <=? 122) || (c =? 95)
   || (c =? 39) || (c =? 34) || (c =? 96))%N.

(** The three names that [createSafeContext] binds last. *)
Definition namespaceNames : list jsstring := [js "Math"; js "String"; js "Number"].

(** The characters of the three parts of an e-mail address: neither a blank
    nor the at sign. *)
Definition isAddressChar (c : N) : bool := negb (isWhiteSpace c) && negb (c =? 64)%N.

(** The rules that [validateForm] validates a field against: the declared
    rules, behind the made-up rule when the field is required and declares
    no rule of type [notEmpty]. *)
Definition effectiveRules (σ : ruleStore) (field : FormField) : list ValidationRule :=
  if required field && negb (hasNotEmptyRule (declaredRules σ field))
  then ValidationEngine.requiredRule field :: declaredRules σ field
  else declaredRules σ field.

(** The messages a field fails with. *)
Definition failingMessages (ToString : any → jsstring) (values : gmap jsstring any)
    (σ : ruleStore) (field : FormField) : list jsstring :=
  result_errors (ValidationEngine.validateField ToString (getProp values (id field))
                   (effectiveRules σ field)).

(** The arrays of rules of the fields are in the store, and no two fields
    share one. *)
Definition separateRules (σ : ruleStore) (fs : list FormField) : Prop :=
  NoDup (omap validation fs)
  ∧ ∀ f r, f ∈ fs → validation f = Some r → r ∈ dom σ.


(** A record and errors that are consistent with a schema, from the values
    [vals]: the entries that are not those of derived fields are the ones of
    [vals], without error, and the entry of each derived field is what
    [computeValue] gives on the record itself, or the one of [vals], with the
    error, when it gives an error. *)
Definition consistent (evalJS : jsstring → gmap jsstring any → any + Error)
    (schema : FormSchema) (vals F : gmap jsstring any)
    (errs : gmap jsstring DerivedFieldError) : Prop :=
  (∀ k, k ∉ id <$> derivedFieldsOf schema → F !! k = vals !! k ∧ errs !! k = None)
  ∧ ∀ f config, f ∈ fields schema → derivedFrom f = Some config →
      ∃ res, DerivedFieldCalculator.computeValue evalJS config F = Normal res
        ∧ match error res with
          | None => F !! id f = Some (value res) ∧ errs !! id f = None
          | Some e =>
            F !! id f = vals !! id f
            ∧ errs !! id f = Some (DerivedFieldCalculator.withFieldId e (id f))
          end.

(** * Properties of the validation engine *)

Lemma dropWhile_nil {A} (p : A → bool) (l : list A) :
  dropWhile p l = [] ↔ forallb p l = true.
Proof.
  induction l as [|x l IH]; simpl; [done|].
  destruct (p x); simpl; [done|]. split; congruence.
Qed.

Lemma dropWhile_head {A} (p : A → bool) (l : list A) x l' :
  dropWhile p l = x :: l' → p x = false.
Proof.
  induction l as [|y l IH]; simpl; [done|].
  destruct (p y) eqn:Hy; [done|]. congruence.
Qed.

Lemma forallb_reverse {A} (p : A → bool) (l : list A) :
  forallb p (reverse l) = forallb p l.
Proof.
  induction l as [|x l IH]; [done|].
  rewrite reverse_cons, forallb_app, IH. simpl. destruct (p x), (forallb p l); done.
Qed.

(** [s.trim() === ''] says that [s] has blanks only. *)
Lemma trim_nil (s : jsstring) : trim s = [] ↔ forallb isWhiteSpace s = true.
Proof.
  unfold trim. split.
  - intros H. apply (f_equal reverse) in H. rewrite reverse_involutive in H.
    change (reverse []) with (@nil N) in H.
    apply dropWhile_nil in H. rewrite forallb_reverse in H.
    destruct (dropWhile isWhiteSpace s) as [|x l'] eqn:Hd.
    + by apply dropWhile_nil.
    + apply dropWhile_head in Hd. simpl in H. by rewrite Hd in H.
  - intros H. apply dropWhile_nil in H. by rewrite H.
Qed.

Section ValidationProperties.
Import ValidationEngine.

Variable ToString : any → jsstring.

#[local] Abbreviation step values := (validateFormStep ToString values).

Lemma isEmptyValue_dec (v : any) : isEmptyValue v ∨ ¬ isEmptyValue v.
Proof.
  unfold isEmptyValue.
  destruct v as [| |b|x|s|items|t|props|f];
    try (left; by eauto);
    try (right; intros [?|[?|[[? [? ?]]|[?|[? [? ?]]]]]]; done).
  - destruct (forallb isWhiteSpace s) eqn:Hs.
    + left. right; right; left. eauto.
    + right. intros [?|[?|[[s' [[= <-] ?]]|[?|[? [? ?]]]]]]; try done. congruence.
  - destruct items as [|i items].
    + left. by do 3 right; left.
    + right. intros [?|[?|[[? [? ?]]|[?|[? [? ?]]]]]]; done.
  - left. do 4 right. done.
  - destruct props as [|p props].
    + left. do 4 right. done.
    + right. intros [?|[?|[[? [? ?]]|[?|[? [? ?]]]]]]; done.
Qed.

Lemma validateNotEmpty_empty (v : any) (msg : jsstring) :
  isEmptyValue v → validateNotEmpty v msg = Some msg.
Proof.
  intros [->|[->|[[s [-> Hs]]|[->|[Hty [Hnull Hkeys]]]]]]; try done.
  - simpl. apply trim_nil in Hs. by rewrite bool_decide_eq_true_2.
  - destruct v; try done; simpl in *.
    + by rewrite Hkeys.
    + by rewrite Hkeys.
Qed.

Lemma validateNotEmpty_nonempty (v : any) (msg : jsstring) :
  ¬ isEmptyValue v → validateNotEmpty v msg = None.
Proof.
  intros Hne. destruct (validateNotEmpty v msg) as [m|] eqn:Hv; [|done].
  exfalso. apply Hne. unfold isEmptyValue.
  destruct v as [| |b|x|s|items|t|props|f]; simpl in Hv; try done; try by eauto.
  - case_bool_decide as Hs; [|done]. apply trim_nil in Hs. eauto 10.
  - destruct items; [eauto 10 | done].
  - do 4 right. done.
  - destruct props; [|done]. do 4 right. done.
Qed.

Lemma rulesAt_insert (σ : ruleStore) r rules : rulesAt (<[r := rules]> σ) r = rules.
Proof. unfold rulesAt. by rewrite lookup_insert_eq. Qed.

Lemma step_store_frame values st field r :
  r ∈ dom (loop_store st) → validation field ≠ Some r →
  loop_store (step values st field) !! r = loop_store st !! r.
Proof.
  intros Hr Hne. unfold validateFormStep, allocRules, unshift.
  destruct (validation field) as [r'|] eqn:Hv.
  - assert (r' ≠ r) by congruence.
    repeat case_match; simplify_eq/=; by rewrite ?lookup_insert_ne by done.
  - assert (fresh (dom (loop_store st)) ≠ r) by (intros <-; exact (is_fresh _ Hr)).
    repeat case_match; simplify_eq/=; by rewrite ?lookup_insert_ne by done.
Qed.

Lemma step_store_dom values st field :
  dom (loop_store st) ⊆ dom (loop_store (step values st field)).
Proof.
  unfold validateFormStep, allocRules, unshift.
  repeat case_match; simplify_eq/=; rewrite ?dom_insert; set_solver.
Qed.

Lemma step_errors_frame values st field k :
  id field ≠ k →
  loop_fieldErrors (step values st field) !! k = loop_fieldErrors st !! k.
Proof.
  intros Hne. unfold validateFormStep.
  repeat case_match; simplify_eq/=; by rewrite ?lookup_insert_ne by done.
Qed.


Lemma fold_store_frame values fs st r :
  r ∈ dom (loop_store st) → (∀ g, g ∈ fs → validation g ≠ Some r) →
  loop_store (fold_left (step values) fs st) !! r = loop_store st !! r.
Proof.
  revert st. induction fs as [|f fs IH]; intros st Hr Hne; simpl; [done|].
  rewrite IH.
  - apply step_store_frame; [done|]. apply Hne. by left.
  - by apply step_store_dom.
  - intros g Hg. apply Hne. by right.
Qed.

Lemma fold_errors_frame values fs st k :
  k ∉ id <$> fs →
  loop_fieldErrors (fold_left (step values) fs st) !! k = loop_fieldErrors st !! k.
Proof.
  revert st. induction fs as [|f fs IH]; intros st Hk; simpl; [done|].
  rewrite fmap_cons, not_elem_of_cons in Hk. destruct Hk as [Hk1 Hk2].
  rewrite IH by done. by apply step_errors_frame.
Qed.


(** The iteration for a required field that declares no [notEmpty] rule
    validates the value against the made-up rule followed by the declared
    ones. *)
Lemma step_required values st field :
  required field = true →
  hasNotEmptyRule (declaredRules (loop_store st) field) = false →
  let failing := result_errors (validateField ToString (getProp values (id field))
                    (requiredRule field :: declaredRules (loop_store st) field)) in
  loop_fieldErrors (step values st field)
  = (if decide (failing = []) then loop_fieldErrors st
     else <[id field := failing]> (loop_fieldErrors st))
  ∧ (failing ≠ [] → loop_isValid (step values st field) = false).
Proof.
  intros Hreq Hno. unfold declaredRules, hasNotEmptyRule in *.
  unfold validateFormStep, allocRules, unshift. rewrite Hreq.
  destruct (validation field) as [r|] eqn:Hv; cbv beta iota zeta.
  - rewrite Hno. cbn [negb]. rewrite !rulesAt_insert.
    unfold validateField. cbn [result_isValid result_errors].
    set (errs := collectErrors _ _ _).
    destruct errs as [|e errs]; simpl; done.
  - rewrite !rulesAt_insert. cbn [existsb negb]. rewrite !rulesAt_insert.
    unfold validateField. cbn [result_isValid result_errors].
    set (errs := collectErrors _ _ _).
    destruct errs as [|e errs]; simpl; done.
Qed.

(** A schema of one required field without declared rules, against a value
    that counts as empty. *)
Lemma validateForm_single_required values schema σ field :
  fields schema = [field] →
  required field = true →
  declaredRules σ field = [] →
  isEmptyValue (getProp values (id field)) →
  (validateForm ToString values schema σ).1
  = {| isValid := false;
       fieldErrors := {[ id field := [label field ++ js " is required"] ]} |}.
Proof.
  intros Hfs Hreq Hdecl Hempty. unfold validateForm. rewrite Hfs.
  cbn [fold_left fst].
  set (st0 := {| loop_store := σ; loop_fieldErrors := ∅; loop_isValid := true |}).
  assert (hasNotEmptyRule (declaredRules (loop_store st0) field) = false) as Hno.
  { subst st0. cbn [loop_store]. by rewrite Hdecl. }
  destruct (step_required values st0 field Hreq Hno) as [Herrs Hvalid].
  subst st0. cbn [loop_store loop_fieldErrors] in Herrs, Hvalid.
  rewrite Hdecl in Herrs, Hvalid.
  assert (result_errors (validateField ToString (getProp values (id field))
            [requiredRule field]) = [label field ++ js " is required"]) as Hfail.
  { unfold validateField. cbn [result_errors collectErrors validateSingleRule
      requiredRule rule_type rule_message].
    rewrite (validateNotEmpty_empty _ _ Hempty).
    destruct (label field); reflexivity. }
  rewrite Hfail in Herrs, Hvalid. rewrite decide_False in Herrs by done.
  rewrite Herrs, Hvalid by done. done.
Qed.


(** C8. The rule [notEmpty] fails, with the message of the rule, exactly on
    the values that count as empty: null and undefined, a string of blanks
    only, an empty array, an object without keys. Every other value passes,
    every number and both booleans among them. *)
Theorem validateNotEmpty_exactly (v : any) (msg : jsstring) :
  (isEmptyValue v ↔ validateNotEmpty v msg = Some msg)
  ∧ (¬ isEmptyValue v ↔ validateNotEmpty v msg = None)
  ∧ (∀ x, validateNotEmpty (VNum x) msg = None)
  ∧ (∀ b, validateNotEmpty (VBool b) msg = None).
Proof.
  split_and!; try done.
  - split; [apply validateNotEmpty_empty|]. intros Hv.
    destruct (isEmptyValue_dec v) as [|Hne]; [done|].
    apply (validateNotEmpty_nonempty _ msg) in Hne. congruence.
  - split; [apply validateNotEmpty_nonempty|]. intros Hv He.
    apply (validateNotEmpty_empty _ msg) in He. congruence.
Qed.

(** C10. The rule [notEmpty] fails on every object that is not an array and
    has no enumerable key of its own, whatever it stands for. A date is one:
    the calculator lets it through as the value of a derived field, and the
    validator then reports a required field that holds it as missing. *)
Theorem date_counts_as_empty (t : float) (msg : jsstring) :
  validateNotEmpty (VDate t) msg = Some msg
  ∧ (∀ v, typeof v = TObject → v ≠ VNull → isArray v = false →
          objectKeysLength v = 0 → validateNotEmpty v msg = Some msg)
  ∧ DerivedFieldCalculator.validateResult (VDate t) = Normal (VDate t)
  ∧ (∀ values schema σ field,
       fields schema = [field] →
       required field = true →
       declaredRules σ field = [] →
       values !! id field = Some (VDate t) →
       (validateForm ToString values schema σ).1
       = {| isValid := false;
            fieldErrors := {[ id field := [label field ++ js " is required"] ]} |}).
Proof.
  split_and!; try done.
  - intros v Hty Hnull Harr Hkeys. apply validateNotEmpty_empty.
    do 4 right. done.
  - intros values schema σ field Hfs Hreq Hdecl Hval.
    apply validateForm_single_required; [done..|].
    unfold getProp. rewrite Hval. do 4 right. done.
Qed.

(** What the call leaves in the array of a required field that declared no
    [notEmpty] rule: the made-up rule, in front. *)
Lemma validateForm_store_after values schema σ field r :
  fields schema = [field] →
  validation field = Some r →
  required field = true →
  hasNotEmptyRule (rulesAt σ r) = false →
  rulesAt (validateForm ToString values schema σ).2 r = requiredRule field :: rulesAt σ r.
Proof.
  intros Hfs Hv Hreq Hno. unfold validateForm. rewrite Hfs.
  cbn [fold_left snd]. unfold validateFormStep, unshift. rewrite Hv, Hreq.
  cbv beta iota zeta. cbn [loop_store]. unfold hasNotEmptyRule in Hno. rewrite Hno.
  cbn [negb]. case_match; cbn [loop_store]; apply rulesAt_insert.
Qed.

End ValidationProperties.

(** C9. [validateForm] writes to the schema. The schema has one required
    field whose [validation] is an empty array; after the call the array
    holds the rule that the call made up, so a field of the schema has
    changed. *)
Theorem validateForm_mutates_schema :
  rulesAt Examples.noRules 1%positive = []
  ∧ rulesAt (ValidationEngine.validateForm Examples.sampleToString ∅
               (Examples.schemaOf [Examples.nameField]) Examples.noRules).2 1%positive
    = [ {| rule_type := notEmpty; rule_value := None;
           rule_message := js "Name is required" |} ].
Proof.
  split; [reflexivity|].
  by rewrite (validateForm_store_after _ _ _ _ Examples.nameField 1%positive).
Qed.


(** * Properties of the expression sandbox *)

Lemma stripPrefix_app (w post : jsstring) : stripPrefix w (w ++ post) = Some post.
Proof.
  induction w as [|c w IH]; simpl; [done|]. by rewrite N.eqb_refl.
Qed.

Lemma head_app_cons {A} (w post : list A) : w ≠ [] → head (w ++ post) = head w.
Proof. by destruct w. Qed.

(** A word that starts and ends with a word character matches where it
    stands between two positions that are not word characters. *)
Lemma matchesAt_word (w post : jsstring) (before : option N) :
  isWordCharAt (head w) = true → isWordCharAt (last w) = true →
  isWordCharAt before = false → isWordCharAt (head post) = false →
  matchesAt (Word w) before (w ++ post) = true.
Proof.
  intros Hh Hl Hb Hp. simpl. rewrite stripPrefix_app. unfold wordBoundary.
  rewrite head_app_cons by (by destruct w).
  by rewrite Hh, Hl, Hb, Hp.
Qed.

Lemma searchFrom_found (p : pattern) (pre s : jsstring) (before : option N) :
  matchesAt p (from_option Some before (last pre)) s = true →
  searchFrom p before (pre ++ s) = true.
Proof.
  revert before. induction pre as [|c pre IH]; intros before Hm; simpl in *.
  - destruct s; simpl; by rewrite Hm.
  - rewrite IH; [by rewrite orb_true_r|].
    rewrite last_cons in Hm. by destruct (last pre).
Qed.

Lemma deniedWords_shape :
  Forall (λ w, isWordCharAt (head w) = true ∧ isWordCharAt (last w) = true) deniedWords.
Proof. repeat (constructor; [by vm_compute|]). constructor. Qed.

Lemma deniedWords_patterns (w : jsstring) :
  w ∈ deniedWords → Word w ∈ dangerousPatterns.
Proof.
  unfold deniedWords. intros (p & Hp & Hw)%list_elem_of_omap.
  destruct p; by simplify_eq.
Qed.

(** A token of the deny-list is found by the test of its pattern. *)
Lemma token_tested (w s : jsstring) :
  w ∈ deniedWords → containsToken w s → test (Word w) s = true.
Proof.
  intros Hw (pre & post & -> & Hpre & Hpost).
  pose proof deniedWords_shape as Hshape.
  rewrite Forall_forall in Hshape. destruct (Hshape w Hw) as [Hh Hl].
  apply searchFrom_found. apply matchesAt_word; try done.
  by destruct (last pre).
Qed.

Lemma countParens_spec (s : jsstring) (depth : nat) :
  match DerivedFieldCalculator.countParens s (Z.of_nat depth) with
  | Normal c => (0 ≤ c)%Z ∧ balancedFrom depth s = (c =? 0)%Z
  | Throw e => balancedFrom depth s = false
               ∧ e = {| error_message := js "Unbalanced parentheses in expression" |}
  | OutOfBudget => False
  end.
Proof.
  revert depth. induction s as [|c s IH]; intros depth; simpl.
  - split; [lia|]. by destruct depth.
  - destruct (c =? 40)%N eqn:H40.
    + apply N.eqb_eq in H40 as ->. simpl.
      replace (Z.of_nat depth + 1 <? 0)%Z with false by (symmetry; apply Z.ltb_ge; lia).
      replace (Z.of_nat depth + 1)%Z with (Z.of_nat (S depth)) by lia. apply IH.
    + destruct (c =? 41)%N eqn:H41.
      * destruct depth as [|depth].
        { simpl. done. }
        replace (Z.of_nat (S depth) - 1 <? 0)%Z with false by (symmetry; apply Z.ltb_ge; lia).
        replace (Z.of_nat (S depth) - 1)%Z with (Z.of_nat depth) by lia. apply IH.
      * replace (Z.of_nat depth <? 0)%Z with false by (symmetry; apply Z.ltb_ge; lia).
        apply IH.
Qed.

(** [validateExpression] by cases: the first pattern of the list that the
    expression matches, then the length, then the parentheses. *)
Lemma validateExpression_cases (s : jsstring) :
  DerivedFieldCalculator.validateExpression s =
  match List.find (λ p, test p s) dangerousPatterns with
  | Some p => throwError (js "Expression contains forbidden pattern: " ++ source p)
  | None =>
    if 500 <? length s then throwError (js "Expression is too long (maximum 500 characters)")
    else if balanced s then Normal tt
    else throwError (js "Unbalanced parentheses in expression")
  end.
Proof.
  unfold DerivedFieldCalculator.validateExpression, balanced.
  destruct (List.find _ _); [done|]. destruct (500 <? length s); [done|].
  pose proof (countParens_spec s 0) as H. change (Z.of_nat 0) with 0%Z in H.
  destruct (DerivedFieldCalculator.countParens s 0) as [c|e|]; simpl.
  - destruct H as [_ ->]. by destruct (c =? 0)%Z.
  - destruct H as [-> ->]. done.
  - done.
Qed.

Lemma checkItems_cases (items : list any) :
  DerivedFieldCalculator.checkItems items =
  if existsb (λ item, bool_decide (typeof item = TObject) && negb (isNull item)) items
  then throwError (js "Complex objects not allowed in derived field results")
  else Normal items.
Proof.
  induction items as [|item items IH]; simpl; [done|].
  destruct (bool_decide (typeof item = TObject) && negb (isNull item)); simpl; [done|].
  rewrite IH. by destruct (existsb _ items).
Qed.

(** [validateResult] lets through the values of an allowed shape, as they
    are, and throws on the others. *)
Lemma validateResult_cases (v : any) :
  if disallowedShape v
  then ∃ m, DerivedFieldCalculator.validateResult v = throwError m
  else DerivedFieldCalculator.validateResult v = Normal v.
Proof.
  destruct v as [| |b|x|s|items|t|props|f]; simpl; try done; try by eauto.
  rewrite checkItems_cases. destruct (existsb _ items); simpl; by eauto.
Qed.

Section CalculatorProperties.
Import DerivedFieldCalculator.

Variable evalJS : jsstring → gmap jsstring any → any + Error.

Lemma safeEvaluate_not_budget expression context :
  safeEvaluate evalJS expression context ≠ OutOfBudget.
Proof.
  unfold safeEvaluate. rewrite validateExpression_cases.
  destruct (List.find _ _); [done|]. destruct (500 <? _); [done|].
  destruct (balanced _); [|done]. simpl.
  unfold callFunction. destruct (evalJS _ _) as [v|e]; simpl; [|done].
  pose proof (validateResult_cases v) as H.
  destruct (disallowedShape v); [destruct H as [m ->]|rewrite H]; done.
Qed.

(** Every failure of the sandbox is an exception of [safeEvaluate]. *)
Lemma safeEvaluate_failure expression context :
  sandboxFailure evalJS expression context →
  ∃ e, safeEvaluate evalJS expression context = Throw e.
Proof.
  intros Hfail. unfold safeEvaluate. rewrite validateExpression_cases.
  destruct (List.find _ _) as [p|] eqn:Hfind; [by eauto|].
  destruct (500 <? _) eqn:Hlen; [by eauto|].
  destruct (balanced _) eqn:Hbal; [|by eauto]. simpl.
  destruct Hfail as [(p & Hp & Ht)|[Hl|[Hb|[[e He]|(v & Hv & Hs)]]]].
  - apply list_elem_of_In in Hp.
    pose proof (find_none _ _ Hfind p Hp) as Hn. simpl in Hn. congruence.
  - apply Nat.ltb_ge in Hlen. lia.
  - congruence.
  - unfold callFunction. rewrite He. simpl. by eauto.
  - unfold callFunction. rewrite Hv. simpl.
    pose proof (validateResult_cases v) as H. rewrite Hs in H.
    destruct H as [m ->]. simpl. by eauto.
Qed.

Lemma missingParents_nil config formValues :
  missingParents config formValues = [] ↔ parentsPresent config formValues.
Proof.
  unfold missingParents, parentsPresent.
  induction (parentFields config) as [|p ps IH]; simpl.
  - split; [|done]. intros _ p Hp. inversion Hp.
  - unfold hasProp at 1. case_bool_decide as Hp; simpl.
    + rewrite IH. split.
      * intros H q [->|Hq]%elem_of_cons; [done|by apply H].
      * intros H q Hq. apply H. by right.
    + split; [done|]. intros H. destruct Hp. apply H. by left.
Qed.

Lemma computeValue_missing config formValues :
  missingParents config formValues ≠ [] →
  computeValue evalJS config formValues
  = Normal (failed (missingParentError (missingParents config formValues))).
Proof.
  intros Hm. unfold computeValue. fold (missingParents config formValues).
  destruct (missingParents config formValues); done.
Qed.

Lemma computeValue_empty config formValues :
  missingParents config formValues = [] → computationLogic config = [] →
  computeValue evalJS config formValues = Normal (failed invalidExpressionError).
Proof.
  intros Hm He. unfold computeValue. fold (missingParents config formValues).
  by rewrite Hm, He.
Qed.

Lemma computeValue_eval config formValues :
  missingParents config formValues = [] → computationLogic config ≠ [] →
  computeValue evalJS config formValues
  = match safeEvaluate evalJS (computationLogic config)
            (createSafeContext (parentFields config) formValues) with
    | Normal v => Normal {| value := v; error := None |}
    | Throw e => Normal (failed (evaluationError e))
    | OutOfBudget => OutOfBudget
    end.
Proof.
  intros Hm He. unfold computeValue. fold (missingParents config formValues).
  rewrite Hm. simpl. rewrite bool_decide_eq_false_2 by done.
  destruct (safeEvaluate _ _ _); done.
Qed.

(** [computeValue] returns, whatever the configuration and the record. *)
Lemma computeValue_total config formValues :
  ∃ r, computeValue evalJS config formValues = Normal r.
Proof.
  destruct (missingParents config formValues) as [|p ps] eqn:Hm.
  - destruct (computationLogic config) as [|c s] eqn:He.
    + rewrite computeValue_empty by done. eauto.
    + rewrite computeValue_eval by (done || by rewrite He).
      pose proof (safeEvaluate_not_budget (computationLogic config)
                    (createSafeContext (parentFields config) formValues)) as Hb.
      rewrite He in *. destruct (safeEvaluate _ _ _); by eauto.
  - rewrite computeValue_missing by (by rewrite Hm). eauto.
Qed.



(** C6. [computeValue] returns and never throws. An expression that has a
    word of the deny-list as a token gets an error without the evaluator
    being called: the result is the same for every evaluator. Every failure
    of the sandbox (a forbidden pattern, an expression too long or with
    unbalanced parentheses, an exception of the evaluation, a result of a
    shape that is not allowed) comes back as an error with a type and a
    message, of type [evaluation_error] when the parents are there. *)
Theorem computeValue_never_throws config formValues :
  (∃ r, computeValue evalJS config formValues = Normal r)
  ∧ (∀ w, w ∈ deniedWords → containsToken w (computationLogic config) →
       ∃ e, ∀ evalJS', computeValue evalJS' config formValues = Normal (failed e))
  ∧ (sandboxFailure evalJS (computationLogic config)
       (createSafeContext (parentFields config) formValues) →
     ∃ e, computeValue evalJS config formValues = Normal (failed e)
       ∧ (parentsPresent config formValues → computationLogic config ≠ [] →
          type e = evaluation_error ∧ message e ≠ [])).
Proof.
  split_and!.
  - apply computeValue_total.
  - intros w Hw Htok.
    destruct (missingParents config formValues) as [|p ps] eqn:Hm.
    + pose proof (token_tested _ _ Hw Htok) as Htest.
      destruct (List.find (λ p, test p (computationLogic config)) dangerousPatterns)
        as [p|] eqn:Hfind.
      2:{ assert (In (Word w) dangerousPatterns) as Hin
            by (by apply list_elem_of_In, deniedWords_patterns).
          pose proof (find_none _ _ Hfind (Word w) Hin) as Hn. cbv beta in Hn.
          congruence. }
      assert (computationLogic config ≠ []) as Hne.
      { destruct Htok as (pre & post & -> & _). intros Happ.
        apply app_eq_nil in Happ as [_ Happ]. apply app_eq_nil in Happ as [-> _].
        pose proof deniedWords_shape as Hs. rewrite Forall_forall in Hs.
        by destruct (Hs _ Hw). }
      eexists. intros evalJS'. unfold computeValue.
      fold (missingParents config formValues). rewrite Hm. simpl.
      rewrite bool_decide_eq_false_2 by done.
      unfold safeEvaluate. rewrite validateExpression_cases, Hfind. simpl.
      reflexivity.
    + eexists. intros evalJS'. unfold computeValue.
      fold (missingParents config formValues). rewrite Hm. simpl. reflexivity.
  - intros Hfail.
    destruct (missingParents config formValues) as [|p ps] eqn:Hm.
    + destruct (computationLogic config) as [|c s] eqn:He.
      * rewrite computeValue_empty by done. eexists; split; [done|]. by intros _ ?.
      * rewrite computeValue_eval by (done || by rewrite He).
        rewrite He. destruct (safeEvaluate_failure _ _ Hfail) as [e ->].
        eexists; split; [done|]. intros _ _. split; [done|].
        simpl. by destruct (error_message e).
    + rewrite computeValue_missing by (by rewrite Hm). eexists; split; [done|].
      intros Hp. apply missingParents_nil in Hp. congruence.
Qed.

End CalculatorProperties.


(** The two expressions of the specification: both are refused before the
    evaluator is called. *)
Lemma computeValue_never_throws_witness :
  (∃ e, ∀ evalJS', DerivedFieldCalculator.computeValue evalJS'
          {| parentFields := []; computationLogic := js "process.exit()" |} ∅
        = Normal (failed e))
  ∧ (∃ e, ∀ evalJS', DerivedFieldCalculator.computeValue evalJS'
          {| parentFields := []; computationLogic := js "this.constructor" |} ∅
        = Normal (failed e)).
Proof.
  split.
  - apply (proj1 (proj2 (computeValue_never_throws Examples.sampleEval
             {| parentFields := []; computationLogic := js "process.exit()" |} ∅))
             (js "process")).
    + by vm_compute; repeat (first [left | right]).
    + exists [], (js ".exit()"). by vm_compute.
  - apply (proj1 (proj2 (computeValue_never_throws Examples.sampleEval
             {| parentFields := []; computationLogic := js "this.constructor" |} ∅))
             (js "this")).
    + by vm_compute; repeat (first [left | right]).
    + exists [], (js ".constructor"). by vm_compute.
Defined.

(** * Properties of the two traversals *)

Section TraversalProperties.
Import DerivedFieldCalculator.

Variable derivedFields : list FormField.

#[local] Abbreviation IDs := (fieldIds derivedFields).
#[local] Abbreviation edge := (edge derivedFields).
#[local] Abbreviation findField := (findField derivedFields).
#[local] Abbreviation cycle_inv := (cycle_inv derivedFields).
#[local] Abbreviation cycle_post := (cycle_post derivedFields).
#[local] Abbreviation sort_post := (sort_post derivedFields).

Lemma findField_Some (x : jsstring) (f : FormField) :
  findField x = Some f → f ∈ derivedFields ∧ id f = x.
Proof.
  intros [Hin Hid]%find_some. split; [by apply list_elem_of_In|].
  by apply bool_decide_eq_true in Hid.
Qed.

Lemma findField_ids (x : jsstring) (f : FormField) : findField x = Some f → x ∈ IDs.
Proof.
  intros [Hin <-]%findField_Some. unfold fieldIds.
  apply elem_of_list_to_set, list_elem_of_fmap. eauto.
Qed.

Lemma elem_of_fieldIds (f : FormField) : f ∈ derivedFields → id f ∈ IDs.
Proof.
  intros Hin. apply elem_of_list_to_set, list_elem_of_fmap. eauto.
Qed.

(** With ids that are unique, an id names the field that carries it. *)
Lemma findField_unique (f : FormField) :
  NoDup (id <$> derivedFields) → f ∈ derivedFields → findField (id f) = Some f.
Proof.
  unfold DerivedFieldCalculator.findField.
  induction derivedFields as [|g l IH]; intros Hnd Hin; [by inversion Hin|].
  rewrite fmap_cons in Hnd. apply NoDup_cons in Hnd as [Hg Hnd]. simpl.
  case_bool_decide as Heq.
  - apply elem_of_cons in Hin as [->|Hin]; [done|].
    destruct Hg. rewrite Heq. apply list_elem_of_fmap. eauto.
  - apply elem_of_cons in Hin as [->|Hin]; [done|]. by apply IH.
Qed.

Lemma edge_source (x p : jsstring) : edge x p → x ∈ IDs.
Proof. intros (f & c & pf & Hf & _). by eapply findField_ids. Qed.

Lemma tc_edge_source (x y : jsstring) : tc edge x y → x ∈ IDs.
Proof. intros [? ? H|? ? ? H _]; by eapply edge_source. Qed.

Lemma size_fieldIds : size IDs ≤ length derivedFields.
Proof.
  unfold fieldIds. rewrite <- (length_fmap id derivedFields).
  generalize (id <$> derivedFields). intros l.
  induction l as [|x l IH].
  - rewrite list_to_set_nil, size_empty. done.
  - rewrite list_to_set_cons, size_union_alt, size_singleton. cbn [length].
    assert (size ((list_to_set l : gset jsstring) ∖ {[x]}) ≤ size (list_to_set l : gset jsstring))
      by (apply subseteq_size; set_solver).
    lia.
Qed.

(** *** Both traversals return *)

Lemma checkParents_terminates budget rec parents st :
  (∀ p st, p ∈ IDs → size (IDs ∖ visited st) < budget →
     ∃ b st', rec p st = Normal (b, st') ∧ visited st ⊆ visited st') →
  size (IDs ∖ visited st) < budget →
  ∃ b st', checkParents derivedFields rec parents st = Normal (b, st')
           ∧ visited st ⊆ visited st'.
Proof.
  intros Hrec. revert st. induction parents as [|p rest IH]; intros st Hsize; simpl.
  - by eauto.
  - destruct (findField p) as [pf|] eqn:Hp; [|by apply IH].
    case_bool_decide; [|by apply IH].
    destruct (Hrec p st) as (b & st1 & -> & Hsub); [by eapply findField_ids|done|].
    simpl. destruct b; [by eauto|].
    destruct (IH st1) as (b & st' & -> & Hsub').
    + eapply Nat.le_lt_trans; [|exact Hsize]. apply subseteq_size. set_solver.
    + exists b, st'. split; [done|]. set_solver.
Qed.

Lemma hasCycle_terminates budget x st :
  x ∈ IDs → size (IDs ∖ visited st) < budget →
  ∃ b st', hasCycle derivedFields budget x st = Normal (b, st')
           ∧ visited st ⊆ visited st'.
Proof.
  revert x st. induction budget as [|budget IH]; intros x st Hx Hsize; [lia|].
  simpl. case_bool_decide as Hstack; [by eauto|].
  case_bool_decide as Hvis; [by eauto|].
  set (st1 := {| visited := {[x]} ∪ visited st;
                 recursionStack := {[x]} ∪ recursionStack st |}).
  assert (size (IDs ∖ visited st1) < budget) as Hsize1.
  { assert (IDs ∖ visited st1 ⊂ IDs ∖ visited st) as Hlt%subset_size; [|lia].
    subst st1; simpl. split; [set_solver|]. intros H. specialize (H x). set_solver. }
  assert (∃ b st2,
    match findField x with
    | Some field =>
      match derivedFrom field with
      | Some config => checkParents derivedFields (hasCycle derivedFields budget)
                         (parentFields config) st1
      | None => Normal (false, st1)
      end
    | None => Normal (false, st1)
    end = Normal (b, st2) ∧ visited st1 ⊆ visited st2) as (b & st2 & -> & Hsub).
  { destruct (findField x) as [field|]; [|by eauto].
    destruct (derivedFrom field) as [config|]; [|by eauto].
    apply (checkParents_terminates budget); [|done].
    intros p st' Hp Hs. by apply IH. }
  simpl. destruct b; eexists _, _; (split; [done|]); subst st1; simpl in *; set_solver.
Qed.

Lemma detectLoop_terminates budget todo st :
  size IDs < budget → (∀ f, f ∈ todo → f ∈ derivedFields) →
  ∃ r, detectLoop derivedFields budget todo st = Normal r.
Proof.
  intros Hb. revert st. induction todo as [|f rest IH]; intros st Hin; simpl.
  - by eauto.
  - assert (∀ g, g ∈ rest → g ∈ derivedFields) as Hrest
      by (intros g Hg; apply Hin; by right).
    case_bool_decide; [by apply IH|].
    destruct (hasCycle_terminates budget (id f) st) as (b & st' & -> & _).
    + apply elem_of_fieldIds, Hin. by left.
    + eapply Nat.le_lt_trans; [|exact Hb]. apply subseteq_size. set_solver.
    + simpl. destruct b; [by eauto|by apply IH].
Qed.

Lemma detectCircularDependencies_terminates :
  ∃ r, detectCircularDependencies derivedFields = Normal r.
Proof.
  apply detectLoop_terminates; [|done].
  pose proof size_fieldIds. lia.
Qed.

(** *** What [hasCycle] finds *)

Lemma cycle_inv_push x st :
  cycle_inv st → x ∉ visited st →
  cycle_inv {| visited := {[x]} ∪ visited st;
               recursionStack := {[x]} ∪ recursionStack st |}.
Proof.
  intros [Hs Hc Ha] Hx. split; simpl.
  - set_solver.
  - intros y p Hy Hny He.
    destruct (Hc y p) as [? ?]; [set_solver..|done|]. set_solver.
  - intros y Hy Hny. apply Ha; set_solver.
Qed.

(** The finished fields are closed under the paths of the graph. *)
Lemma finished_closed st a b :
  cycle_inv st → tc edge a b → a ∈ visited st → a ∉ recursionStack st →
  b ∈ visited st ∧ b ∉ recursionStack st.
Proof.
  intros [_ Hc _] Htc. induction Htc as [a b He|a b c He _ IH]; intros Ha Hna.
  - by eapply Hc.
  - destruct (Hc a b) as [? ?]; [done..|]. by apply IH.
Qed.

Lemma cycle_inv_pop x st2 :
  cycle_inv st2 → x ∈ visited st2 → x ∈ recursionStack st2 →
  (∀ p, edge x p → p ∈ visited st2 ∧ p ∉ recursionStack st2) →
  cycle_inv {| visited := visited st2; recursionStack := recursionStack st2 ∖ {[x]} |}.
Proof.
  intros Hinv Hxv Hxs Hparents. pose proof Hinv as [Hs Hc Ha]. split; simpl.
  - set_solver.
  - intros y p Hy Hny He. destruct (decide (y = x)) as [->|Hyx].
    + destruct (Hparents p He). set_solver.
    + destruct (Hc y p) as [? ?]; [done|set_solver|done|]. set_solver.
  - intros y Hy Hny. destruct (decide (y = x)) as [->|Hyx].
    + intros Htc. inversion Htc as [? ? He|? p ? He Hrest]; subst.
      * destruct (Hparents x He). done.
      * destruct (Hparents p He) as [Hp Hnp].
        destruct (finished_closed st2 p x Hinv Hrest Hp Hnp). done.
    + apply Ha; set_solver.
Qed.

Lemma checkParents_spec rec parents :
  (∀ p st b st', rec p st = Normal (b, st') → cycle_inv st →
     (∀ s, s ∈ recursionStack st → tc edge s p) →
     if (b : bool) then ∃ c, tc edge c c else cycle_post p st st') →
  ∀ st b st',
    checkParents derivedFields rec parents st = Normal (b, st') →
    cycle_inv st →
    (∀ p pf s, p ∈ parents → findField p = Some pf → is_Some (derivedFrom pf) →
               s ∈ recursionStack st → tc edge s p) →
    if (b : bool) then ∃ c, tc edge c c
    else cycle_inv st' ∧ recursionStack st' = recursionStack st
         ∧ visited st ⊆ visited st'
         ∧ ∀ p pf, p ∈ parents → findField p = Some pf → is_Some (derivedFrom pf) →
                   p ∈ visited st' ∧ p ∉ recursionStack st'.
Proof.
  intros Hrec. induction parents as [|p rest IH]; intros st b st' Hrun Hinv Hpath;
    simpl in Hrun.
  - simplify_eq. split_and!; [done..|]. intros p pf Hp. inversion Hp.
  - assert (∀ q qf s, q ∈ rest → findField q = Some qf → is_Some (derivedFrom qf) →
                      s ∈ recursionStack st → tc edge s q) as Hpath'
      by (intros q qf s Hq; apply Hpath; by right).
    destruct (findField p) as [pf|] eqn:Hp.
    2:{ specialize (IH st b st' Hrun Hinv Hpath'). destruct b; [done|].
        destruct IH as (? & ? & ? & Hall). split_and!; [done..|].
        intros q qf [->|Hq]%elem_of_cons Hqf; [congruence|by eapply Hall]. }
    case_bool_decide as Hd.
    2:{ specialize (IH st b st' Hrun Hinv Hpath'). destruct b; [done|].
        destruct IH as (? & ? & ? & Hall). split_and!; [done..|].
        intros q qf [->|Hq]%elem_of_cons Hqf Hdq; [congruence|by eapply Hall]. }
    destruct (rec p st) as [[b1 st1]| |] eqn:Hcall; simpl in Hrun; [|done..].
    specialize (Hrec p st b1 st1 Hcall Hinv).
    destruct b1.
    + simplify_eq. apply Hrec. intros s Hs. eapply Hpath; [by left|done..].
    + destruct Hrec as (Hinv1 & Hstack1 & Hvis1 & Hpv & Hps).
      { intros s Hs. eapply Hpath; [by left|done..]. }
      specialize (IH st1 b st' Hrun Hinv1). destruct b.
      * apply IH. rewrite Hstack1. exact Hpath'.
      * destruct IH as (Hinv' & Hstack' & Hvis' & Hall).
        { rewrite Hstack1. exact Hpath'. }
        split_and!; [done|congruence|set_solver|].
        intros q qf [->|Hq]%elem_of_cons Hqf Hdq; [|by eapply Hall].
        split; [set_solver|]. by rewrite Hstack', <- Hstack1 in *.
Qed.

Lemma hasCycle_spec budget x st b st' :
  hasCycle derivedFields budget x st = Normal (b, st') →
  cycle_inv st → (∀ s, s ∈ recursionStack st → tc edge s x) →
  if b then ∃ c, tc edge c c else cycle_post x st st'.
Proof.
  revert x st b st'. induction budget as [|budget IH]; intros x st b st' Hrun Hinv Hpath;
    simpl in Hrun; [done|].
  case_bool_decide as Hstack.
  { simplify_eq. exists x. by apply Hpath. }
  case_bool_decide as Hvis.
  { simplify_eq. by split_and!. }
  set (st1 := {| visited := {[x]} ∪ visited st;
                 recursionStack := {[x]} ∪ recursionStack st |}) in *.
  assert (cycle_inv st1) as Hinv1 by (by apply cycle_inv_push).
  assert (∀ found st2,
    match findField x with
    | Some field =>
      match derivedFrom field with
      | Some config => checkParents derivedFields (hasCycle derivedFields budget)
                         (parentFields config) st1
      | None => Normal (false, st1)
      end
    | None => Normal (false, st1)
    end = Normal (found, st2) →
    if (found : bool) then ∃ c, tc edge c c
    else cycle_inv st2 ∧ recursionStack st2 = recursionStack st1
         ∧ visited st1 ⊆ visited st2
         ∧ ∀ p, edge x p → p ∈ visited st2 ∧ p ∉ recursionStack st2) as Hbody.
  { intros found st2 Hloop.
    destruct (findField x) as [field|] eqn:Hfield.
    2:{ simplify_eq. split_and!; [done..|].
        intros p (f & c & pf & Hf & _). congruence. }
    destruct (derivedFrom field) as [config|] eqn:Hconfig.
    2:{ simplify_eq. split_and!; [done..|].
        intros p (f & c & pf & Hf & Hc & _). congruence. }
    pose proof (checkParents_spec (hasCycle derivedFields budget) (parentFields config))
      as Hspec.
    specialize (Hspec (λ p st b st' H, IH p st b st' H) st1 found st2 Hloop Hinv1).
    destruct found.
    - apply Hspec. intros p pf s Hp Hpf Hd Hs.
      assert (edge x p) as He by (by exists field, config, pf).
      subst st1; simpl in Hs. apply elem_of_union in Hs as [->%elem_of_singleton|Hs].
      + by apply tc_once.
      + eapply tc_r; [by apply Hpath|done].
    - destruct Hspec as (Hinv2 & Hstack2 & Hvis2 & Hall).
      { intros p pf s Hp Hpf Hd Hs.
        assert (edge x p) as He by (by exists field, config, pf).
        subst st1; simpl in Hs. apply elem_of_union in Hs as [->%elem_of_singleton|Hs].
        + by apply tc_once.
        + eapply tc_r; [by apply Hpath|done]. }
      split_and!; [done..|].
      intros p (f & c & pf & Hf & Hc & Hp & Hpf & Hd). simplify_eq. by eapply Hall. }
  destruct (match findField x with Some _ => _ | None => _ end)
    as [[found st2]| |] eqn:Hloop; simpl in Hrun; [|done..].
  specialize (Hbody found st2 eq_refl). destruct found; simplify_eq; [done|].
  destruct Hbody as (Hinv2 & Hstack2 & Hvis2 & Hall).
  subst st1; simpl in *. split_and!; simpl.
  - apply cycle_inv_pop; [done|set_solver|set_solver|done].
  - rewrite Hstack2. set_solver.
  - set_solver.
  - set_solver.
  - set_solver.
Qed.

Lemma detectLoop_spec budget todo st r :
  detectLoop derivedFields budget todo st = Normal r →
  cycle_inv st → recursionStack st = ∅ →
  match r with
  | Some e => e = circularDependencyError ∧ ∃ c, tc edge c c
  | None => ∃ st', cycle_inv st' ∧ recursionStack st' = ∅ ∧ visited st ⊆ visited st'
                   ∧ ∀ f, f ∈ todo → id f ∈ visited st'
  end.
Proof.
  revert st. induction todo as [|f rest IH]; intros st Hrun Hinv Hempty; simpl in Hrun.
  - simplify_eq. exists st. split_and!; [done..|]. intros f Hf. inversion Hf.
  - case_bool_decide as Hvis.
    + specialize (IH st Hrun Hinv Hempty). destruct r; [done|].
      destruct IH as (st' & ? & ? & ? & Hall). exists st'. split_and!; [done..|].
      intros g [->|Hg]%elem_of_cons; [set_solver|by apply Hall].
    + destruct (hasCycle derivedFields budget (id f) st) as [[b st1]| |] eqn:Hcall;
        simpl in Hrun; [|done..].
      pose proof (hasCycle_spec _ _ _ _ _ Hcall Hinv) as Hspec.
      destruct b.
      * simplify_eq. split; [done|]. apply Hspec. intros s Hs. set_solver.
      * destruct Hspec as (Hinv1 & Hstack1 & Hvis1 & Hfv & _).
        { intros s Hs. set_solver. }
        specialize (IH st1 Hrun Hinv1). destruct r.
        { apply IH. congruence. }
        destruct IH as (st' & ? & ? & ? & Hall); [congruence|].
        exists st'. split_and!; [done|done|set_solver|].
        intros g [->|Hg]%elem_of_cons; [set_solver|by apply Hall].
Qed.

Lemma cycle_inv_empty : cycle_inv {| visited := ∅; recursionStack := ∅ |}.
Proof. split; simpl; set_solver. Qed.

(** When [detectCircularDependencies] returns null, the graph has no cycle. *)
Lemma detect_none_acyclic :
  detectCircularDependencies derivedFields = Normal None → ∀ c, ¬ tc edge c c.
Proof.
  intros Hrun c Htc.
  destruct (detectLoop_spec _ _ _ _ Hrun cycle_inv_empty eq_refl)
    as (st' & Hinv & Hstack & _ & Hall).
  pose proof (tc_edge_source _ _ Htc) as Hc.
  apply elem_of_list_to_set, list_elem_of_fmap in Hc as (f & -> & Hf).
  eapply (ci_acyclic _ _ Hinv); [by apply Hall| |done]. rewrite Hstack. set_solver.
Qed.

(** When it returns an error, the graph has a cycle, and the error is the
    one of circular dependencies. *)
Lemma detect_some_cyclic e :
  detectCircularDependencies derivedFields = Normal (Some e) →
  e = circularDependencyError ∧ ∃ c, tc edge c c.
Proof.
  intros Hrun. exact (detectLoop_spec _ _ _ _ Hrun cycle_inv_empty eq_refl).
Qed.

(** *** [sortFieldsByDependencies] returns *)

Lemma visitParents_terminates budget rec parents st :
  (∀ f st, f ∈ derivedFields → size (IDs ∖ (sort_visited st ∪ temp st)) < budget →
     ∃ st', rec f st = Normal st'
            ∧ sort_visited st ∪ temp st ⊆ sort_visited st' ∪ temp st'
            ∧ ∀ g, g ∈ sorted st' → g ∈ sorted st ∨ g ∈ derivedFields) →
  size (IDs ∖ (sort_visited st ∪ temp st)) < budget →
  ∃ st', visitParents derivedFields rec parents st = Normal st'
         ∧ sort_visited st ∪ temp st ⊆ sort_visited st' ∪ temp st'
         ∧ ∀ g, g ∈ sorted st' → g ∈ sorted st ∨ g ∈ derivedFields.
Proof.
  intros Hrec. revert st. induction parents as [|p rest IH]; intros st Hsize; simpl.
  - by eauto.
  - destruct (findField p) as [pf|] eqn:Hp; [|by apply IH].
    case_bool_decide; [|by apply IH].
    destruct (Hrec pf st) as (st1 & -> & Hsub & Hin1); [|done|].
    { by apply findField_Some in Hp as [? _]. }
    simpl. destruct (IH st1) as (st' & -> & Hsub' & Hin').
    + eapply Nat.le_lt_trans; [|exact Hsize]. apply subseteq_size. set_solver.
    + exists st'. split_and!; [done|set_solver|].
      intros g Hg. destruct (Hin' g Hg) as [?|?]; [by apply Hin1|by right].
Qed.

Lemma visit_terminates budget field st :
  field ∈ derivedFields → size (IDs ∖ (sort_visited st ∪ temp st)) < budget →
  ∃ st', visit derivedFields budget field st = Normal st'
         ∧ sort_visited st ∪ temp st ⊆ sort_visited st' ∪ temp st'
         ∧ ∀ g, g ∈ sorted st' → g ∈ sorted st ∨ g ∈ derivedFields.
Proof.
  revert field st. induction budget as [|budget IH]; intros field st Hf Hsize; [lia|].
  simpl. case_bool_decide as Htemp; [by eauto|].
  case_bool_decide as Hvis; [by eauto|].
  set (st1 := {| sorted := sorted st; sort_visited := sort_visited st;
                 temp := {[id field]} ∪ temp st |}).
  assert (size (IDs ∖ (sort_visited st1 ∪ temp st1)) < budget) as Hsize1.
  { assert (IDs ∖ (sort_visited st1 ∪ temp st1) ⊂ IDs ∖ (sort_visited st ∪ temp st))
      as Hlt%subset_size; [|lia].
    pose proof (elem_of_fieldIds _ Hf).
    subst st1; simpl. split; [set_solver|]. intros H'. specialize (H' (id field)).
    set_solver. }
  assert (∃ st2,
    match derivedFrom field with
    | Some config => visitParents derivedFields (visit derivedFields budget)
                       (parentFields config) st1
    | None => Normal st1
    end = Normal st2
    ∧ sort_visited st1 ∪ temp st1 ⊆ sort_visited st2 ∪ temp st2
    ∧ ∀ g, g ∈ sorted st2 → g ∈ sorted st1 ∨ g ∈ derivedFields) as (st2 & -> & Hsub & Hin).
  { destruct (derivedFrom field) as [config|]; [|by eauto].
    apply (visitParents_terminates budget); [|done].
    intros f st' Hf' Hs. by apply IH. }
  simpl. eexists. split_and!; [done| |].
  { subst st1; simpl in *. intros x Hx.
    destruct (decide (x = id field)); [set_solver|].
    specialize (Hsub x). clear Htemp Hvis. set_solver. }
  simpl. intros g Hg. apply elem_of_app in Hg as [Hg|Hg]; [by apply Hin|].
  apply list_elem_of_singleton in Hg as ->. by right.
Qed.

Lemma sortLoop_terminates budget todo st :
  size IDs < budget → (∀ f, f ∈ todo → f ∈ derivedFields) →
  ∃ st', sortLoop derivedFields budget todo st = Normal st'
         ∧ ∀ g, g ∈ sorted st' → g ∈ sorted st ∨ g ∈ derivedFields.
Proof.
  intros Hb. revert st. induction todo as [|f rest IH]; intros st Hin; simpl.
  - by eauto.
  - assert (∀ g, g ∈ rest → g ∈ derivedFields) as Hrest
      by (intros g Hg; apply Hin; by right).
    case_bool_decide; [by apply IH|].
    destruct (visit_terminates budget f st) as (st1 & -> & _ & Hin1).
    + apply Hin. by left.
    + eapply Nat.le_lt_trans; [|exact Hb]. apply subseteq_size. set_solver.
    + simpl. destruct (IH st1 Hrest) as (st' & -> & Hin'). exists st'. split; [done|].
      intros g Hg. destruct (Hin' g Hg) as [?|?]; [by apply Hin1|by right].
Qed.

(** [sortFieldsByDependencies] returns, and what it returns are fields of
    the list it was given. *)
Lemma sortFieldsByDependencies_terminates :
  ∃ order, sortFieldsByDependencies derivedFields = Normal order
           ∧ ∀ g, g ∈ order → g ∈ derivedFields.
Proof.
  unfold sortFieldsByDependencies.
  destruct (sortLoop_terminates (S (length derivedFields)) derivedFields
              {| sorted := []; sort_visited := ∅; temp := ∅ |}) as (st' & -> & Hin).
  - pose proof size_fieldIds. lia.
  - done.
  - simpl. exists (sorted st'). split; [done|]. intros g Hg.
    destruct (Hin g Hg) as [Hnil|?]; [inversion Hnil|done].
Qed.

(** *** The order of [sortFieldsByDependencies] *)

Lemma nodup_ids_inj (l : list FormField) (f g : FormField) :
  NoDup (id <$> l) → f ∈ l → g ∈ l → id f = id g → f = g.
Proof.
  induction l as [|h l IH]; intros Hnd Hf Hg Heq; [by inversion Hf|].
  rewrite fmap_cons in Hnd. apply NoDup_cons in Hnd as [Hh Hnd].
  apply elem_of_cons in Hf as [->|Hf]; apply elem_of_cons in Hg as [->|Hg]; try done.
  - destruct Hh. rewrite Heq. apply list_elem_of_fmap. eauto.
  - destruct Hh. rewrite <- Heq. apply list_elem_of_fmap. eauto.
  - by apply IH.
Qed.

Lemma parentsFirst_snoc (l : list FormField) (f : FormField) :
  parentsFirst derivedFields l →
  (∀ p, edge (id f) p → p ∈ id <$> l) →
  parentsFirst derivedFields (l ++ [f]).
Proof.
  intros Hl Hf i g p Hi He.
  destruct (decide (i < length l)) as [Hlt|Hge].
  - rewrite lookup_app_l in Hi by done.
    destruct (Hl i g p Hi He) as (j & h & Hj & Hjl & Hid).
    exists j, h. split_and!; [done| |done]. rewrite lookup_app_l by lia. done.
  - rewrite lookup_app_r in Hi by lia.
    apply list_lookup_singleton_Some in Hi as [Hi ->].
    apply Hf, list_elem_of_fmap in He as (h & -> & Hh).
    apply list_elem_of_lookup in Hh as [j Hj].
    pose proof (lookup_lt_Some _ _ _ Hj).
    exists j, h. split_and!; [lia| |done]. by rewrite lookup_app_l.
Qed.

Lemma visitParents_spec rec parents :
  (∀ f st st', rec f st = Normal st' → f ∈ derivedFields → sort_inv derivedFields st →
     (∀ s, s ∈ temp st → tc edge s (id f)) → sort_post f st st') →
  ∀ st st',
    visitParents derivedFields rec parents st = Normal st' →
    sort_inv derivedFields st →
    (∀ p pf s, p ∈ parents → findField p = Some pf → is_Some (derivedFrom pf) →
               s ∈ temp st → tc edge s p) →
    sort_inv derivedFields st' ∧ temp st' = temp st
    ∧ sort_visited st ⊆ sort_visited st'
    ∧ ∀ p pf, p ∈ parents → findField p = Some pf → is_Some (derivedFrom pf) →
              p ∈ sort_visited st'.
Proof.
  intros Hrec. induction parents as [|p rest IH]; intros st st' Hrun Hinv Hpath;
    simpl in Hrun.
  - simplify_eq. split_and!; [done..|]. intros p pf Hp. inversion Hp.
  - assert (∀ q qf s, q ∈ rest → findField q = Some qf → is_Some (derivedFrom qf) →
                      s ∈ temp st → tc edge s q) as Hpath'
      by (intros q qf s Hq; apply Hpath; by right).
    destruct (findField p) as [pf|] eqn:Hp.
    2:{ destruct (IH st st' Hrun Hinv Hpath') as (? & ? & ? & Hall).
        split_and!; [done..|].
        intros q qf [->|Hq]%elem_of_cons Hqf; [congruence|by eapply Hall]. }
    case_bool_decide as Hd.
    2:{ destruct (IH st st' Hrun Hinv Hpath') as (? & ? & ? & Hall).
        split_and!; [done..|].
        intros q qf [->|Hq]%elem_of_cons Hqf Hdq; [congruence|by eapply Hall]. }
    destruct (rec pf st) as [st1| |] eqn:Hcall; simpl in Hrun; [|done..].
    pose proof (findField_Some _ _ Hp) as [Hpf Hidp].
    destruct (Hrec pf st st1 Hcall Hpf Hinv) as (Hinv1 & Htemp1 & Hvis1 & Hpv).
    { intros s Hs. rewrite Hidp. eapply Hpath; [by left|done..]. }
    destruct (IH st1 st' Hrun Hinv1) as (Hinv' & Htemp' & Hvis' & Hall).
    { rewrite Htemp1. exact Hpath'. }
    split_and!; [done|congruence|set_solver|].
    intros q qf [->|Hq]%elem_of_cons Hqf Hdq; [|by eapply Hall].
    rewrite <- Hidp. set_solver.
Qed.

Lemma visit_spec budget field st st' :
  NoDup (id <$> derivedFields) → (∀ c, ¬ tc edge c c) →
  visit derivedFields budget field st = Normal st' →
  field ∈ derivedFields → sort_inv derivedFields st →
  (∀ s, s ∈ temp st → tc edge s (id field)) →
  sort_post field st st'.
Proof.
  intros Hnd Hacyc. revert field st st'.
  induction budget as [|budget IH]; intros field st st' Hrun Hf Hinv Hpath;
    simpl in Hrun; [done|].
  case_bool_decide as Htemp.
  { destruct (Hacyc (id field)). by apply Hpath. }
  case_bool_decide as Hvis.
  { simplify_eq. by split_and!. }
  set (st1 := {| sorted := sorted st; sort_visited := sort_visited st;
                 temp := {[id field]} ∪ temp st |}) in *.
  pose proof (findField_unique field Hnd Hf) as Hfind.
  assert (sort_inv derivedFields st1) as Hinv1.
  { destruct Hinv as [H1 H2 H3 H4 H5]. split; simpl; try done. set_solver. }
  assert (∀ st2,
    match derivedFrom field with
    | Some config => visitParents derivedFields (visit derivedFields budget)
                       (parentFields config) st1
    | None => Normal st1
    end = Normal st2 →
    sort_inv derivedFields st2 ∧ temp st2 = temp st1
    ∧ sort_visited st1 ⊆ sort_visited st2
    ∧ ∀ p, edge (id field) p → p ∈ sort_visited st2) as Hbody.
  { intros st2 Hloop.
    destruct (derivedFrom field) as [config|] eqn:Hconfig.
    2:{ simplify_eq. split_and!; [done..|].
        intros p (f & c & pf & Hf' & Hc & _). congruence. }
    pose proof (visitParents_spec (visit derivedFields budget) (parentFields config))
      as Hspec.
    destruct (Hspec (λ f st st' H, IH f st st' H) st1 st2 Hloop Hinv1)
      as (Hinv2 & Htemp2 & Hvis2 & Hall).
    { intros p pf s Hp Hpf Hd Hs.
      assert (edge (id field) p) as He by (by exists field, config, pf).
      subst st1; simpl in Hs. apply elem_of_union in Hs as [->%elem_of_singleton|Hs].
      + by apply tc_once.
      + eapply tc_r; [by apply Hpath|done]. }
    split_and!; [done..|].
    intros p (f & c & pf & Hf' & Hc & Hp & Hpf & Hd). simplify_eq. by eapply Hall. }
  destruct (match derivedFrom field with Some _ => _ | None => _ end)
    as [st2| |] eqn:Hloop; simpl in Hrun; [|done..].
  destruct (Hbody st2 eq_refl) as (Hinv2 & Htemp2 & Hvis2 & Hall). simplify_eq.
  destruct Hinv2 as [H1 H2 H3 H4 H5].
  assert (id field ∉ sort_visited st2) as Hfresh.
  { intros Hin. apply (H2 (id field)); [|done]. rewrite Htemp2. subst st1; simpl.
    set_solver. }
  subst st1; simpl in *. split_and!; simpl.
  - split; simpl.
    + rewrite fmap_app, list_to_set_app_L, <- H1. simpl. set_solver.
    + set_solver.
    + rewrite fmap_app. apply NoDup_app. split_and!; [done| |apply NoDup_singleton].
      intros x Hx ->%list_elem_of_singleton. apply Hfresh. rewrite H1.
      by apply elem_of_list_to_set.
    + intros g [Hg | ->%list_elem_of_singleton]%elem_of_app; [by apply H4|done].
    + apply parentsFirst_snoc; [done|]. intros p He.
      apply Hall in He. rewrite H1 in He. by apply elem_of_list_to_set in He.
  - rewrite Htemp2. set_solver.
  - set_solver.
  - set_solver.
Qed.

Lemma sortLoop_spec budget todo st st' :
  NoDup (id <$> derivedFields) → (∀ c, ¬ tc edge c c) →
  sortLoop derivedFields budget todo st = Normal st' →
  (∀ f, f ∈ todo → f ∈ derivedFields) →
  sort_inv derivedFields st → temp st = ∅ →
  sort_inv derivedFields st' ∧ temp st' = ∅ ∧ sort_visited st ⊆ sort_visited st'
  ∧ ∀ f, f ∈ todo → id f ∈ sort_visited st'.
Proof.
  intros Hnd Hacyc. revert st.
  induction todo as [|f rest IH]; intros st Hrun Hin Hinv Htemp; simpl in Hrun.
  - simplify_eq. split_and!; [done..|]. intros f Hf. inversion Hf.
  - assert (∀ g, g ∈ rest → g ∈ derivedFields) as Hrest
      by (intros g Hg; apply Hin; by right).
    case_bool_decide as Hvis.
    + destruct (IH st Hrun Hrest Hinv Htemp) as (? & ? & ? & Hall).
      split_and!; [done..|].
      intros g [->|Hg]%elem_of_cons; [set_solver|by apply Hall].
    + destruct (visit derivedFields budget f st) as [st1| |] eqn:Hcall;
        simpl in Hrun; [|done..].
      destruct (visit_spec _ _ _ _ Hnd Hacyc Hcall) as (Hinv1 & Htemp1 & Hvis1 & Hfv);
        [apply Hin; by left|done|set_solver|].
      destruct (IH st1 Hrun Hrest Hinv1) as (? & ? & ? & Hall); [congruence|].
      split_and!; [done|done|set_solver|].
      intros g [->|Hg]%elem_of_cons; [set_solver|by apply Hall].
Qed.

(** Without a cycle and with unique ids, [sortFieldsByDependencies] returns
    the derived fields, each once, the derived parents of a field before the
    field. *)
Lemma sortFieldsByDependencies_spec order :
  NoDup (id <$> derivedFields) → (∀ c, ¬ tc edge c c) →
  sortFieldsByDependencies derivedFields = Normal order →
  order ≡ₚ derivedFields ∧ NoDup (id <$> order) ∧ parentsFirst derivedFields order.
Proof.
  intros Hnd Hacyc Hrun. unfold sortFieldsByDependencies in Hrun.
  destruct (sortLoop _ _ _ _) as [st'| |] eqn:Hloop; simpl in Hrun; [|done..].
  simplify_eq.
  destruct (sortLoop_spec _ _ _ _ Hnd Hacyc Hloop) as (Hinv & _ & _ & Hall);
    [done| |done|].
  { split; simpl; try done.
    - apply NoDup_nil_2.
    - intros f Hf. inversion Hf. }
  destruct Hinv as [H1 H2 H3 H4 H5]. split_and!; [|done..].
  apply NoDup_Permutation.
  - by eapply NoDup_fmap_1.
  - by eapply NoDup_fmap_1.
  - intros f. split; [by apply H4|]. intros Hf.
    pose proof (Hall f Hf) as Hid. rewrite H1 in Hid.
    apply elem_of_list_to_set, list_elem_of_fmap in Hid as (g & Hid & Hg).
    by rewrite (nodup_ids_inj derivedFields f g Hnd Hf (H4 g Hg) Hid).
Qed.

End TraversalProperties.

(** * Properties of [updateDerivedFields] *)

Lemma nodup_ids_filter (P : FormField → Prop) `{!∀ f, Decision (P f)} (l : list FormField) :
  NoDup (id <$> l) → NoDup (id <$> filter P l).
Proof.
  induction l as [|f l IH]; intros Hnd; [done|].
  rewrite fmap_cons in Hnd. apply NoDup_cons in Hnd as [Hf Hnd].
  rewrite filter_cons. case_decide; [|by apply IH].
  rewrite fmap_cons. apply NoDup_cons. split; [|by apply IH].
  intros (g & Hid & Hg)%list_elem_of_fmap. apply Hf, list_elem_of_fmap.
  exists g. split; [done|]. by apply list_elem_of_filter in Hg as [_ ?].
Qed.

Lemma elem_of_derivedFieldsOf (schema : FormSchema) (f : FormField) :
  f ∈ derivedFieldsOf schema ↔ is_Some (derivedFrom f) ∧ f ∈ fields schema.
Proof. unfold derivedFieldsOf. by rewrite list_elem_of_filter. Qed.

Section SchemaGraph.
Import DerivedFieldCalculator.

Variable schema : FormSchema.
Hypothesis unique_ids : NoDup (id <$> fields schema).

#[local] Abbreviation dfs := (derivedFieldsOf schema).

Lemma derived_unique_ids : NoDup (id <$> dfs).
Proof using unique_ids. by apply nodup_ids_filter. Qed.

(** With unique ids, the graph of the traversals is the relation between the
    derived fields of the schema. *)
Lemma dependsOn_edge (f g : FormField) :
  dependsOn schema f g → edge dfs (id f) (id g).
Proof using unique_ids.
  intros (Hf & Hg & Hdg & config & Hc & Hp).
  exists f, config, g. split_and!; try done.
  - apply findField_unique; [apply derived_unique_ids|].
    apply elem_of_derivedFieldsOf. by rewrite Hc.
  - apply findField_unique; [apply derived_unique_ids|].
    by apply elem_of_derivedFieldsOf.
Qed.

Lemma edge_dependsOn (x p : jsstring) :
  edge dfs x p →
  ∃ f g, findField dfs x = Some f ∧ findField dfs p = Some g ∧ dependsOn schema f g.
Proof.
  intros (f & config & g & Hf & Hc & Hp & Hg & Hd).
  exists f, g. split_and!; [done..|].
  apply findField_Some in Hf as [[_ Hf]%elem_of_derivedFieldsOf _].
  apply findField_Some in Hg as [[_ Hg]%elem_of_derivedFieldsOf <-].
  split_and!; [done..|]. by exists config.
Qed.

Lemma tc_dependsOn_edge (f g : FormField) :
  tc (dependsOn schema) f g → tc (edge dfs) (id f) (id g).
Proof using unique_ids. apply tc_congruence. apply dependsOn_edge. Qed.

Lemma tc_edge_dependsOn (x y : jsstring) :
  tc (edge dfs) x y →
  ∃ f g, findField dfs x = Some f ∧ findField dfs y = Some g
         ∧ tc (dependsOn schema) f g.
Proof.
  induction 1 as [x y He|x y z He _ IH].
  - destruct (edge_dependsOn _ _ He) as (f & g & ? & ? & ?).
    exists f, g. split_and!; [done..|]. by apply tc_once.
  - destruct (edge_dependsOn _ _ He) as (f & g & Hf & Hg & Hd).
    destruct IH as (g' & k & Hg' & Hk & Htc). simplify_eq.
    exists f, k. split_and!; [done..|]. by eapply tc_l.
Qed.


(** The schema has a cycle exactly when the graph of the traversals has. *)
Lemma cyclic_iff :
  (∃ f, tc (dependsOn schema) f f) ↔ (∃ c, tc (edge dfs) c c).
Proof using unique_ids.
  split.
  - intros [f Hf]. exists (id f). by apply tc_dependsOn_edge.
  - intros [c Hc]. destruct (tc_edge_dependsOn _ _ Hc) as (f & g & Hf & Hg & Htc).
    simplify_eq. by exists f.
Qed.



End SchemaGraph.

Lemma circular_errors (l : list FormField) (e : DerivedFieldError)
    (errs : gmap jsstring DerivedFieldError) (k : jsstring) :
  fold_left (λ errors field, <[id field := e]> errors) l errs !! k
  = if decide (k ∈ id <$> l) then Some e else errs !! k.
Proof.
  revert errs. induction l as [|g l IH]; intros errs; cbn [fold_left].
  - case_decide as Hin; [by inversion Hin|done].
  - rewrite IH, fmap_cons. repeat case_decide; try done.
    + exfalso. set_solver.
    + destruct (decide (k = id g)) as [->|Hne]; [by rewrite lookup_insert_eq|].
      exfalso. set_solver.
    + rewrite lookup_insert_ne; [done|]. set_solver.
Qed.

Section UpdateProperties.
Import DerivedFieldCalculator.

Variable evalJS : jsstring → gmap jsstring any → any + Error.

#[local] Abbreviation computeLoop := (computeLoop evalJS).

Lemma recordAt_insert (h : heap) (l : loc) (o : gmap jsstring any) : recordAt (<[l := o]> h) l = o.
Proof. unfold recordAt. by rewrite lookup_insert_eq. Qed.

Lemma recordAt_setProp (h : heap) (uv : loc) (k : jsstring) (v : any) :
  recordAt (setProp uv k v h) uv = <[k := v]> (recordAt h uv).
Proof. unfold setProp. apply recordAt_insert. Qed.

Lemma setProp_other (h : heap) (uv : loc) (k : jsstring) (v : any) (l : loc) : l ≠ uv → setProp uv k v h !! l = h !! l.
Proof. intros Hne. unfold setProp. by rewrite lookup_insert_ne. Qed.

(** The loop returns. *)
Lemma computeLoop_total (uv : loc) (todo : list FormField) (h : heap) (errs : gmap jsstring DerivedFieldError) :
  ∃ h' errs', computeLoop uv todo h errs = Normal (h', errs').
Proof.
  revert h errs. induction todo as [|f rest IH]; intros h errs; simpl; [by eauto|].
  destruct (derivedFrom f) as [config|]; [|by apply IH].
  destruct (computeValue_total evalJS config (recordAt h uv)) as [r ->]. simpl.
  destruct (error r); apply IH.
Qed.

Lemma computeLoop_app (uv : loc) (l1 l2 : list FormField) (h : heap) (errs : gmap jsstring DerivedFieldError) :
  computeLoop uv (l1 ++ l2) h errs
  = computeLoop uv l1 h errs ≫= (λ '(h1, e1), computeLoop uv l2 h1 e1).
Proof.
  revert h errs. induction l1 as [|f l1 IH]; intros h errs; simpl; [done|].
  destruct (derivedFrom f) as [config|]; [|by apply IH].
  destruct (computeValue evalJS config (recordAt h uv)) as [r| |]; simpl; [|done..].
  destruct (error r); apply IH.
Qed.

(** The loop writes to the record at [updatedValues] only, and there only
    under the ids of the fields it goes through; the same for the errors. *)
Lemma computeLoop_frame (uv : loc) (todo : list FormField) (h : heap) (errs : gmap jsstring DerivedFieldError)
    (h' : heap) (errs' : gmap jsstring DerivedFieldError) :
  computeLoop uv todo h errs = Normal (h', errs') →
  (∀ l, l ≠ uv → h' !! l = h !! l)
  ∧ (∀ k, k ∉ id <$> todo →
          recordAt h' uv !! k = recordAt h uv !! k ∧ errs' !! k = errs !! k).
Proof.
  revert h errs. induction todo as [|f rest IH]; intros h errs Hrun; simpl in Hrun.
  - by simplify_eq.
  - assert (∀ k, k ∉ id <$> f :: rest → k ≠ id f ∧ k ∉ id <$> rest) as Hk.
    { intros k Hk. rewrite fmap_cons in Hk. by apply not_elem_of_cons in Hk. }
    destruct (derivedFrom f) as [config|].
    2:{ destruct (IH _ _ Hrun) as [H1 H2]. split; [done|].
        intros k [_ ?]%Hk. by apply H2. }
    destruct (computeValue evalJS config (recordAt h uv)) as [r| |]; simpl in Hrun;
      [|done..].
    destruct (error r) as [e|]; destruct (IH _ _ Hrun) as [H1 H2]; split.
    + done.
    + intros k [Hne Hk']%Hk. destruct (H2 k Hk') as [-> ->].
      by rewrite lookup_insert_ne.
    + intros l Hl. rewrite H1 by done. by apply setProp_other.
    + intros k [Hne Hk']%Hk. destruct (H2 k Hk') as [-> ->].
      by rewrite recordAt_setProp, lookup_insert_ne.
Qed.

(** The record that a field reads agrees with the record that the loop
    leaves, but for the fields that come from it on. *)
Lemma working_agrees (uv : loc) (before rest : list FormField) (h0 h' : heap)
    (errs' : gmap jsstring DerivedFieldError) (k : jsstring) :
  computeLoop uv (before ++ rest) h0 ∅ = Normal (h', errs') →
  k ∉ id <$> rest →
  workingValues evalJS uv before h0 !! k = recordAt h' uv !! k.
Proof.
  intros Hrun Hk. rewrite computeLoop_app in Hrun. unfold workingValues.
  destruct (computeLoop uv before h0 ∅) as [[h1 e1]| |]; simpl in Hrun; [|done..].
  destruct (computeLoop_frame _ _ _ _ _ _ Hrun) as [_ H2].
  by destruct (H2 k Hk) as [-> _].
Qed.

(** What the loop does for one field of the list: it calls [computeValue]
    on the record as the fields before it left it, and keeps the value or the
    error. *)
Lemma field_result (uv : loc) (before : list FormField) (f : FormField)
    (after : list FormField) (config : DerivedFieldConfig) (h0 h' : heap)
    (errs' : gmap jsstring DerivedFieldError) :
  NoDup (id <$> before ++ f :: after) →
  computeLoop uv (before ++ f :: after) h0 ∅ = Normal (h', errs') →
  derivedFrom f = Some config →
  ∃ r, computeValue evalJS config (workingValues evalJS uv before h0) = Normal r
    ∧ match error r with
      | Some e => errs' !! id f = Some (withFieldId e (id f))
                  ∧ recordAt h' uv !! id f = recordAt h0 uv !! id f
      | None => errs' !! id f = None ∧ recordAt h' uv !! id f = Some (value r)
      end.
Proof.
  intros Hnd Hrun Hconfig.
  rewrite fmap_app, fmap_cons in Hnd. apply NoDup_app in Hnd as (_ & Hbefore & Hnd).
  apply NoDup_cons in Hnd as [Hafter _].
  assert (id f ∉ id <$> before) as Hb.
  { intros Hin. apply (Hbefore _ Hin). by left. }
  rewrite computeLoop_app in Hrun. unfold workingValues.
  destruct (computeLoop uv before h0 ∅) as [[h1 e1]| |] eqn:Hpre; simpl in Hrun;
    [|done..].
  destruct (computeLoop_frame _ _ _ _ _ _ Hpre) as [_ Hf1].
  destruct (Hf1 _ Hb) as [Hrec1 Herr1]. rewrite lookup_empty in Herr1.
  rewrite Hconfig in Hrun.
  destruct (computeValue evalJS config (recordAt h1 uv)) as [r| |]; simpl in Hrun;
    [|done..].
  exists r. split; [done|].
  destruct (error r) as [e|]; destruct (computeLoop_frame _ _ _ _ _ _ Hrun) as [_ Hf2];
    destruct (Hf2 _ Hafter) as [Hrec2 Herr2].
  - by rewrite Herr2, Hrec2, lookup_insert_eq, Hrec1.
  - by rewrite Herr2, Hrec2, recordAt_setProp, lookup_insert_eq, Herr1.
Qed.

(** [updateDerivedFields], once the copy is made. *)
Lemma updateDerivedFields_unfold (formValues : loc) (schema : FormSchema) (h : heap) :
  updateDerivedFields evalJS formValues schema h
  = let uv := fresh (dom h) in
    let h0 := <[uv := recordAt h formValues]> h in
    c ← detectCircularDependencies (derivedFieldsOf schema);
    match c with
    | Some e =>
      Normal ({| values := uv;
                 errors := fold_left (λ errors field, <[id field := e]> errors)
                             (derivedFieldsOf schema) ∅ |}, h0)
    | None =>
      order ← sortFieldsByDependencies (derivedFieldsOf schema);
      '(h', errs) ← computeLoop uv order h0 ∅;
      Normal ({| values := uv; errors := errs |}, h')
    end.
Proof. reflexivity. Qed.

(** The call returns, whatever the schema; it returns a record that is new,
    writes to no other, and leaves the entries that are not those of derived
    fields as they were. *)
Lemma updateDerivedFields_total (formValues : loc) (schema : FormSchema) (h : heap) :
  ∃ r h', updateDerivedFields evalJS formValues schema h = Normal (r, h')
    ∧ values r = fresh (dom h)
    ∧ (∀ l, l ≠ values r → h' !! l = h !! l)
    ∧ ∀ k, k ∉ id <$> derivedFieldsOf schema →
           recordAt h' (values r) !! k = recordAt h formValues !! k.
Proof.
  rewrite updateDerivedFields_unfold. cbv zeta.
  destruct (detectCircularDependencies_terminates (derivedFieldsOf schema)) as [c ->].
  simpl. destruct c as [e|].
  - eexists _, _. split; [done|]. simpl. split_and!; [done| |].
    + intros l Hl. by rewrite lookup_insert_ne.
    + intros k _. by rewrite recordAt_insert.
  - destruct (sortFieldsByDependencies_terminates (derivedFieldsOf schema))
      as (order & -> & Hsub). simpl.
    destruct (computeLoop_total (fresh (dom h)) order
                (<[fresh (dom h) := recordAt h formValues]> h) ∅) as (h' & errs' & Hrun).
    rewrite Hrun. simpl. eexists _, _. split; [done|]. simpl.
    destruct (computeLoop_frame _ _ _ _ _ _ Hrun) as [H1 H2].
    split_and!; [done| |].
    + intros l Hl. rewrite H1 by done. by rewrite lookup_insert_ne.
    + intros k Hk. destruct (H2 k) as [-> _]; [|by rewrite recordAt_insert].
      intros (g & -> & Hg)%list_elem_of_fmap. apply Hk, list_elem_of_fmap.
      exists g. split; [done|]. by apply Hsub.
Qed.

(** The pass over a schema without a cycle. *)
Lemma updateDerivedFields_acyclic (formValues : loc) (schema : FormSchema) (h : heap)
    (vals : gmap jsstring any) :
  h !! formValues = Some vals →
  NoDup (id <$> fields schema) →
  (∀ f, ¬ tc (dependsOn schema) f f) →
  ∃ order h' errs',
    detectCircularDependencies (derivedFieldsOf schema) = Normal None
    ∧ sortFieldsByDependencies (derivedFieldsOf schema) = Normal order
    ∧ order ≡ₚ derivedFieldsOf schema ∧ NoDup (id <$> order)
    ∧ parentsFirst (derivedFieldsOf schema) order
    ∧ computeLoop (spread formValues h).1 order (spread formValues h).2 ∅
      = Normal (h', errs')
    ∧ recordAt (spread formValues h).2 (spread formValues h).1 = vals
    ∧ updateDerivedFields evalJS formValues schema h
      = Normal ({| values := (spread formValues h).1; errors := errs' |}, h').
Proof.
  intros Hvals Hnd Hacyc.
  pose proof (derived_unique_ids schema Hnd) as Hnd'.
  assert (∀ c, ¬ tc (edge (derivedFieldsOf schema)) c c) as Hacyc'.
  { intros c Hc. destruct (proj2 (cyclic_iff schema Hnd)) as [f Hf]; [by eauto|].
    by apply (Hacyc f). }
  destruct (detectCircularDependencies_terminates (derivedFieldsOf schema)) as [c Hdet].
  destruct c as [e|].
  { destruct (detect_some_cyclic _ _ Hdet) as [_ [c Hc]]. by destruct (Hacyc' c). }
  destruct (sortFieldsByDependencies_terminates (derivedFieldsOf schema))
    as (order & Hsort & _).
  destruct (sortFieldsByDependencies_spec _ _ Hnd' Hacyc' Hsort) as (Hperm & Hndo & Hpf).
  destruct (computeLoop_total (spread formValues h).1 order (spread formValues h).2 ∅)
    as (h' & errs' & Hrun).
  exists order, h', errs'. split_and!; try done.
  - simpl. rewrite recordAt_insert. unfold recordAt. by rewrite Hvals.
  - rewrite updateDerivedFields_unfold. cbv zeta. rewrite Hdet. simpl.
    rewrite Hsort. simpl. simpl in Hrun. rewrite Hrun. done.
Qed.


(** C2. For a schema with unique field ids whose derived fields depend on
    one another in a cycle (a field that names itself is one),
    [updateDerivedFields] returns a record equal to the one it was given and
    the error of circular dependencies for every derived field of the
    schema. *)
Theorem cycle_reported_for_all (formValues : loc) (schema : FormSchema) (h : heap)
    (vals : gmap jsstring any) :
  h !! formValues = Some vals →
  NoDup (id <$> fields schema) →
  (∃ f, tc (dependsOn schema) f f) →
  ∃ r h',
    updateDerivedFields evalJS formValues schema h = Normal (r, h')
    ∧ recordAt h' (values r) = vals
    ∧ ∀ f, f ∈ fields schema → is_Some (derivedFrom f) →
           errors r !! id f = Some circularDependencyError
           ∧ type circularDependencyError = circular_dependency.
Proof.
  intros Hvals Hnd Hcyc. apply (cyclic_iff schema Hnd) in Hcyc as [c Hc].
  destruct (detectCircularDependencies_terminates (derivedFieldsOf schema)) as [r Hdet].
  destruct r as [e|].
  2:{ by destruct (detect_none_acyclic _ Hdet c). }
  destruct (detect_some_cyclic _ _ Hdet) as [-> _].
  rewrite updateDerivedFields_unfold. cbv zeta. rewrite Hdet. simpl.
  eexists _, _. split; [done|]. cbn [values errors]. split.
  - rewrite recordAt_insert. unfold recordAt. by rewrite Hvals.
  - intros f Hf Hd. split; [|done]. rewrite circular_errors, decide_True; [done|].
    apply list_elem_of_fmap. exists f. split; [done|].
    by apply elem_of_derivedFieldsOf.
Qed.


(** C4. [updateDerivedFields] returns, whatever the record and the schema.
    The record it returns is a new one; the record of the caller, like every
    record of the heap of the caller, is after the call what it was before.
    An entry of the record that is returned under an id that no field with a
    [derivedFrom] carries is the entry of the record that was given. *)
Theorem updateDerivedFields_frame (formValues : loc) (schema : FormSchema) (h : heap)
    (vals : gmap jsstring any) :
  h !! formValues = Some vals →
  ∃ r h',
    updateDerivedFields evalJS formValues schema h = Normal (r, h')
    ∧ (values r ∉ dom h)
    ∧ (∀ l, l ∈ dom h → h' !! l = h !! l)
    ∧ h' !! formValues = Some vals
    ∧ ∀ k, (∀ f, f ∈ fields schema → id f = k → derivedFrom f = None) →
           recordAt h' (values r) !! k = vals !! k.
Proof.
  intros Hvals.
  destruct (updateDerivedFields_total formValues schema h)
    as (r & h' & Hupd & Hfresh & Hframe & Hkeep).
  exists r, h'. rewrite Hfresh in *.
  assert (∀ l, l ∈ dom h → l ≠ fresh (dom h)) as Hne.
  { intros l Hl ->. by apply (is_fresh (dom h)). }
  split_and!; [done|apply is_fresh| | |].
  - intros l Hl. apply Hframe. by apply Hne.
  - rewrite Hframe; [done|]. apply Hne. by apply elem_of_dom.
  - intros k Hk. rewrite Hkeep.
    + unfold recordAt. by rewrite Hvals.
    + intros (f & -> & [Hd Hf]%elem_of_derivedFieldsOf)%list_elem_of_fmap.
      rewrite (Hk f Hf eq_refl) in Hd. by destruct Hd.
Qed.

End UpdateProperties.

(** A schema with unique ids on which [detectCircularDependencies] returns
    null has no cycle. *)
Lemma detect_none_schema_acyclic (schema : FormSchema) :
  NoDup (id <$> fields schema) →
  DerivedFieldCalculator.detectCircularDependencies (derivedFieldsOf schema) = Normal None →
  ∀ f, ¬ tc (dependsOn schema) f f.
Proof.
  intros Hnd Hdet f Hf. apply (detect_none_acyclic _ Hdet (id f)).
  by apply tc_dependsOn_edge.
Qed.

(** * The examples of the specification *)

Section Witnesses.
Import DerivedFieldCalculator Examples.

Lemma chain_unique_ids : NoDup (id <$> fields chain).
Proof. apply (bool_decide_unpack _). by vm_compute. Qed.

Lemma chain_acyclic : ∀ f, ¬ tc (dependsOn chain) f f.
Proof.
  apply detect_none_schema_acyclic; [apply chain_unique_ids|]. by vm_compute.
Qed.


Lemma cyclic_unique_ids : NoDup (id <$> fields cyclic).
Proof. apply (bool_decide_unpack _). by vm_compute. Qed.

Lemma cyclic_has_cycle : ∃ f, tc (dependsOn cyclic) f f.
Proof.
  exists (derivedField "x" ["y"] "1+1").
  apply tc_l with (derivedField "y" ["x"] "1+1"); [|apply tc_once].
  - split_and!; [by left|by right; left|by eexists|].
    eexists. split; [done|]. by left.
  - split_and!; [by right; left|by left|by eexists|].
    eexists. split; [done|]. by left.
Qed.

(** X and Y depend on each other and Z on nothing: the three get the error,
    and the record is returned as it was given. *)
Lemma cycle_reported_for_all_witness :
  let vals : gmap jsstring any := {[ js "x" := VNum 2%float ]} in
  heapOf vals !! 1%positive = Some vals
  ∧ NoDup (id <$> fields cyclic)
  ∧ (∃ f, tc (dependsOn cyclic) f f)
  ∧ ∃ r h',
      updateDerivedFields sampleEval 1%positive cyclic (heapOf vals) = Normal (r, h')
      ∧ recordAt h' (values r) = vals
      ∧ errors r !! js "x" = Some circularDependencyError
      ∧ errors r !! js "y" = Some circularDependencyError
      ∧ errors r !! js "z" = Some circularDependencyError.
Proof.
  intros vals. split_and!; [done|apply cyclic_unique_ids|apply cyclic_has_cycle|].
  destruct (cycle_reported_for_all sampleEval 1%positive cyclic (heapOf vals) vals
              eq_refl cyclic_unique_ids cyclic_has_cycle)
    as (r & h' & Hupd & Hvals & Herrs).
  exists r, h'. split_and!; [done..| | |].
  - destruct (Herrs (derivedField "x" ["y"] "1+1")) as [H _];
      [by left|by eexists|exact H].
  - destruct (Herrs (derivedField "y" ["x"] "1+1")) as [H _];
      [by right; left|by eexists|exact H].
  - destruct (Herrs (derivedField "z" [] "1+1")) as [H _];
      [by do 2 right; left|by eexists|exact H].
Defined.




(** The pass over the chain leaves the record of the caller as it was. *)
Lemma updateDerivedFields_frame_witness :
  let vals : gmap jsstring any := {[ js "a" := VNum 2%float ]} in
  heapOf vals !! 1%positive = Some vals
  ∧ ∃ r h',
      updateDerivedFields sampleEval 1%positive chain (heapOf vals) = Normal (r, h')
      ∧ values r ≠ 1%positive
      ∧ h' !! 1%positive = Some vals
      ∧ recordAt h' (values r) !! js "a" = Some (VNum 2%float).
Proof.
  intros vals. split; [done|].
  destruct (updateDerivedFields_frame sampleEval 1%positive chain (heapOf vals) vals
              eq_refl) as (r & h' & Hupd & Hfresh & Hframe & Hsame & Hkeep).
  exists r, h'. split_and!; [done| |done|].
  - intros Heq. apply Hfresh. rewrite Heq. by apply elem_of_dom.
  - etrans; [apply Hkeep|done]. intros f Hf Hid.
    repeat (apply elem_of_cons in Hf as [->|Hf]; [done || by vm_compute in Hid|]).
    inversion Hf.
Defined.

End Witnesses.

(** * Further properties of the sandbox *)

Lemma stripPrefix_Some (w s rest : jsstring) :
  stripPrefix w s = Some rest → s = w ++ rest.
Proof.
  revert s. induction w as [|a w IH]; intros s H; simpl in H; [by simplify_eq|].
  destruct s as [|b s]; [done|]. destruct (a =? b)%N eqn:Hab; [|done].
  apply N.eqb_eq in Hab as ->. simpl. f_equal. by apply IH.
Qed.

Lemma dropWhile_suffix {A} (p : A → bool) (l : list A) :
  ∃ pre, l = pre ++ dropWhile p l.
Proof.
  induction l as [|x l [pre IH]]; simpl; [by exists []|].
  destruct (p x); [|by exists []]. exists (x :: pre). simpl. by f_equal.
Qed.

(** Where a search finds a match. *)
Lemma searchFrom_inv (p : pattern) (s : jsstring) (before : option N) :
  searchFrom p before s = true →
  ∃ pre t, s = pre ++ t ∧ matchesAt p (from_option Some before (last pre)) t = true.
Proof.
  revert before. induction s as [|c s IH]; intros before H; simpl in H.
  - exists [], []. split; [done|]. simpl. by destruct (matchesAt p before []).
  - destruct (matchesAt p before (c :: s)) eqn:Hm.
    + by exists [], (c :: s).
    + simpl in H. destruct (IH _ H) as (pre & t & -> & Ht).
      exists (c :: pre), t. split; [done|]. rewrite last_cons.
      by destruct (last pre).
Qed.

Lemma matchesAt_word_inv (w s : jsstring) (before : option N) :
  isWordCharAt (head w) = true → isWordCharAt (last w) = true →
  matchesAt (Word w) before s = true →
  ∃ post, s = w ++ post ∧ isWordCharAt before = false
          ∧ isWordCharAt (head post) = false.
Proof.
  intros Hh Hl Hm. simpl in Hm. apply andb_true_iff in Hm as [Hb Hm].
  destruct (stripPrefix w s) as [rest|] eqn:Hs; [|done].
  apply stripPrefix_Some in Hs as ->. exists rest.
  rewrite head_app_cons in Hb by (by destruct w). unfold wordBoundary in *.
  rewrite Hh in Hb. rewrite Hl in Hm.
  split_and!; [done| |].
  - by destruct (isWordCharAt before).
  - by destruct (isWordCharAt (head rest)).
Qed.

(** X1. The pattern of a word of the deny-list matches an expression exactly
    when the expression has the word as a token: an occurrence with no word
    character right before or right after it. An identifier that merely has
    the word inside it does not match. *)
Theorem word_pattern_matches_tokens (w s : jsstring) :
  w ∈ deniedWords → (test (Word w) s = true ↔ containsToken w s).
Proof.
  intros Hw. split; [|by apply token_tested].
  pose proof deniedWords_shape as Hshape.
  rewrite Forall_forall in Hshape. destruct (Hshape w Hw) as [Hh Hl].
  intros (pre & t & -> & Hm)%searchFrom_inv.
  destruct (matchesAt_word_inv _ _ _ Hh Hl Hm) as (post & -> & Hb & Hp).
  exists pre, post. split_and!; [done| |done]. by destruct (last pre).
Qed.

(** The word [process] is on the list; [processing] does not have it as a
    token and [process.exit()] has. *)
Lemma word_pattern_matches_tokens_witness :
  js "process" ∈ deniedWords
  ∧ ¬ containsToken (js "process") (js "processing")
  ∧ containsToken (js "process") (js "process.exit()").
Proof.
  assert (js "process" ∈ deniedWords) as Hw
    by (by vm_compute; repeat (first [left | right])).
  split_and!; [done| |].
  - intros Htok.
    apply (word_pattern_matches_tokens (js "process") (js "processing") Hw) in Htok.
    by vm_compute in Htok.
  - apply (word_pattern_matches_tokens (js "process") (js "process.exit()") Hw).
    by vm_compute.
Defined.

Lemma matchesAt_bracket_inv (t : jsstring) (before : option N) :
  matchesAt BracketQuote before t = true →
  ∃ rest c tl, t = 91%N :: rest ∧ dropWhile isWhiteSpace rest = c :: tl
               ∧ c ∈ [39; 34; 96]%N.
Proof.
  intros Hm. destruct t as [|[|p] rest]; try done.
  do 7 (destruct p as [p|p|]; try done). simpl in Hm.
  destruct (dropWhile isWhiteSpace rest) as [|c tl] eqn:Hd; [done|].
  exists rest, c, tl. split_and!; [done..|].
  apply orb_true_iff in Hm as [Hm|Hm]; [apply orb_true_iff in Hm as [Hm|Hm]|];
    apply N.eqb_eq in Hm as ->; set_solver.
Qed.

Lemma matchesAt_member_inv (w t : jsstring) (before : option N) :
  matchesAt (Member w) before t = true →
  ∃ rest post, t = 46%N :: rest ∧ dropWhile isWhiteSpace rest = w ++ post.
Proof.
  intros Hm. destruct t as [|[|p] rest]; try done.
  do 6 (destruct p as [p|p|]; try done). simpl in Hm.
  apply bool_decide_eq_true in Hm as [post Hs]. apply stripPrefix_Some in Hs.
  by exists rest, post.
Qed.

(** A match has a trigger of its pattern in it. *)
Lemma test_trigger (p : pattern) (s : jsstring) :
  trigger p ≠ [] → test p s = true → ∃ c, c ∈ trigger p ∧ c ∈ s.
Proof.
  intros Hne (pre & t & -> & Hm)%searchFrom_inv.
  assert (∃ c, c ∈ trigger p ∧ c ∈ t) as (c & Hc & Ht);
    [|exists c; split; [done|]; apply elem_of_app; by right].
  destruct p as [w| |w].
  - simpl in Hm. apply andb_true_iff in Hm as [_ Hm].
    destruct (stripPrefix w t) as [rest|] eqn:Hs; [|done].
    apply stripPrefix_Some in Hs as ->. destruct w as [|c w]; [done|].
    exists c. split; [by left|by left].
  - destruct (matchesAt_bracket_inv _ _ Hm) as (rest & c & tl & -> & Hd & Hc).
    exists c. split; [done|]. right.
    destruct (dropWhile_suffix isWhiteSpace rest) as [pre' Hrest].
    rewrite Hrest, Hd. apply elem_of_app. right. by left.
  - destruct (matchesAt_member_inv _ _ _ Hm) as (rest & post & -> & Hd).
    destruct w as [|c w]; [done|]. exists c. split; [by left|]. right.
    destruct (dropWhile_suffix isWhiteSpace rest) as [pre' Hrest].
    rewrite Hrest, Hd. apply elem_of_app. right. by left.
Qed.

Lemma dangerousPatterns_triggers :
  Forall (λ p, trigger p ≠ [] ∧ Forall (λ c, isLetterOrQuote c = true) (trigger p))
         dangerousPatterns.
Proof.
  repeat (constructor; [split; [done|by repeat constructor]|]). constructor.
Qed.

(** An expression without letters, underscores and quotes matches no pattern
    of the deny-list. *)
Lemma no_letters_no_match (s : jsstring) (p : pattern) :
  Forall (λ c, isLetterOrQuote c = false) s → p ∈ dangerousPatterns →
  test p s = false.
Proof.
  intros Hs Hp. destruct (test p s) eqn:Ht; [|done]. exfalso.
  pose proof dangerousPatterns_triggers as Htr. rewrite Forall_forall in Htr.
  destruct (Htr p Hp) as [Hne Hall].
  destruct (test_trigger p s Hne Ht) as (c & Hc & Hcs).
  rewrite Forall_forall in Hall, Hs. specialize (Hall c Hc). specialize (Hs c Hcs).
  congruence.
Qed.

Lemma find_dangerous_None (s : jsstring) :
  List.find (λ p, test p s) dangerousPatterns = None
  ↔ ∀ p, p ∈ dangerousPatterns → test p s = false.
Proof.
  split.
  - intros Hf p Hp. apply list_elem_of_In in Hp. exact (find_none _ _ Hf p Hp).
  - intros Hall. destruct (List.find _ _) as [p|] eqn:Hf; [|done].
    apply find_some in Hf as [Hp Ht]. apply list_elem_of_In in Hp.
    rewrite (Hall p Hp) in Ht. done.
Qed.

(** X2. [validateExpression] returns exactly for the expressions that match
    no pattern of the deny-list, have at most 500 code units and balanced
    parentheses; for every other expression it throws. *)
Theorem validateExpression_accepts (s : jsstring) :
  (DerivedFieldCalculator.validateExpression s = Normal tt
   ↔ (∀ p, p ∈ dangerousPatterns → test p s = false)
     ∧ length s ≤ 500 ∧ balanced s = true)
  ∧ (DerivedFieldCalculator.validateExpression s = Normal tt
     ∨ ∃ e, DerivedFieldCalculator.validateExpression s = Throw e).
Proof.
  rewrite validateExpression_cases.
  destruct (List.find _ _) as [p|] eqn:Hf.
  - split; [|by right; eauto]. split; [done|]. intros (Hall & _).
    apply (proj2 (find_dangerous_None s)) in Hall. congruence.
  - pose proof (proj1 (find_dangerous_None s) Hf) as Hall.
    destruct (500 <? length s) eqn:Hlen.
    + apply Nat.ltb_lt in Hlen. split; [|by right; eauto].
      split; [done|]. intros (_ & ? & _). lia.
    + apply Nat.ltb_ge in Hlen. destruct (balanced s) eqn:Hb.
      * split; [|by left]. split; [|done]. intros _. split_and!; [done|lia|done].
      * split; [|by right; eauto]. split; [done|]. by intros (_ & _ & ?).
Qed.

(** X3. An expression that has no letter, no underscore and no quote (so
    digits, operators, dots, blanks and parentheses only), at most 500 code
    units and balanced parentheses passes [validateExpression]: plain
    arithmetic is never refused. *)
Theorem arithmetic_is_accepted (s : jsstring) :
  Forall (λ c, isLetterOrQuote c = false) s →
  length s ≤ 500 → balanced s = true →
  DerivedFieldCalculator.validateExpression s = Normal tt.
Proof.
  intros Hs Hlen Hb. rewrite validateExpression_cases.
  assert (List.find (λ p, test p s) dangerousPatterns = None) as ->.
  { apply find_dangerous_None. intros p Hp. by apply no_letters_no_match. }
  replace (500 <? length s) with false by (symmetry; apply Nat.ltb_ge; lia).
  by rewrite Hb.
Qed.

Lemma arithmetic_is_accepted_witness :
  DerivedFieldCalculator.validateExpression (js "(1 + 2.5) * 3 - 4 / (5 % 2)") = Normal tt.
Proof.
  apply arithmetic_is_accepted; [|apply Nat.leb_le; by vm_compute|by vm_compute].
  repeat (constructor; [by vm_compute|]). constructor.
Defined.

(** X4. [validateResult] gives back the value it was given, unchanged, when
    the value is null, undefined, a string, a number, a boolean, a date or an
    array none of whose items is an object; on every other value (an object,
    a function, an array with an object, an array or a date among its items)
    it throws. What it lets through once it lets through again. *)
Theorem validateResult_identity_or_throw (v : any) :
  (disallowedShape v = false → DerivedFieldCalculator.validateResult v = Normal v)
  ∧ (disallowedShape v = true → ∃ m, DerivedFieldCalculator.validateResult v = throwError m)
  ∧ (∀ v', DerivedFieldCalculator.validateResult v = Normal v' →
           v' = v ∧ DerivedFieldCalculator.validateResult v' = Normal v').
Proof.
  pose proof (validateResult_cases v) as H.
  destruct (disallowedShape v) eqn:Hd.
  - split_and!; [done|by intros _| ]. intros v' Hv'. destruct H as [m Hm].
    unfold throwError in Hm. congruence.
  - split_and!; [done|done|]. intros v' Hv'. rewrite H in Hv'. by simplify_eq.
Qed.

Lemma context_fold_lookup (ps : list jsstring) (vals m : gmap jsstring any) (k : jsstring) :
  fold_left (λ context fieldId, <[fieldId := getProp vals fieldId]> context) ps m !! k
  = if decide (k ∈ ps) then Some (getProp vals k) else m !! k.
Proof.
  revert m. induction ps as [|p ps IH]; intros m; cbn [fold_left].
  - case_decide as Hin; [by inversion Hin|done].
  - rewrite IH. repeat case_decide; try done.
    + exfalso. set_solver.
    + destruct (decide (k = p)) as [->|Hne]; [by rewrite lookup_insert_eq|].
      exfalso. set_solver.
    + rewrite lookup_insert_ne; [done|]. set_solver.
Qed.

Lemma createSafeContext_lookup (ps : list jsstring) (vals : gmap jsstring any)
    (k : jsstring) :
  DerivedFieldCalculator.createSafeContext ps vals !! k
  = if decide (k = js "Number") then Some DerivedFieldCalculator.NumberNamespace
    else if decide (k = js "String") then Some DerivedFieldCalculator.StringNamespace
    else if decide (k = js "Math") then Some DerivedFieldCalculator.MathNamespace
    else if decide (k ∈ ps) then Some (getProp vals k) else None.
Proof.
  unfold DerivedFieldCalculator.createSafeContext.
  destruct (decide (k = js "Number")) as [->|H1]; [by rewrite lookup_insert_eq|].
  rewrite lookup_insert_ne by done.
  destruct (decide (k = js "String")) as [->|H2]; [by rewrite lookup_insert_eq|].
  rewrite lookup_insert_ne by done.
  destruct (decide (k = js "Math")) as [->|H3]; [by rewrite lookup_insert_eq|].
  rewrite lookup_insert_ne by done.
  rewrite context_fold_lookup. by case_decide.
Qed.

(** X5. The context that [createSafeContext] builds binds the parents and
    the three namespaces and nothing else: no other entry of the values comes
    into the scope of the expression. A parent is bound to its entry
    (undefined when it has none), unless it is called Math, String or Number:
    these three names are bound to the namespaces, whatever the parents. *)
Theorem createSafeContext_bindings (ps : list jsstring) (vals : gmap jsstring any) :
  let context := DerivedFieldCalculator.createSafeContext ps vals in
  (∀ k, is_Some (context !! k) ↔ k ∈ ps ∨ k ∈ namespaceNames)
  ∧ (∀ p, p ∈ ps → p ∉ namespaceNames → context !! p = Some (getProp vals p))
  ∧ context !! js "Math" = Some DerivedFieldCalculator.MathNamespace
  ∧ context !! js "String" = Some DerivedFieldCalculator.StringNamespace
  ∧ context !! js "Number" = Some DerivedFieldCalculator.NumberNamespace.
Proof.
  intros context. subst context. split_and!.
  - intros k. rewrite createSafeContext_lookup. unfold namespaceNames.
    rewrite !elem_of_cons, elem_of_nil.
    repeat case_decide; subst; split; try (by eauto); try tauto;
      intros [x Hx]; done.
  - intros p Hp Hn. rewrite createSafeContext_lookup. unfold namespaceNames in Hn.
    rewrite !elem_of_cons, elem_of_nil in Hn.
    repeat case_decide; subst; try done; exfalso; tauto.
  - by rewrite createSafeContext_lookup.
  - by rewrite createSafeContext_lookup.
  - by rewrite createSafeContext_lookup.
Qed.

(** X6. The functions that [getAvailableFunctions] lists are the ones that
    the context has: each namespace it names is bound, in every context, to
    an object whose properties are the listed names, in the listed order, and
    it names the three namespaces of the context and no other. *)
Theorem getAvailableFunctions_bound (ps : list jsstring) (vals : gmap jsstring any) :
  Forall (λ entry,
            ∃ props, DerivedFieldCalculator.createSafeContext ps vals !! entry.1
                     = Some (VObject props)
                     ∧ props.*1 = entry.2
                     ∧ Forall (λ prop, typeof prop.2 = TFunction) props)
         DerivedFieldCalculator.getAvailableFunctions
  ∧ DerivedFieldCalculator.getAvailableFunctions.*1 = namespaceNames.
Proof.
  split; [|done].
  repeat (constructor;
    [eexists; rewrite createSafeContext_lookup; simpl;
     split_and!; [reflexivity|reflexivity|by repeat constructor]|]).
  constructor.
Qed.

Lemma fold_context_ext (ps : list jsstring) (vals vals' m : gmap jsstring any) :
  (∀ p, p ∈ ps → vals !! p = vals' !! p) →
  fold_left (λ context fieldId, <[fieldId := getProp vals fieldId]> context) ps m
  = fold_left (λ context fieldId, <[fieldId := getProp vals' fieldId]> context) ps m.
Proof.
  revert m. induction ps as [|p ps IH]; intros m Hagree; cbn [fold_left]; [done|].
  unfold getProp at 2 4. rewrite (Hagree p) by (by left).
  apply IH. intros q Hq. apply Hagree. by right.
Qed.

Lemma filter_missing_ext (ps : list jsstring) (vals vals' : gmap jsstring any) :
  (∀ p, p ∈ ps → vals !! p = vals' !! p) →
  List.filter (λ parentId, negb (hasProp parentId vals)) ps
  = List.filter (λ parentId, negb (hasProp parentId vals')) ps.
Proof.
  induction ps as [|p ps IH]; intros Hagree; [done|]. simpl.
  assert (hasProp p vals = hasProp p vals') as ->.
  { unfold hasProp. rewrite (Hagree p); [done|by left]. }
  rewrite IH; [done|]. intros q Hq. apply Hagree. by right.
Qed.

Section ComputeValueProperties.
Import DerivedFieldCalculator.

Variable evalJS : jsstring → gmap jsstring any → any + Error.

(** The result of [computeValue] depends on the entries of the parents only. *)
Lemma computeValue_ext (config : DerivedFieldConfig) (vals vals' : gmap jsstring any) :
  (∀ p, p ∈ parentFields config → vals !! p = vals' !! p) →
  computeValue evalJS config vals = computeValue evalJS config vals'.
Proof.
  intros Hagree. unfold computeValue.
  rewrite (filter_missing_ext _ vals vals' Hagree).
  unfold createSafeContext. by rewrite (fold_context_ext _ vals vals' ∅ Hagree).
Qed.

(** X7. [computeValue] reads the entries of the parents and no other: on two
    records that agree on every parent of the configuration it returns the
    same result, value and error alike. The evaluator is taken to be a
    function of the expression and of the context it is given. *)
Theorem computeValue_reads_parents_only (config : DerivedFieldConfig)
    (vals vals' : gmap jsstring any) :
  (∀ p, p ∈ parentFields config → vals !! p = vals' !! p) →
  computeValue evalJS config vals = computeValue evalJS config vals'.
Proof. apply computeValue_ext. Qed.

Lemma safeEvaluate_Normal (expression : jsstring) (context : gmap jsstring any) (v : any) :
  safeEvaluate evalJS expression context = Normal v →
  validateExpression expression = Normal tt
  ∧ evalJS expression context = inl v ∧ disallowedShape v = false.
Proof.
  unfold safeEvaluate. intros H.
  destruct (validateExpression expression) as [[]| |]; simpl in H; [|done..].
  unfold callFunction in H. destruct (evalJS expression context) as [r|e]; simpl in H;
    [|done].
  pose proof (validateResult_cases r) as Hr.
  destruct (disallowedShape r) eqn:Hd.
  - destruct Hr as [m Hm]. rewrite Hm in H. done.
  - rewrite Hr in H. simpl in H. by simplify_eq.
Qed.


Lemma validateExpression_outcome (expression : jsstring) :
  validateExpression expression = Normal tt
  ∨ ∃ e, validateExpression expression = Throw e.
Proof using Type.
  rewrite validateExpression_cases.
  destruct (List.find _ _); [by right; eauto|].
  destruct (500 <? _); [by right; eauto|].
  destruct (balanced _); [by left|by right; eauto].
Qed.

Section SyntaxProperties.

Variable parseFunction : jsstring → option Error.

(** X9. [validateExpressionSyntax] returns and never throws. It says that the
    expression is valid exactly when [validateExpression] lets the expression
    through and the parser accepts it as the body of a function; it then gives
    no error, and otherwise it gives the message of what was thrown. *)
Theorem validateExpressionSyntax_result (expression : jsstring) :
  ∃ r, validateExpressionSyntax parseFunction expression = Normal r
    ∧ (syntax_isValid r = true
       ↔ validateExpression expression = Normal tt
         ∧ parseFunction (js "return (" ++ expression ++ js ")") = None)
    ∧ (syntax_isValid r = true → syntax_error r = None)
    ∧ (syntax_isValid r = false → is_Some (syntax_error r)).
Proof.
  unfold validateExpressionSyntax.
  destruct (validateExpression_outcome expression) as [->|[e ->]]; simpl.
  - destruct (parseFunction _) as [e|]; simpl; eexists; (split; [done|]); simpl.
    + split_and!; [|done|by eauto]. split; [done|]. by intros [_ ?].
    + by split_and!.
  - eexists; (split; [done|]); simpl. split_and!; [|done|by eauto].
    split; [done|]. by intros [? _].
Qed.

End SyntaxProperties.
End ComputeValueProperties.

Lemma computeValue_reads_parents_only_witness :
  DerivedFieldCalculator.computeValue Examples.sampleEval
    {| parentFields := [js "a"]; computationLogic := js "a*2" |}
    {[ js "a" := VNum 2%float; js "z" := VStr (js "one") ]}
  = DerivedFieldCalculator.computeValue Examples.sampleEval
    {| parentFields := [js "a"]; computationLogic := js "a*2" |}
    {[ js "a" := VNum 2%float; js "z" := VStr (js "two") ]}.
Proof.
  apply computeValue_reads_parents_only. intros p Hp.
  apply list_elem_of_singleton in Hp as ->. by vm_compute.
Defined.

Section DetectionProperties.
Import DerivedFieldCalculator.

(** X10. [detectCircularDependencies] returns for every list of fields,
    fields with the same id among them. It returns the error of circular
    dependencies exactly when the graph it walks has a cycle, and null
    exactly when it has none, where the graph goes from an id to the parents
    of the first field of that id, and keeps the parents that are the id of
    a field with a configuration. *)
Theorem detectCircularDependencies_decides (derivedFields : list FormField) :
  (detectCircularDependencies derivedFields = Normal None
   ↔ ∀ c, ¬ tc (edge derivedFields) c c)
  ∧ (detectCircularDependencies derivedFields = Normal (Some circularDependencyError)
     ↔ ∃ c, tc (edge derivedFields) c c).
Proof.
  destruct (detectCircularDependencies_terminates derivedFields) as [r Hr].
  destruct r as [e|].
  - destruct (detect_some_cyclic _ _ Hr) as [-> [c Hc]]. split.
    + split; [by rewrite Hr|]. intros Hacyc. by destruct (Hacyc c).
    + split; [by eauto|done].
  - pose proof (detect_none_acyclic _ Hr) as Hacyc. split.
    + done.
    + split; [by rewrite Hr|]. intros [c Hc]. by destruct (Hacyc c).
Qed.

End DetectionProperties.

(** * Further properties of [updateDerivedFields] *)

Section PassProperties.
Import DerivedFieldCalculator.

Variable evalJS : jsstring → gmap jsstring any → any + Error.

#[local] Abbreviation computeLoop := (computeLoop evalJS).

(** The kinds of result of [computeValue]. *)
Lemma computeValue_kinds (config : DerivedFieldConfig) (vals : gmap jsstring any) :
  ∃ r, computeValue evalJS config vals = Normal r
    ∧ match error r with
      | Some e => type e ≠ circular_dependency ∧ fieldId e = None
                  ∧ (type e = missing_parent ↔ ¬ parentsPresent config vals)
      | None => parentsPresent config vals ∧ disallowedShape (value r) = false
      end.
Proof.
  destruct (missingParents config vals) as [|p ps] eqn:Hm.
  - assert (parentsPresent config vals) as Hp by by apply missingParents_nil.
    destruct (computationLogic config) as [|c s] eqn:He.
    + rewrite computeValue_empty by done. eexists. split; [done|]. simpl.
      split_and!; [done..|]. split; [done|]. by intros [].
    + rewrite computeValue_eval by (done || by rewrite He). rewrite He.
      pose proof (safeEvaluate_not_budget evalJS (c :: s)
                    (createSafeContext (parentFields config) vals)) as Hb.
      destruct (safeEvaluate evalJS (c :: s) _) as [v|e|] eqn:Hs; [| |done].
      * eexists. split; [done|]. simpl.
        by destruct (safeEvaluate_Normal _ _ _ _ Hs) as (? & ? & ?).
      * eexists. split; [done|]. simpl. split_and!; [done..|].
        split; [done|]. by intros [].
  - rewrite computeValue_missing by (by rewrite Hm). eexists. split; [done|]. simpl.
    split_and!; [done..|]. split; [|done]. intros _ Hp.
    apply missingParents_nil in Hp. congruence.
Qed.

(** The loop adds keys and removes none. *)
Lemma computeLoop_dom (uv : loc) (todo : list FormField) (h h' : heap)
    (errs errs' : gmap jsstring DerivedFieldError) :
  computeLoop uv todo h errs = Normal (h', errs') →
  dom (recordAt h uv) ⊆ dom (recordAt h' uv) ∧ dom errs ⊆ dom errs'.
Proof.
  revert h errs. induction todo as [|f rest IH]; intros h errs Hrun; simpl in Hrun.
  - by simplify_eq.
  - destruct (derivedFrom f) as [config|]; [|by apply IH].
    destruct (computeValue evalJS config (recordAt h uv)) as [r| |]; simpl in Hrun;
      [|done..].
    destruct (error r) as [e|]; destruct (IH _ _ Hrun) as [H1 H2]; split; try done.
    + etrans; [|exact H2]. rewrite dom_insert. set_solver.
    + etrans; [|exact H1]. rewrite recordAt_setProp, dom_insert. set_solver.
Qed.


(** The record of the loop stays in the heap. *)
Lemma computeLoop_allocated (uv : loc) (todo : list FormField) (h h' : heap)
    (errs errs' : gmap jsstring DerivedFieldError) :
  computeLoop uv todo h errs = Normal (h', errs') →
  is_Some (h !! uv) → is_Some (h' !! uv).
Proof.
  revert h errs. induction todo as [|f rest IH]; intros h errs Hrun Hin; simpl in Hrun.
  - by simplify_eq.
  - destruct (derivedFrom f) as [config|]; [|by eapply IH].
    destruct (computeValue evalJS config (recordAt h uv)) as [r| |]; simpl in Hrun;
      [|done..].
    destruct (error r) as [e|]; [by eapply IH|].
    eapply IH; [done|]. unfold setProp. by rewrite lookup_insert_eq.
Qed.

(** Where an error of the loop comes from. *)
Lemma computeLoop_errors (uv : loc) (todo : list FormField) (h h' : heap)
    (errs errs' : gmap jsstring DerivedFieldError) (k : jsstring) (e : DerivedFieldError) :
  computeLoop uv todo h errs = Normal (h', errs') →
  errs' !! k = Some e →
  errs !! k = Some e
  ∨ ∃ f config W r e0,
      f ∈ todo ∧ id f = k ∧ derivedFrom f = Some config
      ∧ dom (recordAt h uv) ⊆ dom W
      ∧ computeValue evalJS config W = Normal r ∧ error r = Some e0
      ∧ e = withFieldId e0 k.
Proof.
  revert h errs. induction todo as [|f rest IH]; intros h errs Hrun He; simpl in Hrun.
  - simplify_eq. by left.
  - assert (∀ h1 e1, computeLoop uv rest h1 e1 = Normal (h', errs') →
                     dom (recordAt h uv) ⊆ dom (recordAt h1 uv) →
              e1 !! k = Some e
              ∨ ∃ f0 config W r e0,
                  f0 ∈ f :: rest ∧ id f0 = k ∧ derivedFrom f0 = Some config
                  ∧ dom (recordAt h uv) ⊆ dom W
                  ∧ computeValue evalJS config W = Normal r ∧ error r = Some e0
                  ∧ e = withFieldId e0 k) as Hrest.
    { intros h1 e1 Hrun1 Hdom.
      destruct (IH _ _ Hrun1 He)
        as [?|(f0 & c & W & r & e0 & ? & ? & ? & HW & ? & ? & ?)]; [by left|right].
      exists f0, c, W, r, e0. split_and!; [by right|done|done| |done|done|done].
      by etrans. }
    destruct (derivedFrom f) as [config|] eqn:Hc; [|by apply (Hrest h errs)].
    destruct (computeValue evalJS config (recordAt h uv)) as [r| |] eqn:Hr;
      simpl in Hrun; [|done..].
    destruct (error r) as [e0|] eqn:Herr.
    + destruct (Hrest _ _ Hrun) as [Hk|?]; [done| |by right].
      destruct (decide (k = id f)) as [->|Hne].
      * rewrite lookup_insert_eq in Hk. simplify_eq. right.
        exists f, config, (recordAt h uv), r, e0. split_and!; try done. by left.
      * rewrite lookup_insert_ne in Hk by done. by left.
    + apply (Hrest _ _ Hrun). rewrite recordAt_setProp, dom_insert. set_solver.
Qed.

(** In a list that has the parents first, no parent of a field is the id of
    that field or of a field that comes after it. *)
Lemma parent_not_later (dfs before : list FormField) (f : FormField)
    (rest : list FormField) (config : DerivedFieldConfig) (p : jsstring) :
  NoDup (id <$> dfs) →
  (∀ g, g ∈ before ++ f :: rest → g ∈ dfs ∧ is_Some (derivedFrom g)) →
  NoDup (id <$> before ++ f :: rest) →
  parentsFirst dfs (before ++ f :: rest) →
  derivedFrom f = Some config → p ∈ parentFields config →
  p ∉ id <$> f :: rest.
Proof.
  intros Hnd Hsub Hndo Hpf Hc Hp (g & -> & Hg)%list_elem_of_fmap.
  assert (f ∈ before ++ f :: rest) as Hf by (apply elem_of_app; right; by left).
  assert (g ∈ before ++ f :: rest) as Hg' by (apply elem_of_app; by right).
  destruct (Hsub _ Hf) as [Hfd _]. destruct (Hsub _ Hg') as [Hgd Hgs].
  assert (edge dfs (id f) (id g)) as Hedge.
  { exists f, config, g. split_and!; try done; by apply findField_unique. }
  destruct (Hpf (length before) f (id g)) as (j & g' & Hj & Hg'j & Hid);
    [by apply list_lookup_middle|done|].
  apply list_elem_of_lookup in Hg as [i Hi].
  assert ((id <$> before ++ f :: rest) !! j = Some (id g)) as H1.
  { by rewrite list_lookup_fmap, Hg'j; simpl; rewrite Hid. }
  assert ((id <$> before ++ f :: rest) !! (length before + i) = Some (id g)) as H2.
  { by rewrite list_lookup_fmap, lookup_app_r, Nat.add_comm, Nat.add_sub, Hi by lia. }
  pose proof (NoDup_lookup _ _ _ _ Hndo H1 H2). lia.
Qed.

(** A second run of the loop, on a copy of the record that the first run
    left, writes what is there and reports the same errors. *)
Lemma computeLoop_rerun (uv uv2 : loc) (rest : list FormField) (h1 h' hh : heap)
    (eb e1 : gmap jsstring DerivedFieldError) :
  NoDup (id <$> rest) →
  (∀ l1 f l2 config p, rest = l1 ++ f :: l2 → derivedFrom f = Some config →
     p ∈ parentFields config → p ∉ id <$> f :: l2) →
  computeLoop uv rest h1 eb = Normal (h', e1) →
  hh !! uv2 = Some (recordAt h' uv) →
  computeLoop uv2 rest hh eb = Normal (hh, e1).
Proof.
  intros Hnd Hfwd Hrun Hcopy. revert h1 eb Hnd Hfwd Hrun.
  induction rest as [|f rest IH]; intros h1 eb Hnd Hfwd Hrun.
  - simpl in *. by simplify_eq.
  - rewrite fmap_cons in Hnd. apply NoDup_cons in Hnd as [Hf Hnd].
    assert (∀ l1 g l2 config p, rest = l1 ++ g :: l2 → derivedFrom g = Some config →
              p ∈ parentFields config → p ∉ id <$> g :: l2) as Hfwd'.
    { intros l1 g l2 c p -> Hc Hp. by apply (Hfwd (f :: l1) g l2 c p). }
    destruct (computeLoop_frame _ _ _ _ _ _ _ Hrun) as [_ Hframe].
    simpl in Hrun |- *.
    destruct (derivedFrom f) as [config|] eqn:Hc; [|by eapply IH].
    assert (recordAt hh uv2 = recordAt h' uv) as Hrec.
    { unfold recordAt at 1. by rewrite Hcopy. }
    rewrite Hrec.
    rewrite (computeValue_ext evalJS config (recordAt h' uv) (recordAt h1 uv)).
    2:{ intros p Hp. apply Hframe. by apply (Hfwd [] f rest config p). }
    destruct (computeValue evalJS config (recordAt h1 uv)) as [r| |]; simpl in Hrun |- *;
      [|done..].
    destruct (error r) as [e|]; [by eapply IH|].
    destruct (computeLoop_frame _ _ _ _ _ _ _ Hrun) as [_ Hframe2].
    destruct (Hframe2 _ Hf) as [Hv _].
    rewrite recordAt_setProp, lookup_insert_eq in Hv.
    assert (setProp uv2 (id f) (value r) hh = hh) as ->.
    { unfold setProp. rewrite Hrec, (insert_id _ _ _ Hv). by apply insert_id. }
    by eapply IH.
Qed.

(** The keys of the record and of the errors that a pass returns. *)
Lemma updateDerivedFields_domain (formValues : loc) (schema : FormSchema) (h : heap)
    (vals : gmap jsstring any) :
  h !! formValues = Some vals →
  ∃ r h', updateDerivedFields evalJS formValues schema h = Normal (r, h')
    ∧ dom vals ⊆ dom (recordAt h' (values r))
    ∧ dom (recordAt h' (values r))
      ⊆ dom vals ∪ list_to_set (id <$> derivedFieldsOf schema)
    ∧ dom (errors r) ⊆ list_to_set (id <$> derivedFieldsOf schema).
Proof.
  intros Hvals. rewrite updateDerivedFields_unfold. cbv zeta.
  assert (recordAt h formValues = vals) as -> by (unfold recordAt; by rewrite Hvals).
  destruct (detectCircularDependencies_terminates (derivedFieldsOf schema)) as [c ->].
  simpl. destruct c as [e|].
  - eexists _, _. split; [done|]. simpl. rewrite recordAt_insert.
    split_and!; [done|set_solver|].
    intros k [e' Hk]%elem_of_dom. rewrite circular_errors in Hk.
    case_decide; [by apply elem_of_list_to_set|done].
  - destruct (sortFieldsByDependencies_terminates (derivedFieldsOf schema))
      as (order & -> & Hsub). simpl.
    destruct (computeLoop_total evalJS (fresh (dom h)) order
                (<[fresh (dom h) := vals]> h) ∅) as (h' & errs' & Hrun).
    rewrite Hrun. simpl. eexists _, _. split; [done|]. simpl.
    destruct (computeLoop_frame _ _ _ _ _ _ _ Hrun) as [_ Hframe].
    destruct (computeLoop_dom _ _ _ _ _ _ Hrun) as [Hdom _].
    rewrite recordAt_insert in Hdom.
    assert (∀ k, k ∉ id <$> derivedFieldsOf schema → k ∉ id <$> order) as Hout.
    { intros k Hk (g & -> & Hg)%list_elem_of_fmap. apply Hk, list_elem_of_fmap.
      exists g. split; [done|]. by apply Hsub. }
    split_and!; [done| |].
    + intros k Hk. destruct (decide (k ∈ id <$> derivedFieldsOf schema)) as [Hin|Hnin].
      * apply elem_of_union_r. by apply elem_of_list_to_set.
      * apply elem_of_union_l. destruct (Hframe k (Hout k Hnin)) as [Hrec _].
        rewrite recordAt_insert in Hrec. apply elem_of_dom. rewrite <- Hrec.
        by apply elem_of_dom.
    + intros k [e Hk]%elem_of_dom. apply elem_of_list_to_set.
      destruct (decide (k ∈ id <$> derivedFieldsOf schema)) as [Hin|Hnin]; [done|].
      destruct (Hframe k (Hout k Hnin)) as [_ Herr]. rewrite Hk in Herr. done.
Qed.

(** X11. [updateDerivedFields] returns a record with every key of the
    record it was given, and the only other keys are ids of derived fields of
    the schema; the errors are under ids of derived fields only. *)
Theorem updateDerivedFields_keys (formValues : loc) (schema : FormSchema) (h : heap)
    (vals : gmap jsstring any) :
  h !! formValues = Some vals →
  ∃ r h', updateDerivedFields evalJS formValues schema h = Normal (r, h')
    ∧ dom vals ⊆ dom (recordAt h' (values r))
    ∧ dom (recordAt h' (values r))
      ⊆ dom vals ∪ list_to_set (id <$> derivedFieldsOf schema)
    ∧ dom (errors r) ⊆ list_to_set (id <$> derivedFieldsOf schema).
Proof. apply updateDerivedFields_domain. Qed.

(** X12. In a schema with unique field ids and no cycle, every derived
    field ends a pass in one of two ways. Either it has no error and a value
    under its id, of an allowed shape; or it has an error, which carries the
    id of the field and is not the error of circular dependencies, and the
    entry under its id is what the record given had there. *)
Theorem derived_field_value_or_error (formValues : loc) (schema : FormSchema) (h : heap)
    (vals : gmap jsstring any) :
  h !! formValues = Some vals →
  NoDup (id <$> fields schema) →
  (∀ f, ¬ tc (dependsOn schema) f f) →
  ∃ r h', updateDerivedFields evalJS formValues schema h = Normal (r, h')
    ∧ ∀ f, f ∈ fields schema → is_Some (derivedFrom f) →
        (∃ v, errors r !! id f = None
              ∧ recordAt h' (values r) !! id f = Some v
              ∧ disallowedShape v = false)
        ∨ (∃ e, errors r !! id f = Some e
                ∧ fieldId e = Some (id f)
                ∧ type e ≠ circular_dependency
                ∧ recordAt h' (values r) !! id f = vals !! id f).
Proof.
  intros Hvals Hnd Hacyc.
  destruct (updateDerivedFields_acyclic evalJS formValues schema h vals Hvals Hnd Hacyc)
    as (order & h' & errs' & _ & _ & Hperm & Hndo & _ & Hrun & Hcopy & ->).
  eexists _, _. split; [done|]. simpl. intros f Hf [config Hc].
  assert (f ∈ order) as Hin.
  { rewrite Hperm. apply elem_of_derivedFieldsOf. split; [done|]. by eauto. }
  apply list_elem_of_split in Hin as (before & after & ->).
  destruct (field_result evalJS _ _ _ _ _ _ _ _ Hndo Hrun Hc) as (r & Hr & Hres).
  destruct (computeValue_kinds config
              (workingValues evalJS (spread formValues h).1 before (spread formValues h).2))
    as (r' & Hr' & Hkind).
  assert (r' = r) as -> by congruence. clear Hr'.
  destruct (error r) as [e|].
  - right. destruct Hres as [He Hrec], Hkind as (Hty & _ & _).
    exists (withFieldId e (id f)). split_and!; [done..|].
    rewrite Hcopy in Hrec. exact Hrec.
  - left. destruct Hres as [He Hrec], Hkind as [_ Hshape]. by exists (value r).
Qed.

(** X13. A pass over the record that a pass returned changes nothing: for
    a schema with unique field ids, with a cycle or not, the second pass
    returns a new record with the same entries, and the same errors. The
    evaluator is taken to be a function of the expression and of the context
    it is given. *)
Theorem updateDerivedFields_idempotent (formValues : loc) (schema : FormSchema)
    (h : heap) (vals : gmap jsstring any) :
  h !! formValues = Some vals →
  NoDup (id <$> fields schema) →
  ∃ r h' r2 h2,
    updateDerivedFields evalJS formValues schema h = Normal (r, h')
    ∧ updateDerivedFields evalJS (values r) schema h' = Normal (r2, h2)
    ∧ values r2 ≠ values r
    ∧ recordAt h2 (values r2) = recordAt h' (values r)
    ∧ errors r2 = errors r.
Proof.
  intros Hvals Hnd.
  pose proof (derived_unique_ids schema Hnd) as Hnd'.
  rewrite updateDerivedFields_unfold. cbv zeta.
  destruct (detectCircularDependencies_terminates (derivedFieldsOf schema)) as [c Hdet].
  rewrite Hdet. simpl. destruct c as [e|].
  - eexists _, _. rewrite updateDerivedFields_unfold. cbv zeta. rewrite Hdet. simpl.
    eexists _, _. split; [done|]. split; [done|]. simpl. split_and!; [|by rewrite !recordAt_insert|done].
    intros Heq. apply (is_fresh (dom (<[fresh (dom h) := recordAt h formValues]> h))).
    rewrite Heq, dom_insert. set_solver.
  - pose proof (detect_none_acyclic _ Hdet) as Hacyc.
    destruct (sortFieldsByDependencies_terminates (derivedFieldsOf schema))
      as (order & Hsort & _).
    destruct (sortFieldsByDependencies_spec _ _ Hnd' Hacyc Hsort) as (Hperm & Hndo & Hpf).
    rewrite Hsort. simpl.
    destruct (computeLoop_total evalJS (fresh (dom h)) order
                (<[fresh (dom h) := recordAt h formValues]> h) ∅) as (h' & errs' & Hrun).
    rewrite Hrun. simpl. exists {| values := fresh (dom h); errors := errs' |}, h'.
    rewrite updateDerivedFields_unfold. cbv zeta. rewrite Hdet. simpl.
    rewrite Hsort. simpl.
    assert (fresh (dom h') ≠ fresh (dom h)) as Hne.
    { intros Heq. apply (is_fresh (dom h')). rewrite Heq. apply elem_of_dom.
      eapply computeLoop_allocated; [done|]. by rewrite lookup_insert_eq. }
    rewrite (computeLoop_rerun (fresh (dom h)) (fresh (dom h')) order
               (<[fresh (dom h) := recordAt h formValues]> h) h'
               (<[fresh (dom h') := recordAt h' (fresh (dom h))]> h') ∅ errs').
    + simpl. eexists _, _. split; [done|]. split; [done|]. simpl.
      split_and!; [exact Hne| |done]. by rewrite recordAt_insert.
    + done.
    + intros l1 f l2 config p -> Hc Hp.
      apply (parent_not_later (derivedFieldsOf schema) l1 f l2 config p); try done.
      intros g Hg. rewrite Hperm in Hg. split; [done|].
      by destruct (proj1 (elem_of_derivedFieldsOf _ _) Hg) as [? _].
    + done.
    + by rewrite lookup_insert_eq.
Qed.


(** X14. When every parent that a derived field of the schema names is a key
    of the record, no derived field is reported with a missing parent:
    whatever the schema, with a cycle or not, no error of the pass has the
    type [missing_parent]. *)
Theorem no_missing_parent_when_present (formValues : loc) (schema : FormSchema)
    (h : heap) (vals : gmap jsstring any) :
  h !! formValues = Some vals →
  (∀ f config p, f ∈ fields schema → derivedFrom f = Some config →
                 p ∈ parentFields config → is_Some (vals !! p)) →
  ∃ r h', updateDerivedFields evalJS formValues schema h = Normal (r, h')
    ∧ ∀ k e, errors r !! k = Some e → type e ≠ missing_parent.
Proof.
  intros Hvals Hpresent. rewrite updateDerivedFields_unfold. cbv zeta.
  assert (recordAt h formValues = vals) as -> by (unfold recordAt; by rewrite Hvals).
  destruct (detectCircularDependencies_terminates (derivedFieldsOf schema)) as [c Hdet].
  rewrite Hdet. simpl. destruct c as [e|].
  - destruct (detect_some_cyclic _ _ Hdet) as [-> _].
    eexists _, _. split; [done|]. simpl. intros k e Hk.
    rewrite circular_errors in Hk. case_decide; [|done]. by simplify_eq.
  - destruct (sortFieldsByDependencies_terminates (derivedFieldsOf schema))
      as (order & -> & Hsub). simpl.
    destruct (computeLoop_total evalJS (fresh (dom h)) order
                (<[fresh (dom h) := vals]> h) ∅) as (h' & errs' & Hrun).
    rewrite Hrun. simpl. eexists _, _. split; [done|]. simpl. intros k e Hk.
    destruct (computeLoop_errors _ _ _ _ _ _ _ _ Hrun Hk)
      as [H0|(f & config & W & r & e0 & Hf & _ & Hc & HW & Hr & He0 & ->)];
      [by rewrite lookup_empty in H0|].
    rewrite recordAt_insert in HW.
    destruct (computeValue_kinds config W) as (r' & Hr' & Hkind).
    assert (r' = r) as -> by congruence. rewrite He0 in Hkind.
    destruct Hkind as (_ & _ & Hmiss). simpl. intros Hty. apply Hmiss in Hty.
    apply Hty. intros p Hp. apply elem_of_dom, HW, elem_of_dom.
    apply (Hpresent f config p); [|done..].
    apply Hsub in Hf. by apply elem_of_derivedFieldsOf in Hf as [_ ?].
Qed.

End PassProperties.

(** * What the evaluator is not called for *)

Section EvaluatorCalls.
Import DerivedFieldCalculator.


End EvaluatorCalls.

(** * Further properties of the validation engine *)

Lemma takeWhile_dropWhile {A} (p : A → bool) (l : list A) :
  takeWhile p l ++ dropWhile p l = l.
Proof. induction l as [|x l IH]; simpl; [done|]. destruct (p x); simpl; by f_equal. Qed.

Lemma forallb_takeWhile {A} (p : A → bool) (l : list A) :
  forallb p (takeWhile p l) = true.
Proof. induction l as [|x l IH]; simpl; [done|]. destruct (p x) eqn:Hx; simpl; [|done]. by rewrite Hx. Qed.

Lemma dropWhile_stop {A} (p : A → bool) (a : list A) (x : A) (r : list A) :
  forallb p a = true → p x = false →
  takeWhile p (a ++ x :: r) = a ∧ dropWhile p (a ++ x :: r) = x :: r.
Proof.
  intros Ha Hx. induction a as [|y a IH]; simpl in *.
  - by rewrite Hx.
  - apply andb_prop in Ha as [Hy Ha]. rewrite Hy. destruct (IH Ha) as [-> ->]. done.
Qed.

Lemma removelast_snoc {A} (l : list A) (x : A) : removelast (l ++ [x]) = l.
Proof. induction l as [|y l IH]; simpl; [done|]. rewrite IH. by destruct l. Qed.

Lemma removelast_last {A} (l : list A) : l ≠ [] → ∃ x, l = removelast l ++ [x].
Proof.
  induction l as [|y l IH]; intros Hne; [done|].
  destruct l as [|z l]; [by exists y|].
  destruct IH as [x Hx]; [done|]. exists x. simpl in *. by rewrite <- Hx.
Qed.

(** What the regular expression of e-mail addresses accepts. *)
Lemma emailRegexTest_spec (s : jsstring) :
  ValidationEngine.emailRegexTest s = true
  ↔ ∃ box domain tld,
      s = box ++ 64%N :: domain ++ 46%N :: tld
      ∧ box ≠ [] ∧ domain ≠ [] ∧ tld ≠ []
      ∧ forallb isAddressChar (box ++ domain ++ tld) = true.
Proof.
  unfold ValidationEngine.emailRegexTest.
  change (λ c : N, negb (isWhiteSpace c) && negb (c =? 64)%N) with isAddressChar.
  split.
  - intros H. pose proof (takeWhile_dropWhile isAddressChar s) as Hs.
    pose proof (forallb_takeWhile isAddressChar s) as Hbox.
    destruct (dropWhile isAddressChar s) as [|c rest]; [done|].
    destruct c as [|c]; [done|]. destruct (decide (c = 64%positive)) as [->|Hne].
    2:{ exfalso. clear -H Hne. by repeat (destruct c as [c|c|]; try done). }
    apply andb_prop in H as [H Hdot]. apply andb_prop in H as [Hne Hrest].
    apply negb_true_iff, bool_decide_eq_false in Hne.
    destruct rest as [|x tl]; [done|].
    apply existsb_exists in Hdot as (d & Hd & Hd46). apply N.eqb_eq in Hd46 as ->.
    apply list_elem_of_In, list_elem_of_split in Hd as (b' & c' & Hsplit).
    destruct (removelast_last tl) as [z Hz].
    { intros ->. simpl in Hsplit. by destruct b'. }
    rewrite Hsplit, <- app_assoc, <- app_comm_cons in Hz.
    exists (takeWhile isAddressChar s), (x :: b'), (c' ++ [z]).
    split_and!; [|done|done|by destruct c'|].
    + rewrite <- Hs at 1. by rewrite Hz.
    + rewrite Hz in Hrest. cbn [forallb] in Hrest.
      apply andb_prop in Hrest as [Hx Hrest]. rewrite forallb_app in Hrest.
      apply andb_prop in Hrest as [Hb Hrest]. cbn [forallb] in Hrest.
      apply andb_prop in Hrest as [_ Hc].
      rewrite forallb_app, Hbox, forallb_app. cbn [forallb]. by rewrite Hx, Hb, Hc.
  - intros (box & domain & tld & -> & Hbox & Hdom & Htld & Hall).
    rewrite forallb_app in Hall. apply andb_prop in Hall as [Hb Hall].
    rewrite forallb_app in Hall. apply andb_prop in Hall as [Hd Ht].
    destruct (dropWhile_stop isAddressChar box 64%N (domain ++ 46%N :: tld) Hb)
      as [-> ->]; [done|].
    rewrite bool_decide_eq_false_2 by done. simpl.
    rewrite forallb_app, Hd. simpl. rewrite Ht. simpl.
    destruct domain as [|x b']; [done|]. simpl.
    destruct (removelast_last tld Htld) as [z Hz]. revert Hz.
    generalize (removelast tld) as c'. intros c' ->.
    rewrite app_comm_cons, app_assoc, removelast_snoc.
    apply existsb_exists. exists 46%N. split; [|done].
    apply list_elem_of_In, elem_of_app. right. by left.
Qed.

Section ValidationProperties2.
Import ValidationEngine.

Variable ToString : any → jsstring.

(** A rule fails with its own message. *)
Lemma validateSingleRule_message (v : any) (rule : ValidationRule) (m : jsstring) :
  validateSingleRule ToString v rule = Some m → m = rule_message rule.
Proof.
  unfold validateSingleRule, validateNotEmpty, validateMinLength, validateMaxLength,
    validateEmail, validateCustomPassword.
  intros H. repeat case_match; congruence.
Qed.

(** X16. [validateField] reports messages of the rules it is given, in the
    order of the rules, and each at most once per rule: a rule is reported
    when it fails and its message is not empty. The result is valid exactly
    when nothing is reported. *)
Theorem validateField_reports (v : any) (rules : list ValidationRule) :
  let r := validateField ToString v rules in
  result_errors r
  = omap (λ rule, match validateSingleRule ToString v rule with
                  | Some [] => None
                  | o => o
                  end) rules
  ∧ sublist (result_errors r) (rule_message <$> rules)
  ∧ Forall (λ m, m ≠ []) (result_errors r)
  ∧ (result_isValid r = true ↔ result_errors r = []).
Proof.
  cbv zeta. unfold validateField. cbn [result_errors result_isValid].
  split_and!.
  - induction rules as [|rule rules IH]; [done|]. cbn [collectErrors omap].
    destruct (validateSingleRule ToString v rule) as [[|c m]|] eqn:Hr; simpl;
      rewrite Hr; by rewrite ?IH.
  - induction rules as [|rule rules IH]; [done|]. cbn [collectErrors]. rewrite fmap_cons.
    destruct (validateSingleRule ToString v rule) as [[|c m]|] eqn:Hr;
      try by apply sublist_cons.
    apply validateSingleRule_message in Hr as ->. by apply sublist_skip.
  - induction rules as [|rule rules IH]; [done|]. cbn [collectErrors].
    destruct (validateSingleRule ToString v rule) as [[|c m]|]; try done.
    by apply Forall_cons.
  - rewrite bool_decide_eq_true. by destruct (collectErrors ToString v rules).
Qed.

Lemma null_value_errors (v : any) (rules : list ValidationRule) :
  v = VNull ∨ v = VUndefined →
  result_errors (validateField ToString v rules)
  = filter (λ m, m ≠ [])
      (rule_message <$> filter (λ rule, rule_type rule = notEmpty) rules).
Proof.
  intros Hv. unfold validateField. cbn [result_errors].
  induction rules as [|rule rules IH]; [done|]. cbn [collectErrors].
  rewrite filter_cons.
  destruct (decide (rule_type rule = notEmpty)) as [Hty|Hty].
  - assert (validateSingleRule ToString v rule = Some (rule_message rule)) as ->.
    { unfold validateSingleRule. rewrite Hty. by destruct Hv as [-> | ->]. }
    rewrite fmap_cons, filter_cons, IH.
    destruct (rule_message rule); [by rewrite decide_False by (by intros [])|].
    by rewrite decide_True.
  - assert (validateSingleRule ToString v rule = None) as ->; [|done].
    unfold validateSingleRule. by destruct (rule_type rule), Hv as [-> | ->].
Qed.

(** X17. A value that is null or undefined fails the rules of type
    [notEmpty] and no other: what [validateField] reports for it are the
    messages of the [notEmpty] rules, the empty ones left out. *)
Theorem null_fails_notEmpty_only (rules : list ValidationRule) :
  let failing := filter (λ m, m ≠ [])
      (rule_message <$> filter (λ rule, rule_type rule = notEmpty) rules) in
  result_errors (validateField ToString VNull rules) = failing
  ∧ result_errors (validateField ToString VUndefined rules) = failing.
Proof. split; apply null_value_errors; by eauto. Qed.

(** X18. [validateEmail] on a string lets through the empty string and the
    strings of the form box, at sign, domain, dot, end, where the three parts
    are not empty and have neither a blank nor an at sign; the domain and the
    end may have dots of their own. On every other string it fails. *)
Theorem validateEmail_accepts (s message : jsstring) :
  ToString (VStr s) = s →
  validateEmail ToString (VStr s) message = None
  ↔ s = []
    ∨ ∃ box domain tld,
        s = box ++ 64%N :: domain ++ 46%N :: tld
        ∧ box ≠ [] ∧ domain ≠ [] ∧ tld ≠ []
        ∧ forallb isAddressChar (box ++ domain ++ tld) = true.
Proof.
  intros Hs. rewrite <- emailRegexTest_spec. unfold validateEmail.
  destruct s as [|c s]; [by split; eauto|]. rewrite Hs.
  destruct (emailRegexTest (c :: s)); simpl; split; try done.
  - by right.
  - by intros [?|?].
Qed.

End ValidationProperties2.

(** * Further properties of [validateForm] *)

Section FormProperties.
Import ValidationEngine.

Variable ToString : any → jsstring.

#[local] Abbreviation step values := (validateFormStep ToString values).
#[local] Abbreviation failing := (failingMessages ToString).

(** One iteration validates the field against its effective rules, and
    leaves them in the array of the field. *)
Lemma step_effective (values : gmap jsstring any) (st : formLoop) (field : FormField) :
  loop_fieldErrors (step values st field)
  = (if decide (failing values (loop_store st) field = []) then loop_fieldErrors st
     else <[id field := failing values (loop_store st) field]> (loop_fieldErrors st))
  ∧ loop_isValid (step values st field)
    = (if decide (failing values (loop_store st) field = []) then loop_isValid st
       else false)
  ∧ ∀ r, validation field = Some r → r ∈ dom (loop_store st) →
         loop_store (step values st field) !! r
         = Some (effectiveRules (loop_store st) field).
Proof.
  unfold failingMessages, effectiveRules, declaredRules, hasNotEmptyRule.
  unfold validateFormStep, allocRules, unshift.
  destruct (validation field) as [r|] eqn:Hv; cbv beta iota zeta.
  - destruct (required field); cbn [andb].
    + destruct (existsb _ (rulesAt (loop_store st) r)) eqn:Hex; cbn [negb].
      * unfold validateField. cbn [result_isValid result_errors].
        set (errs := collectErrors _ _ _).
        destruct errs as [|e errs]; simpl; (split_and!; [done..|]);
          intros ? [= <-] [rs Hr]%elem_of_dom; unfold rulesAt; by rewrite Hr.
      * rewrite !rulesAt_insert.
        unfold validateField. cbn [result_isValid result_errors].
        set (errs := collectErrors _ _ _).
        destruct errs as [|e errs]; simpl; (split_and!; [done..|]);
          intros ? [= <-] _; by rewrite lookup_insert_eq.
    + unfold validateField. cbn [result_isValid result_errors].
      set (errs := collectErrors _ _ _).
      destruct errs as [|e errs]; simpl; (split_and!; [done..|]);
        intros ? [= <-] [rs Hr]%elem_of_dom; unfold rulesAt; by rewrite Hr.
  - destruct (required field); cbn [andb].
    + rewrite !rulesAt_insert. cbn [existsb negb]. rewrite !rulesAt_insert.
      unfold validateField. cbn [result_isValid result_errors].
      set (errs := collectErrors _ _ _).
      destruct errs as [|e errs]; simpl; by split_and!.
    + rewrite !rulesAt_insert.
      unfold validateField. cbn [result_isValid result_errors].
      destruct (collectErrors _ _ _) as [|e errs]; simpl; by split_and!.
Qed.


Lemma effectiveRules_frame (σ σ' : ruleStore) (g : FormField) :
  (∀ r, validation g = Some r → σ' !! r = σ !! r) →
  effectiveRules σ' g = effectiveRules σ g.
Proof.
  intros H. unfold effectiveRules, declaredRules, rulesAt.
  destruct (validation g) as [r|]; [|done]. by rewrite (H r).
Qed.

(** The effective rules of a field whose array holds its effective rules
    are those very rules. *)
Lemma effectiveRules_fixed (σ σ' : ruleStore) (f : FormField) :
  (∀ r, validation f = Some r → σ' !! r = Some (effectiveRules σ f)) →
  effectiveRules σ' f = effectiveRules σ f.
Proof.
  intros H. destruct (validation f) as [r|] eqn:Hv.
  - assert (declaredRules σ' f = effectiveRules σ f) as Hd.
    { unfold declaredRules at 1. unfold rulesAt. by rewrite Hv, (H r eq_refl). }
    unfold effectiveRules at 1. rewrite Hd. unfold effectiveRules.
    destruct (required f); cbn [andb]; [|done].
    destruct (hasNotEmptyRule (declaredRules σ f)) eqn:Hh; cbn [negb]; [by rewrite Hh|].
    done.
  - unfold effectiveRules, declaredRules. by rewrite Hv.
Qed.

Lemma fold_store_dom (values : gmap jsstring any) (fs : list FormField) (st : formLoop) :
  dom (loop_store st) ⊆ dom (loop_store (fold_left (step values) fs st)).
Proof.
  revert st. induction fs as [|f fs IH]; intros st; simpl; [done|].
  etrans; [|apply IH]. apply step_store_dom.
Qed.

Lemma separateRules_cons (σ : ruleStore) (f : FormField) (fs : list FormField) :
  separateRules σ (f :: fs) →
  separateRules σ fs
  ∧ ∀ g r, g ∈ fs → validation g = Some r → validation f ≠ Some r.
Proof.
  intros [Hnd Hdom].
  change (omap validation (f :: fs))
    with (match validation f with
          | Some r => r :: omap validation fs
          | None => omap validation fs
          end) in Hnd.
  split; [split|].
  - destruct (validation f); [by apply NoDup_cons in Hnd as [_ ?]|done].
  - intros g r Hg. apply Hdom. by right.
  - intros g r Hg Hr Hf. rewrite Hf in Hnd.
    apply NoDup_cons in Hnd as [Hnin _]. apply Hnin, list_elem_of_omap. eauto.
Qed.

Lemma forallb_ext_in {A} (p q : A → bool) (l : list A) :
  (∀ x, x ∈ l → p x = q x) → forallb p l = forallb q l.
Proof.
  induction l as [|x l IH]; intros H; simpl; [done|].
  rewrite (H x) by by left. rewrite IH; [done|]. intros y Hy. apply H. by right.
Qed.

(** The loop, field by field, when no two fields share an array. *)
Lemma fold_by_field (values : gmap jsstring any) (fs : list FormField) (st : formLoop) :
  separateRules (loop_store st) fs → NoDup (id <$> fs) →
  let st' := fold_left (step values) fs st in
  (∀ f, f ∈ fs →
     loop_fieldErrors st' !! id f
     = if decide (failing values (loop_store st) f = [])
       then loop_fieldErrors st !! id f
       else Some (failing values (loop_store st) f))
  ∧ loop_isValid st'
    = loop_isValid st
      && forallb (λ f, bool_decide (failing values (loop_store st) f = [])) fs
  ∧ ∀ f r, f ∈ fs → validation f = Some r →
           loop_store st' !! r = Some (effectiveRules (loop_store st) f).
Proof.
  revert st. induction fs as [|f fs IH]; intros st Hsep Hnd; cbn [fold_left]; cbv zeta.
  { split_and!; [by intros f Hf; inversion Hf|by rewrite andb_true_r|].
    intros f r Hf. inversion Hf. }
  destruct (separateRules_cons _ _ _ Hsep) as [Hsep' Hother].
  rewrite fmap_cons in Hnd. apply NoDup_cons in Hnd as [Hidf Hnd].
  destruct (step_effective values st f) as (E1 & V1 & S1).
  assert (separateRules (loop_store (step values st f)) fs) as Hsep1.
  { destruct Hsep' as [? Hdom]. split; [done|]. intros g r Hg Hr.
    apply (step_store_dom ToString values st f). by eapply Hdom. }
  assert (∀ g, g ∈ fs →
            effectiveRules (loop_store (step values st f)) g
            = effectiveRules (loop_store st) g) as Heff.
  { intros g Hg. apply effectiveRules_frame. intros r Hr.
    apply step_store_frame; [|by eapply Hother].
    destruct Hsep' as [_ Hdom]. by eapply Hdom. }
  assert (∀ g, g ∈ fs →
            failing values (loop_store (step values st f)) g
            = failing values (loop_store st) g) as Hfail.
  { intros g Hg. unfold failingMessages. by rewrite Heff. }
  destruct (IH (step values st f) Hsep1 Hnd) as (E & V & S). cbv zeta in E, V, S.
  split_and!.
  - intros g [->|Hg]%elem_of_cons.
    + rewrite fold_errors_frame by done. rewrite E1.
      destruct (decide (failing values (loop_store st) f = [])); [done|].
      by rewrite lookup_insert_eq.
    + rewrite (E g Hg), (Hfail g Hg).
      destruct (decide (failing values (loop_store st) g = [])); [|done].
      apply step_errors_frame. intros Heq. apply Hidf. rewrite Heq.
      apply list_elem_of_fmap. eauto.
  - rewrite V, V1. cbn [forallb].
    rewrite (forallb_ext_in _ (λ g, bool_decide (failing values (loop_store st) g = []))
               fs).
    2:{ intros g Hg. by rewrite (Hfail g Hg). }
    destruct (decide (failing values (loop_store st) f = [])) as [Hd|Hd].
    + by rewrite bool_decide_eq_true_2.
    + rewrite bool_decide_eq_false_2 by done. by rewrite andb_false_r.
  - intros g r [->|Hg]%elem_of_cons Hr.
    + rewrite fold_store_frame.
      * apply S1; [done|]. destruct Hsep as [_ Hdom]. eapply Hdom; [|done]. by left.
      * apply (step_store_dom ToString values st f). destruct Hsep as [_ Hdom].
        eapply Hdom; [|done]. by left.
      * intros g' Hg' Hr'. by apply (Hother g' r Hg' Hr').
    + rewrite (S g r Hg Hr). by rewrite Heff.
Qed.

(** What the loop adds to the errors. *)
Lemma fold_errors_inv (values : gmap jsstring any) (fs : list FormField) (st : formLoop)
    (k : jsstring) (errs : list jsstring) :
  loop_fieldErrors (fold_left (step values) fs st) !! k = Some errs →
  loop_fieldErrors st !! k = Some errs ∨ (errs ≠ [] ∧ k ∈ id <$> fs).
Proof.
  revert st. induction fs as [|f fs IH]; intros st H; cbn [fold_left] in H; [by left|].
  destruct (IH _ H) as [H1|[? Hk]].
  - destruct (step_effective values st f) as (E1 & _ & _). rewrite E1 in H1.
    case_decide as Hd; [by left|].
    destruct (decide (k = id f)) as [->|Hne].
    + rewrite lookup_insert_eq in H1. simplify_eq. right. split; [done|].
      rewrite fmap_cons. by left.
    + rewrite lookup_insert_ne in H1 by done. by left.
  - right. split; [done|]. rewrite fmap_cons. by right.
Qed.

Lemma fold_valid_iff (values : gmap jsstring any) (fs : list FormField) (st : formLoop) :
  (loop_isValid st = true ↔ loop_fieldErrors st = ∅) →
  loop_isValid (fold_left (step values) fs st) = true
  ↔ loop_fieldErrors (fold_left (step values) fs st) = ∅.
Proof.
  revert st. induction fs as [|f fs IH]; intros st H; cbn [fold_left]; [done|].
  apply IH. destruct (step_effective values st f) as (E1 & V1 & _).
  rewrite E1, V1. case_decide; [done|]. split; [done|].
  intros Hemp. apply (f_equal (λ m, m !! id f)) in Hemp.
  by rewrite lookup_insert_eq, lookup_empty in Hemp.
Qed.

(** X19. The result of [validateForm] is valid exactly when it has no
    errors; the errors are under ids of fields of the schema only, and no
    field is reported with an empty list of messages. This holds for every
    schema and every store. *)
Theorem validateForm_valid_iff_no_errors (values : gmap jsstring any)
    (schema : FormSchema) (σ : ruleStore) :
  let result := (validateForm ToString values schema σ).1 in
  (isValid result = true ↔ fieldErrors result = ∅)
  ∧ ∀ k errs, fieldErrors result !! k = Some errs →
              errs ≠ [] ∧ k ∈ id <$> fields schema.
Proof.
  cbv zeta. unfold validateForm. cbn [fst isValid fieldErrors]. split.
  - by apply fold_valid_iff.
  - intros k errs H. destruct (fold_errors_inv _ _ _ _ _ H) as [H0|?]; [|done].
    cbn [loop_fieldErrors] in H0. by rewrite lookup_empty in H0.
Qed.

(** X20. When the fields of the schema have unique ids and no two of them
    share an array of rules, [validateForm] validates each field on its own:
    against its declared rules, behind the rule "<label> is required" when
    the field is required and declares no rule of type [notEmpty]. A field is
    in the errors exactly when some of these rules fail with a message, with
    the messages in the order of the rules, and the form is valid exactly
    when no field fails. *)
Theorem validateForm_by_field (values : gmap jsstring any) (schema : FormSchema)
    (σ : ruleStore) :
  separateRules σ (fields schema) →
  NoDup (id <$> fields schema) →
  let result := (validateForm ToString values schema σ).1 in
  (∀ f, f ∈ fields schema →
     fieldErrors result !! id f
     = if decide (failing values σ f = []) then None else Some (failing values σ f))
  ∧ (isValid result = true ↔ ∀ f, f ∈ fields schema → failing values σ f = []).
Proof.
  intros Hsep Hnd. cbv zeta. unfold validateForm. cbn [fst isValid fieldErrors].
  destruct (fold_by_field values (fields schema)
              {| loop_store := σ; loop_fieldErrors := ∅; loop_isValid := true |}
              Hsep Hnd) as (E & V & _).
  cbv zeta in E, V. cbn [loop_store loop_fieldErrors loop_isValid] in E, V. split.
  - intros f Hf. rewrite (E f Hf). by rewrite lookup_empty.
  - rewrite V. cbn [andb]. rewrite forallb_forall. split.
    + intros H f Hf. apply list_elem_of_In in Hf.
      by apply H, bool_decide_eq_true in Hf.
    + intros H f Hf. apply bool_decide_eq_true, H. by apply list_elem_of_In.
Qed.

(** X21. What [validateForm] leaves in the store, under the same
    conditions: the array of each field holds the rules the field was
    validated against, so the rule "<label> is required" is now in front of
    the arrays of the required fields that declared no [notEmpty] rule, and
    the other arrays that the store had are as they were. *)
Theorem validateForm_store (values : gmap jsstring any) (schema : FormSchema)
    (σ : ruleStore) :
  separateRules σ (fields schema) →
  NoDup (id <$> fields schema) →
  let σ' := (validateForm ToString values schema σ).2 in
  (∀ f r, f ∈ fields schema → validation f = Some r →
          σ' !! r = Some (effectiveRules σ f))
  ∧ (∀ r, r ∈ dom σ → (∀ f, f ∈ fields schema → validation f ≠ Some r) →
          σ' !! r = σ !! r).
Proof.
  intros Hsep Hnd. cbv zeta. unfold validateForm. cbn [snd].
  destruct (fold_by_field values (fields schema)
              {| loop_store := σ; loop_fieldErrors := ∅; loop_isValid := true |}
              Hsep Hnd) as (_ & _ & S).
  split; [exact S|]. intros r Hr Hno. by rewrite fold_store_frame.
Qed.

(** A second call of [validateForm], on the store that the first left. *)
Lemma validateForm_repeat (values values2 : gmap jsstring any) (schema : FormSchema)
    (σ : ruleStore) :
  separateRules σ (fields schema) →
  NoDup (id <$> fields schema) →
  let first := validateForm ToString values schema σ in
  (validateForm ToString values schema first.2).1 = first.1
  ∧ ∀ r, r ∈ dom first.2 →
         (validateForm ToString values2 schema first.2).2 !! r = first.2 !! r.
Proof.
  intros Hsep Hnd. cbv zeta. unfold validateForm. cbn [fst snd].
  set (st0 := {| loop_store := σ; loop_fieldErrors := ∅; loop_isValid := true |}).
  destruct (fold_by_field values (fields schema) st0 Hsep Hnd) as (E & V & S).
  cbv zeta in E, V, S.
  set (st1 := fold_left (step values) (fields schema) st0) in *.
  set (st0' := {| loop_store := loop_store st1; loop_fieldErrors := ∅;
                  loop_isValid := true |}).
  assert (separateRules (loop_store st1) (fields schema)) as Hsep1.
  { destruct Hsep as [? Hdom]. split; [done|]. intros g r Hg Hr.
    apply (fold_store_dom values (fields schema) st0). by eapply Hdom. }
  assert (∀ f, f ∈ fields schema →
               effectiveRules (loop_store st1) f = effectiveRules σ f) as Heff.
  { intros f Hf. apply effectiveRules_fixed. intros r Hr. by apply S. }
  split.
  - destruct (fold_by_field values (fields schema) st0' Hsep1 Hnd) as (E' & V' & _).
    cbv zeta in E', V'. f_equal.
    + rewrite V', V. cbn [loop_isValid loop_store]. f_equal.
      apply forallb_ext_in. intros f Hf. unfold failingMessages. by rewrite Heff.
    + apply map_eq. intros k.
      destruct (decide (k ∈ id <$> fields schema)) as [Hin|Hnin].
      * apply list_elem_of_fmap in Hin as (f & -> & Hf).
        rewrite (E' f Hf), (E f Hf). cbn [loop_store loop_fieldErrors].
        unfold failingMessages. by rewrite Heff.
      * rewrite fold_errors_frame by done. subst st1.
        by rewrite fold_errors_frame.
  - intros r Hr.
    destruct (fold_by_field values2 (fields schema) st0' Hsep1 Hnd) as (_ & _ & S').
    cbv zeta in S'. cbn [loop_store] in S'.
    destruct (decide (r ∈ omap validation (fields schema))) as [Hin|Hnin].
    + apply list_elem_of_omap in Hin as (f & Hf & Hv).
      rewrite (S' f r Hf Hv), (S f r Hf Hv). by rewrite Heff.
    + rewrite fold_store_frame; [done|done|].
      intros g Hg Hv. apply Hnin, list_elem_of_omap. eauto.
Qed.

(** X22. Under the same conditions, a second call of [validateForm] on the
    store that the first call left gives the same result for the same values,
    and, whatever the values, changes no array that the store holds: the
    rule "<label> is required" is put in front once. *)
Theorem validateForm_again (values values2 : gmap jsstring any) (schema : FormSchema)
    (σ : ruleStore) :
  separateRules σ (fields schema) →
  NoDup (id <$> fields schema) →
  let first := validateForm ToString values schema σ in
  (validateForm ToString values schema first.2).1 = first.1
  ∧ ∀ r, r ∈ dom first.2 →
         (validateForm ToString values2 schema first.2).2 !! r = first.2 !! r.
Proof. apply validateForm_repeat. Qed.

End FormProperties.

(** * Properties of the form preview *)

Section PreviewProperties.
Import DerivedFieldCalculator ValidationEngine FormPreview.

Lemma initialValue_defined (field : FormField) : initialValue field ≠ VUndefined.
Proof.
  unfold initialValue, emptyValue.
  destruct (defaultValue field) as [[]|]; simpl;
    destruct (field_type field); try done; by destruct (options field) as [[|??]|].
Qed.

#[local] Abbreviation fill :=
  (fold_left (λ initialValues field, <[id field := initialValue field]> initialValues)).

Lemma fill_other (fs : list FormField) (acc : gmap jsstring any) (k : jsstring) :
  k ∉ id <$> fs → fill fs acc !! k = acc !! k.
Proof.
  revert acc. induction fs as [|f fs IH]; intros acc Hk; cbn [fold_left]; [done|].
  rewrite fmap_cons, not_elem_of_cons in Hk. destruct Hk as [Hne Hk].
  rewrite IH by done. by rewrite lookup_insert_ne.
Qed.

Lemma fill_dom (fs : list FormField) (acc : gmap jsstring any) :
  dom (fill fs acc) = dom acc ∪ list_to_set (id <$> fs).
Proof.
  revert acc. induction fs as [|f fs IH]; intros acc; cbn [fold_left].
  - rewrite fmap_nil, list_to_set_nil. set_solver.
  - rewrite IH, dom_insert_L, fmap_cons, list_to_set_cons. set_solver.
Qed.

Lemma fill_lookup (fs : list FormField) (acc : gmap jsstring any) (k : jsstring) (v : any) :
  fill fs acc !! k = Some v →
  acc !! k = Some v ∨ ∃ f, f ∈ fs ∧ id f = k ∧ v = initialValue f.
Proof.
  revert acc. induction fs as [|f fs IH]; intros acc H; cbn [fold_left] in H; [by left|].
  destruct (IH _ H) as [H1|(g & Hg & Hid & Hv)].
  - destruct (decide (k = id f)) as [->|Hne].
    + rewrite lookup_insert_eq in H1. simplify_eq. right. exists f.
      split; [by left|done].
    + rewrite lookup_insert_ne in H1 by done. by left.
  - right. exists g. split; [by right|done].
Qed.

(** X23. The record that the preview starts from has an entry under the id
    of every field of the schema and under no other key. Each entry is the
    initial value of a field with that id, which is never undefined; when the
    ids are unique, the entry of each field is its own initial value. *)
Theorem initialValues_entries (schema : FormSchema) :
  dom (initialValues schema) = list_to_set (id <$> fields schema)
  ∧ (∀ k v, initialValues schema !! k = Some v →
            v ≠ VUndefined
            ∧ ∃ f, f ∈ fields schema ∧ id f = k ∧ v = initialValue f)
  ∧ (NoDup (id <$> fields schema) →
     ∀ f, f ∈ fields schema → initialValues schema !! id f = Some (initialValue f)).
Proof.
  unfold initialValues. split_and!.
  - rewrite fill_dom. set_solver.
  - intros k v [H0|(f & Hf & Hid & ->)]%fill_lookup; [by rewrite lookup_empty in H0|].
    split; [apply initialValue_defined|by eauto].
  - intros Hnd f Hf. apply list_elem_of_split in Hf as (before & after & Hfs).
    rewrite Hfs in Hnd |- *. rewrite fold_left_app. cbn [fold_left].
    rewrite fmap_app, fmap_cons in Hnd. apply NoDup_app in Hnd as (_ & _ & Hnd).
    apply NoDup_cons in Hnd as [Hnin _].
    rewrite fill_other by done. by rewrite lookup_insert_eq.
Qed.

Variable evalJS : jsstring → gmap jsstring any → any + Error.
Variable ToString : any → jsstring.

(** X24. A change of a field, with a schema. The update returns a state
    whose record is new: the record of the state before, and every record
    that the heap held, are as they were. In the new record the field has the
    value given, unless it is a derived field; every key that the record
    before had is there, and the entries of the fields that are neither the
    changed one nor derived are as before. The errors and the validity of the
    new state are those of [validateForm] on the new record: the errors of
    the derived fields do not reach the state. What was touched stays. *)
Theorem handleFieldChange_result (schema : FormSchema) (fieldId : jsstring)
    (value : any) (prev : FormState) (h : heap) (σ : ruleStore)
    (vals : gmap jsstring any) :
  h !! state_values prev = Some vals →
  ∃ st h' σ',
    handleFieldChange evalJS ToString (Some schema) fieldId value prev h σ
    = Normal (st, h', σ')
    ∧ (state_values st ∉ dom h)
    ∧ (∀ l, l ∈ dom h → h' !! l = h !! l)
    ∧ (fieldId ∉ id <$> derivedFieldsOf schema →
       recordAt h' (state_values st) !! fieldId = Some value)
    ∧ (∀ k, k ≠ fieldId → k ∉ id <$> derivedFieldsOf schema →
            recordAt h' (state_values st) !! k = vals !! k)
    ∧ dom vals ∪ {[fieldId]} ⊆ dom (recordAt h' (state_values st))
    ∧ validateForm ToString (recordAt h' (state_values st)) schema σ
      = ({| isValid := state_isValid st; fieldErrors := state_errors st |}, σ')
    ∧ state_touched st = state_touched prev.
Proof.
  intros Hvals. unfold handleFieldChange, spreadWith. cbv zeta.
  assert (recordAt h (state_values prev) = vals) as ->
    by (unfold recordAt; by rewrite Hvals).
  set (l1 := fresh (dom h)).
  set (h1 := <[l1 := <[fieldId := value]> vals]> h).
  assert (h1 !! l1 = Some (<[fieldId := value]> vals)) as Hl1
    by (subst h1; by rewrite lookup_insert_eq).
  destruct (updateDerivedFields_domain evalJS l1 schema h1 _ Hl1)
    as (r & h2 & Hupd & Hdom & _ & _).
  destruct (updateDerivedFields_total evalJS l1 schema h1)
    as (r' & h2' & Hupd' & Hval & Hframe & Hkeep).
  assert (r' = r ∧ h2' = h2) as [-> ->] by (split; congruence). clear Hupd'.
  rewrite Hupd. simpl.
  destruct (validateForm ToString (recordAt h2 (values r)) schema σ) as [res σ'] eqn:Hform.
  simpl. eexists _, _, _. split; [done|]. simpl.
  assert (recordAt h1 l1 = <[fieldId := value]> vals) as Hrec1
    by (unfold recordAt; by rewrite Hl1).
  assert (l1 ∉ dom h) as Hfresh1 by apply is_fresh.
  assert (values r ∉ dom h1) as Hfresh2 by (rewrite Hval; apply is_fresh).
  assert (dom h ⊆ dom h1) as Hsub by (subst h1; rewrite dom_insert; set_solver).
  split_and!.
  - set_solver.
  - intros l Hl. rewrite Hframe by set_solver. subst h1.
    rewrite lookup_insert_ne; [done|]. set_solver.
  - intros Hnd. rewrite (Hkeep _ Hnd), Hrec1. by rewrite lookup_insert_eq.
  - intros k Hne Hnd. rewrite (Hkeep _ Hnd), Hrec1. by rewrite lookup_insert_ne.
  - etrans; [|exact Hdom]. rewrite dom_insert. set_solver.
  - rewrite Hform. by destruct res.
  - done.
Qed.

End PreviewProperties.

(** * Examples for the further properties *)

Section FurtherWitnesses.
Import DerivedFieldCalculator ValidationEngine FormPreview Examples.

(** The pass over the chain, from a record that has A and one other key. *)
Lemma updateDerivedFields_keys_witness :
  let vals : gmap jsstring any := {[ js "a" := VNum 2%float; js "note" := VStr (js "n") ]} in
  heapOf vals !! 1%positive = Some vals
  ∧ ∃ r h', updateDerivedFields sampleEval 1%positive chain (heapOf vals) = Normal (r, h')
    ∧ dom vals ⊆ dom (recordAt h' (values r))
    ∧ dom (recordAt h' (values r))
      ⊆ dom vals ∪ list_to_set (id <$> derivedFieldsOf chain)
    ∧ dom (errors r) ⊆ list_to_set (id <$> derivedFieldsOf chain).
Proof.
  intros vals. split; [done|].
  exact (updateDerivedFields_keys sampleEval 1%positive chain (heapOf vals) vals eq_refl).
Defined.

(** In the chain, with A a number, B and C both get a value. *)
Lemma derived_field_value_or_error_witness :
  let vals : gmap jsstring any := {[ js "a" := VNum 2%float ]} in
  heapOf vals !! 1%positive = Some vals
  ∧ NoDup (id <$> fields chain)
  ∧ (∀ f, ¬ tc (dependsOn chain) f f)
  ∧ ∃ r h', updateDerivedFields sampleEval 1%positive chain (heapOf vals) = Normal (r, h')
    ∧ ∀ f, f ∈ fields chain → is_Some (derivedFrom f) →
        (∃ v, errors r !! id f = None
              ∧ recordAt h' (values r) !! id f = Some v
              ∧ disallowedShape v = false)
        ∨ (∃ e, errors r !! id f = Some e
                ∧ fieldId e = Some (id f)
                ∧ type e ≠ circular_dependency
                ∧ recordAt h' (values r) !! id f = vals !! id f).
Proof.
  intros vals. split_and!; [done|apply chain_unique_ids|apply chain_acyclic|].
  exact (derived_field_value_or_error sampleEval 1%positive chain (heapOf vals) vals
           eq_refl chain_unique_ids chain_acyclic).
Defined.

(** Two passes over the chain. *)
Lemma updateDerivedFields_idempotent_witness :
  let vals : gmap jsstring any := {[ js "a" := VNum 2%float ]} in
  heapOf vals !! 1%positive = Some vals
  ∧ NoDup (id <$> fields chain)
  ∧ ∃ r h' r2 h2,
      updateDerivedFields sampleEval 1%positive chain (heapOf vals) = Normal (r, h')
      ∧ updateDerivedFields sampleEval (values r) chain h' = Normal (r2, h2)
      ∧ values r2 ≠ values r
      ∧ recordAt h2 (values r2) = recordAt h' (values r)
      ∧ errors r2 = errors r.
Proof.
  intros vals. split_and!; [done|apply chain_unique_ids|].
  exact (updateDerivedFields_idempotent sampleEval 1%positive chain (heapOf vals) vals
           eq_refl chain_unique_ids).
Defined.

(** The chain, on a record that has A: the parents A and B are keys of the
    record when B has an entry, were it the empty string. *)
Lemma no_missing_parent_when_present_witness :
  let vals : gmap jsstring any := {[ js "a" := VNum 2%float; js "b" := VStr [] ]} in
  heapOf vals !! 1%positive = Some vals
  ∧ ∃ r h', updateDerivedFields sampleEval 1%positive chain (heapOf vals) = Normal (r, h')
    ∧ ∀ k e, errors r !! k = Some e → type e ≠ missing_parent.
Proof.
  intros vals. split; [done|].
  apply (no_missing_parent_when_present sampleEval 1%positive chain (heapOf vals) vals
           eq_refl).
  intros f config p Hf Hc Hp.
  repeat (apply elem_of_cons in Hf as [->|Hf];
          [simpl in Hc;
           first [ discriminate Hc
                 | injection Hc as <-; simpl in Hp;
                   repeat (apply elem_of_cons in Hp as [->|Hp];
                           [by eexists; vm_compute|]);
                   by inversion Hp ] |]).
  inversion Hf.
Defined.

(** An address that passes. *)
Lemma validateEmail_accepts_witness :
  sampleToString (VStr (js "ann@mail.example.org")) = js "ann@mail.example.org"
  ∧ (validateEmail sampleToString (VStr (js "ann@mail.example.org")) (js "Invalid") = None
     ↔ js "ann@mail.example.org" = []
       ∨ ∃ box domain tld,
           js "ann@mail.example.org" = box ++ 64%N :: domain ++ 46%N :: tld
           ∧ box ≠ [] ∧ domain ≠ [] ∧ tld ≠ []
           ∧ forallb isAddressChar (box ++ domain ++ tld) = true).
Proof.
  split; [done|].
  exact (validateEmail_accepts sampleToString (js "ann@mail.example.org") (js "Invalid")
           eq_refl).
Defined.

Lemma nameField_separate : separateRules noRules (fields (schemaOf [nameField])).
Proof.
  split.
  - apply (bool_decide_unpack _). by vm_compute.
  - intros f r Hf Hv. apply elem_of_cons in Hf as [->|Hf]; [|by inversion Hf].
    simpl in Hv. simplify_eq. apply (bool_decide_unpack _). by vm_compute.
Qed.

Lemma nameField_unique_ids : NoDup (id <$> fields (schemaOf [nameField])).
Proof. apply (bool_decide_unpack _). by vm_compute. Qed.

(** The form of the one required field "Name", with no value. *)
Lemma validateForm_by_field_witness :
  let schema := schemaOf [nameField] in
  let result := (validateForm sampleToString ∅ schema noRules).1 in
  separateRules noRules (fields schema)
  ∧ NoDup (id <$> fields schema)
  ∧ (∀ f, f ∈ fields schema →
       fieldErrors result !! id f
       = if decide (failingMessages sampleToString ∅ noRules f = []) then None
         else Some (failingMessages sampleToString ∅ noRules f))
  ∧ (isValid result = true
     ↔ ∀ f, f ∈ fields schema → failingMessages sampleToString ∅ noRules f = []).
Proof.
  intros schema result. split_and!; [apply nameField_separate|apply nameField_unique_ids|..];
    apply (validateForm_by_field sampleToString ∅ schema noRules
             nameField_separate nameField_unique_ids).
Defined.

Lemma validateForm_store_witness :
  let schema := schemaOf [nameField] in
  let σ' := (validateForm sampleToString ∅ schema noRules).2 in
  separateRules noRules (fields schema)
  ∧ NoDup (id <$> fields schema)
  ∧ (∀ f r, f ∈ fields schema → validation f = Some r →
            σ' !! r = Some (effectiveRules noRules f))
  ∧ (∀ r, r ∈ dom noRules → (∀ f, f ∈ fields schema → validation f ≠ Some r) →
          σ' !! r = noRules !! r).
Proof.
  intros schema σ'. split_and!; [apply nameField_separate|apply nameField_unique_ids|..];
    apply (validateForm_store sampleToString ∅ schema noRules
             nameField_separate nameField_unique_ids).
Defined.

Lemma validateForm_again_witness :
  let schema := schemaOf [nameField] in
  let values2 : gmap jsstring any := {[ js "name" := VStr (js "Ann") ]} in
  let first := validateForm sampleToString ∅ schema noRules in
  separateRules noRules (fields schema)
  ∧ NoDup (id <$> fields schema)
  ∧ (validateForm sampleToString ∅ schema first.2).1 = first.1
  ∧ ∀ r, r ∈ dom first.2 →
         (validateForm sampleToString values2 schema first.2).2 !! r = first.2 !! r.
Proof.
  intros schema values2 first.
  split_and!; [apply nameField_separate|apply nameField_unique_ids|..];
    apply (validateForm_again sampleToString ∅ values2 schema noRules
             nameField_separate nameField_unique_ids).
Defined.

(** A is set to 3 in the form of the chain. *)
Lemma handleFieldChange_result_witness :
  let vals : gmap jsstring any := {[ js "a" := VNum 2%float ]} in
  let prev := {| state_values := 1%positive; state_errors := ∅; state_touched := ∅;
                 state_isValid := false |} in
  heapOf vals !! state_values prev = Some vals
  ∧ ∃ st h' σ',
      handleFieldChange sampleEval sampleToString (Some chain) (js "a") (VNum 3%float)
        prev (heapOf vals) ∅
      = Normal (st, h', σ')
      ∧ (state_values st ∉ dom (heapOf vals))
      ∧ (∀ l, l ∈ dom (heapOf vals) → h' !! l = heapOf vals !! l)
      ∧ (js "a" ∉ id <$> derivedFieldsOf chain →
         recordAt h' (state_values st) !! js "a" = Some (VNum 3%float))
      ∧ (∀ k, k ≠ js "a" → k ∉ id <$> derivedFieldsOf chain →
              recordAt h' (state_values st) !! k = vals !! k)
      ∧ dom vals ∪ {[js "a"]} ⊆ dom (recordAt h' (state_values st))
      ∧ validateForm sampleToString (recordAt h' (state_values st)) chain ∅
        = ({| isValid := state_isValid st; fieldErrors := state_errors st |}, σ')
      ∧ state_touched st = state_touched prev.
Proof.
  intros vals prev. split; [done|].
  exact (handleFieldChange_result sampleEval sampleToString chain (js "a") (VNum 3%float)
           prev (heapOf vals) ∅ vals eq_refl).
Defined.


End FurtherWitnesses.

(** * The record of a pass is a fixed point *)

Section FixedPoint.
Import DerivedFieldCalculator.

Variable evalJS : jsstring → gmap jsstring any → any + Error.

Lemma pass_consistent (formValues : loc) (schema : FormSchema) (h : heap)
    (vals : gmap jsstring any) :
  h !! formValues = Some vals →
  NoDup (id <$> fields schema) →
  (∀ f, ¬ tc (dependsOn schema) f f) →
  ∃ r h', updateDerivedFields evalJS formValues schema h = Normal (r, h')
    ∧ consistent evalJS schema vals (recordAt h' (values r)) (errors r).
Proof.
  intros Hvals Hnd Hacyc.
  pose proof (derived_unique_ids schema Hnd) as Hnd'.
  destruct (updateDerivedFields_acyclic evalJS formValues schema h vals Hvals Hnd Hacyc)
    as (order & h' & errs' & _ & _ & Hperm & Hndo & Hpf & Hrun & Hcopy & ->).
  eexists _, _. split; [done|]. cbn [values errors].
  destruct (computeLoop_frame _ _ _ _ _ _ _ Hrun) as [_ Hframe].
  assert (∀ g, g ∈ order → g ∈ derivedFieldsOf schema ∧ is_Some (derivedFrom g)) as Hsub.
  { intros g Hg. rewrite Hperm in Hg. split; [done|].
    by destruct (proj1 (elem_of_derivedFieldsOf _ _) Hg) as [? _]. }
  split.
  - intros k Hk. destruct (Hframe k) as [Hrec Herr].
    { by rewrite Hperm. }
    rewrite Hrec, Herr, Hcopy. by rewrite lookup_empty.
  - intros f config Hf Hc.
    assert (f ∈ order) as Hin.
    { rewrite Hperm. apply elem_of_derivedFieldsOf. split; [by eauto|done]. }
    apply list_elem_of_split in Hin as (before & after & ->).
    destruct (field_result evalJS _ _ _ _ _ _ _ _ Hndo Hrun Hc) as (res & Hres & Hm).
    exists res. split.
    + rewrite <- Hres. apply computeValue_ext. intros p Hp. symmetry.
      apply (working_agrees evalJS _ before (f :: after) _ _ _ _ Hrun).
      by apply (parent_not_later (derivedFieldsOf schema) before f after config p).
    + destruct (error res) as [e|]; destruct Hm as [He Hrec]; [|done].
      split; [|done]. rewrite Hrec. by rewrite Hcopy.
Qed.

(** Two consistent records are the same: without a cycle, the values of the
    other fields determine those of the derived fields. *)
Lemma consistent_unique (schema : FormSchema) (vals F1 F2 : gmap jsstring any)
    (e1 e2 : gmap jsstring DerivedFieldError) :
  NoDup (id <$> fields schema) →
  (∀ f, ¬ tc (dependsOn schema) f f) →
  consistent evalJS schema vals F1 e1 →
  consistent evalJS schema vals F2 e2 →
  F1 = F2 ∧ e1 = e2.
Proof.
  intros Hnd Hacyc [Hout1 Hin1] [Hout2 Hin2].
  pose proof (derived_unique_ids schema Hnd) as Hnd'.
  destruct (updateDerivedFields_acyclic evalJS 1%positive schema {[ 1%positive := vals ]}
              vals (lookup_singleton_eq _ _) Hnd Hacyc)
    as (order & _ & _ & _ & _ & Hperm & Hndo & Hpf & _).
  assert (∀ i f, order !! i = Some f →
            F1 !! id f = F2 !! id f ∧ e1 !! id f = e2 !! id f) as Hagree.
  { intros i. induction i as [i IH] using lt_wf_ind. intros f Hi.
    assert (f ∈ derivedFieldsOf schema) as Hf.
    { rewrite <- Hperm. by eapply list_elem_of_lookup_2. }
    apply elem_of_derivedFieldsOf in Hf as [[config Hc] Hfs].
    destruct (Hin1 f config Hfs Hc) as (r1 & Hr1 & Hm1).
    destruct (Hin2 f config Hfs Hc) as (r2 & Hr2 & Hm2).
    assert (computeValue evalJS config F1 = computeValue evalJS config F2) as Heq.
    { apply computeValue_ext. intros p Hp.
      destruct (decide (p ∈ id <$> derivedFieldsOf schema)) as [Hd|Hd].
      - apply list_elem_of_fmap in Hd as (g & -> & Hg).
        assert (edge (derivedFieldsOf schema) (id f) (id g)) as Hedge.
        { exists f, config, g. split_and!; try done.
          - apply findField_unique; [done|].
            apply elem_of_derivedFieldsOf. split; [by eauto|done].
          - by apply findField_unique.
          - by apply elem_of_derivedFieldsOf in Hg as [? _]. }
        destruct (Hpf i f (id g) Hi Hedge) as (j & g' & Hj & Hg' & Hid).
        rewrite <- Hid. by apply (IH j Hj g').
      - destruct (Hout1 p Hd) as [-> _]. by destruct (Hout2 p Hd) as [-> _]. }
    assert (r1 = r2) as -> by congruence.
    destruct (error r2) as [e|]; destruct Hm1 as [-> ->], Hm2 as [-> ->]; done. }
  assert (∀ k, F1 !! k = F2 !! k ∧ e1 !! k = e2 !! k) as Hall.
  { intros k. destruct (decide (k ∈ id <$> derivedFieldsOf schema)) as [Hd|Hd].
    - rewrite <- Hperm in Hd. apply list_elem_of_fmap in Hd as (f & -> & Hf).
      apply list_elem_of_lookup in Hf as [i Hi]. by apply (Hagree i).
    - destruct (Hout1 k Hd) as [-> ->]. by destruct (Hout2 k Hd) as [-> ->]. }
  split; apply map_eq; intros k; by destruct (Hall k).
Qed.

(** The conditions on a schema do not depend on the order of its fields. *)
Lemma consistent_permutation (schema schema' : FormSchema) (vals F : gmap jsstring any)
    (errs : gmap jsstring DerivedFieldError) :
  fields schema' ≡ₚ fields schema →
  consistent evalJS schema' vals F errs → consistent evalJS schema vals F errs.
Proof.
  intros Hperm [Hout Hin]. split.
  - intros k Hk. apply Hout. intros (g & -> & Hg)%list_elem_of_fmap. apply Hk.
    apply list_elem_of_fmap. exists g. split; [done|].
    apply elem_of_derivedFieldsOf in Hg as [? Hg]. apply elem_of_derivedFieldsOf.
    split; [done|]. by rewrite <- Hperm.
  - intros f config Hf Hc. apply Hin; [|done]. by rewrite Hperm.
Qed.

Lemma acyclic_permutation (schema schema' : FormSchema) :
  fields schema' ≡ₚ fields schema →
  (∀ f, ¬ tc (dependsOn schema) f f) → ∀ f, ¬ tc (dependsOn schema') f f.
Proof.
  intros Hperm Hacyc f Hf. apply (Hacyc f).
  assert (∀ a b, dependsOn schema' a b → dependsOn schema a b) as Hsub.
  { intros a b (Ha & Hb & Hd & Hc). split_and!; [by rewrite <- Hperm..|done|done]. }
  clear -Hf Hsub.
  assert (∀ a b, tc (dependsOn schema') a b → tc (dependsOn schema) a b) as Htc.
  { intros a b Hab. induction Hab as [a b Hab|a b c Hab _ IH].
    - apply tc_once. by apply Hsub.
    - eapply tc_l; [by apply Hsub|done]. }
  by apply Htc.
Qed.

(** X25. In a schema with unique field ids and no cycle, the record that a
    pass returns is consistent: the entry of every derived field without an
    error is what [computeValue] gives for the field on that very record, so
    on the final values of its parents; a derived field with an error has the
    error that [computeValue] gives there, with the id of the field, and the
    entry that the record given had. The evaluator is taken to be a function
    of the expression and of the context it is given. *)
Theorem pass_reaches_fixed_point (formValues : loc) (schema : FormSchema) (h : heap)
    (vals : gmap jsstring any) :
  h !! formValues = Some vals →
  NoDup (id <$> fields schema) →
  (∀ f, ¬ tc (dependsOn schema) f f) →
  ∃ r h', updateDerivedFields evalJS formValues schema h = Normal (r, h')
    ∧ ∀ f config, f ∈ fields schema → derivedFrom f = Some config →
        ∃ res, computeValue evalJS config (recordAt h' (values r)) = Normal res
          ∧ match error res with
            | None => recordAt h' (values r) !! id f = Some (value res)
                      ∧ errors r !! id f = None
            | Some e => recordAt h' (values r) !! id f = vals !! id f
                        ∧ errors r !! id f = Some (withFieldId e (id f))
            end.
Proof.
  intros Hvals Hnd Hacyc.
  destruct (pass_consistent formValues schema h vals Hvals Hnd Hacyc)
    as (r & h' & Hupd & _ & Hin).
  by exists r, h'.
Qed.

(** X26. The order in which the fields are declared does not matter: for
    a schema with unique field ids and no cycle, the pass over a schema with
    the same fields in another order returns a record with the same entries
    and the same errors. The evaluator is taken to be a function of the
    expression and of the context it is given. *)
Theorem declaration_order_irrelevant (formValues : loc) (schema schema' : FormSchema)
    (h : heap) (vals : gmap jsstring any) :
  h !! formValues = Some vals →
  NoDup (id <$> fields schema) →
  (∀ f, ¬ tc (dependsOn schema) f f) →
  fields schema' ≡ₚ fields schema →
  ∃ r h1 r' h2,
    updateDerivedFields evalJS formValues schema h = Normal (r, h1)
    ∧ updateDerivedFields evalJS formValues schema' h = Normal (r', h2)
    ∧ recordAt h1 (values r) = recordAt h2 (values r')
    ∧ errors r = errors r'.
Proof.
  intros Hvals Hnd Hacyc Hperm.
  assert (NoDup (id <$> fields schema')) as Hnd' by by rewrite Hperm.
  pose proof (acyclic_permutation schema schema' Hperm Hacyc) as Hacyc'.
  destruct (pass_consistent formValues schema h vals Hvals Hnd Hacyc)
    as (r & h1 & Hupd & Hc).
  destruct (pass_consistent formValues schema' h vals Hvals Hnd' Hacyc')
    as (r' & h2 & Hupd' & Hc').
  apply (consistent_permutation schema schema') in Hc'; [|done].
  destruct (consistent_unique schema vals _ _ _ _ Hnd Hacyc Hc Hc') as [HF He].
  by exists r, h1, r', h2.
Qed.

End FixedPoint.

Section FixedPointWitnesses.
Import DerivedFieldCalculator Examples.

Lemma pass_reaches_fixed_point_witness :
  let vals : gmap jsstring any := {[ js "a" := VNum 2%float ]} in
  heapOf vals !! 1%positive = Some vals
  ∧ NoDup (id <$> fields chain)
  ∧ (∀ f, ¬ tc (dependsOn chain) f f)
  ∧ ∃ r h', updateDerivedFields sampleEval 1%positive chain (heapOf vals) = Normal (r, h')
    ∧ ∀ f config, f ∈ fields chain → derivedFrom f = Some config →
        ∃ res, computeValue sampleEval config (recordAt h' (values r)) = Normal res
          ∧ match error res with
            | None => recordAt h' (values r) !! id f = Some (value res)
                      ∧ errors r !! id f = None
            | Some e => recordAt h' (values r) !! id f = vals !! id f
                        ∧ errors r !! id f = Some (withFieldId e (id f))
            end.
Proof.
  intros vals. split_and!; [done|apply chain_unique_ids|apply chain_acyclic|].
  exact (pass_reaches_fixed_point sampleEval 1%positive chain (heapOf vals) vals
           eq_refl chain_unique_ids chain_acyclic).
Defined.

(** The chain with B declared before C, and A last. *)
Lemma declaration_order_irrelevant_witness :
  let vals : gmap jsstring any := {[ js "a" := VNum 2%float ]} in
  let chain' := schemaOf [derivedField "b" ["a"] "a*2"; derivedField "c" ["b"] "b+1";
                          plainField "a"] in
  heapOf vals !! 1%positive = Some vals
  ∧ NoDup (id <$> fields chain)
  ∧ (∀ f, ¬ tc (dependsOn chain) f f)
  ∧ fields chain' ≡ₚ fields chain
  ∧ ∃ r h1 r' h2,
      updateDerivedFields sampleEval 1%positive chain (heapOf vals) = Normal (r, h1)
      ∧ updateDerivedFields sampleEval 1%positive chain' (heapOf vals) = Normal (r', h2)
      ∧ recordAt h1 (values r) = recordAt h2 (values r')
      ∧ errors r = errors r'.
Proof.
  intros vals chain'.
  assert (fields chain' ≡ₚ fields chain) as Hperm.
  { simpl. etrans; [apply Permutation_cons_append|]. simpl. apply perm_swap. }
  split_and!; [done|apply chain_unique_ids|apply chain_acyclic|exact Hperm|].
  exact (declaration_order_irrelevant sampleEval 1%positive chain chain' (heapOf vals)
           vals eq_refl chain_unique_ids chain_acyclic Hperm).
Defined.

End FixedPointWitnesses.

(** * The change of a field and the validation that follows *)

Section EffectProperties.
Import DerivedFieldCalculator ValidationEngine FormPreview.

Variable evalJS : jsstring → gmap jsstring any → any + Error.
Variable ToString : any → jsstring.

(** X27. When the fields of the schema have unique ids and no two of them
    share an array of rules, the validation that the effect runs after a
    change of a field changes nothing: [handleFieldChange] has validated the
    new record already, so the effect gives the same state, and it changes no
    array that the store holds. *)
Theorem validation_after_change (schema : FormSchema) (fieldId : jsstring)
    (value : any) (prev : FormState) (h : heap) (σ : ruleStore)
    (vals : gmap jsstring any) :
  h !! state_values prev = Some vals →
  separateRules σ (fields schema) →
  NoDup (id <$> fields schema) →
  ∃ st h' σ' σ'',
    handleFieldChange evalJS ToString (Some schema) fieldId value prev h σ
    = Normal (st, h', σ')
    ∧ validationEffect ToString (Some schema) st h' σ' = (st, σ'')
    ∧ ∀ r, r ∈ dom σ' → σ'' !! r = σ' !! r.
Proof.
  intros Hvals Hsep Hnd.
  set (l1 := fresh (dom h)).
  set (h1 := <[l1 := <[fieldId := value]> (recordAt h (state_values prev))]> h).
  destruct (updateDerivedFields_total evalJS l1 schema h1) as (r & h2 & Hupd & _).
  set (F := recordAt h2 (values r)).
  pose proof (validateForm_repeat ToString F F schema σ Hsep Hnd) as Hrep.
  cbv zeta in Hrep.
  destruct (validateForm ToString F schema σ) as [res σ'] eqn:Hform.
  cbn [fst snd] in Hrep. destruct Hrep as [Hres Hstore].
  destruct (validateForm ToString F schema σ') as [res2 σ''] eqn:Hform2.
  cbn [fst snd] in Hres, Hstore. subst res2.
  exists {| state_values := values r; state_errors := fieldErrors res;
            state_touched := state_touched prev; state_isValid := isValid res |},
    h2, σ', (if 0 <? size F then σ'' else σ').
  split_and!.
  - unfold handleFieldChange, spreadWith. cbv zeta. fold l1. fold h1. rewrite Hupd.
    cbn -[validateForm]. fold F. by rewrite Hform.
  - unfold validationEffect. cbn [state_values state_touched]. fold F.
    destruct (0 <? size F); [|done]. by rewrite Hform2.
  - intros r0 Hr0. destruct (0 <? size F); [by apply Hstore|done].
Qed.

End EffectProperties.

Section EffectWitnesses.
Import DerivedFieldCalculator ValidationEngine FormPreview Examples.

(** The name is typed into the form of the one required field "Name". *)
Lemma validation_after_change_witness :
  let schema := schemaOf [nameField] in
  let prev := {| state_values := 1%positive; state_errors := ∅; state_touched := ∅;
                 state_isValid := false |} in
  let h : heap := heapOf {[ js "name" := VStr [] ]} in
  h !! state_values prev = Some {[ js "name" := VStr [] ]}
  ∧ separateRules noRules (fields schema)
  ∧ NoDup (id <$> fields schema)
  ∧ ∃ st h' σ' σ'',
      handleFieldChange sampleEval sampleToString (Some schema) (js "name")
        (VStr (js "Ann")) prev h noRules
      = Normal (st, h', σ')
      ∧ validationEffect sampleToString (Some schema) st h' σ' = (st, σ'')
      ∧ ∀ r, r ∈ dom σ' → σ'' !! r = σ' !! r.
Proof.
  intros schema prev h.
  split_and!; [done|apply nameField_separate|apply nameField_unique_ids|].
  exact (validation_after_change sampleEval sampleToString schema (js "name")
           (VStr (js "Ann")) prev h noRules _ eq_refl
           nameField_separate nameField_unique_ids).
Defined.

End EffectWitnesses.
